(** * FB-PIC GPU utilities ([fbpic/cuda_utils.py])

    A shallow embedding of the launch-grid helpers, the copy kernels, the
    spectral combination kernels and the two memory management functions
    of [cuda_utils.py], with the properties of the accompanying
    specification proved about them, and further properties of the code.

    Conventions of the model.
    - Python integers are unbounded: they are [Z]. The division [x/TPB]
      of the launch-grid helpers is modelled for Python 2 (floor
      division) and for Python 3 (true division); the floats of Python 3
      are IEEE 754 binary64 numbers, with their rounding to nearest,
      ties to even, and the [OverflowError] of a quotient beyond them.
    - [complex128] values are modelled by exact Gaussian rationals (every
      finite binary64 number is a rational); in the kernels binary64
      rounding, infinities and NaN are not modelled.
    - Device arrays are objects of a store, addressed by a handle; two
      kernel arguments alias exactly when they are the same handle. The
      order of the items of an array in memory is not modelled.
    - A kernel is the body run by one CUDA thread: a sequence of accesses
      to the device memory. A launch runs the body for every thread of
      the grid. The properties are stated for the threads run one after
      the other in any order (a schedule); [interleaved_launch] shows
      that interleaving the accesses of the threads leaves the same
      memory.

    - The methods that [send_data_to_gpu] and [receive_data_from_gpu]
      call are no part of the module: they act on a world that is left
      open, and may raise.

    The file has the definitions first (the model of the source, then the
    notions that the statements and the proofs use), then the lemmas, then
    the properties of the specification, each under its number (C), then
    the further properties (X). *)

From Stdlib Require Import ZArith QArith Qcanon Lia.
From stdpp Require Import base option list gmap.

(* ===================================================================== *)
(** * Python numbers, as far as [int(x/TPB + 1)] needs them *)
(* ===================================================================== *)

Module Py.

(** The meaning of [/] between two integers depends on the language
    version: floor division in Python 2 (the module does not import
    [division] from [__future__], and the test suite of the repository
    calls [execfile], a Python 2 builtin), true division in Python 3,
    whose result is a float. Both are modelled. *)
Inductive version := Py2 | Py3.

(** The exceptions that the arithmetic of the module raises. *)
Inductive exn := ZeroDivisionError | OverflowError.

(** What the evaluation of an expression gives: a value, or an
    exception. *)
Inductive result (A : Type) : Type :=
  | Return (a : A)
  | Raise (e : exn).

Arguments Return {A} a.
Arguments Raise {A} e.

#[global] Instance result_ret : MRet result := @Return.
#[global] Instance result_bind : MBind result :=
  λ A B k r, match r with Return a => k a | Raise e => Raise e end.

Local Open Scope Z_scope.

(** ** The floats of Python: IEEE 754 binary64

    A finite float is a rational [m * 2^e] with [|m| ≤ 2^53] and
    [e ≥ -1074], below [2^1024] in absolute value. The operations return
    the float nearest to the exact result, ties to the even mantissa. *)

(** The integer nearest to [n / d], for [d > 0]; ties to even. *)
Definition rne (n d : Z) : Z :=
  let q := n / d in
  match 2 * (n mod d) ?= d with
  | Lt => q
  | Gt => q + 1
  | Eq => if Z.even q then q else q + 1
  end.

(** The floor of the binary logarithm of [n / d], for [n, d > 0]. *)
Definition ilog2 (n d : Z) : Z :=
  let c := Z.log2 n - Z.log2 d in
  if d * 2 ^ Z.max c 0 <=? n * 2 ^ Z.max (- c) 0 then c else c - 1.

(** The float nearest to the rational [q], as a rational: [q] is rounded
    to a multiple of [2^e], where [e] leaves 53 bits to the mantissa and
    is [-1074] at least (the subnormal numbers). [None] when the
    rounded number is beyond the floats. *)
Definition binary64 (q : Q) : option Q :=
  let n := Qnum q in
  let d := Z.pos (Qden q) in
  if n =? 0 then Some (0 # 1)%Q
  else
    let e := Z.max (-1074) (ilog2 (Z.abs n) d - 52) in
    let m := rne (n * 2 ^ Z.max (- e) 0) (d * 2 ^ Z.max e 0) in
    if 2 ^ 1024 <=? Z.abs m * 2 ^ Z.max e 0 then None
    else Some (Qmake (m * 2 ^ Z.max e 0) (Z.to_pos (2 ^ Z.max (- e) 0))).

(** ** Numbers *)

(** An integer (unbounded), a finite float, or an infinite float. *)
Inductive num :=
  | PyInt (z : Z)
  | PyFloat (q : Q)
  | PyInf.

(** [x / y] on two integers. Python 2: the floor of the quotient.
    Python 3: the float nearest to the quotient, or [OverflowError]
    when it is beyond the floats. Both raise [ZeroDivisionError] for
    [y = 0]. *)
Definition div (v : version) (x y : Z) : result num :=
  if y =? 0 then Raise ZeroDivisionError
  else match v with
       | Py2 => Return (PyInt (x / y))
       | Py3 =>
           match binary64 (inject_Z x / inject_Z y) with
           | Some q => Return (PyFloat q)
           | None => Raise OverflowError
           end
       end.

(** [a + n] for an integer [n]. With a float [a], [n] is first made a
    float ([OverflowError] when it is beyond the floats), and the sum is
    the float nearest to the exact sum, infinite when that is beyond
    the floats. *)
Definition add_int (a : num) (n : Z) : result num :=
  match a with
  | PyInt z => Return (PyInt (z + n))
  | PyFloat q =>
      match binary64 (inject_Z n) with
      | Some qn =>
          Return (match binary64 (q + qn) with
                  | Some s => PyFloat s
                  | None => PyInf
                  end)
      | None => Raise OverflowError
      end
  | PyInf =>
      match binary64 (inject_Z n) with
      | Some _ => Return PyInf
      | None => Raise OverflowError
      end
  end.

(** [int(a)]: the identity on an integer, truncation toward zero on a
    finite float, [OverflowError] on an infinite one. *)
Definition int (a : num) : result Z :=
  match a with
  | PyInt z => Return z
  | PyFloat q => Return (Z.quot (Qnum q) (Z.pos (Qden q)))
  | PyInf => Raise OverflowError
  end.

End Py.

(* ===================================================================== *)
(** * CUDA grid utilities *)
(* ===================================================================== *)

Local Open Scope Z_scope.

(** [cuda_tpb_bpg_1d(x, TPB = 256)]:
    [BPG = int(x/TPB + 1); return BPG, TPB]. *)
Definition cuda_tpb_bpg_1d (v : Py.version) (x TPB : Z)
  : Py.result (Z * Z) :=
  q ← Py.div v x TPB;
  s ← Py.add_int q 1;
  BPG ← Py.int s;
  mret (BPG, TPB).

(** [cuda_tpb_bpg_2d(x, y, TPBx = 8, TPBy = 8)]:
    [BPGx = int(x/TPBx + 1); BPGy = int(y/TPBy + 1);
     return (BPGx, BPGy), (TPBx, TPBy)]. *)
Definition cuda_tpb_bpg_2d (v : Py.version) (x y TPBx TPBy : Z)
  : Py.result ((Z * Z) * (Z * Z)) :=
  qx ← Py.div v x TPBx;
  sx ← Py.add_int qx 1;
  BPGx ← Py.int sx;
  qy ← Py.div v y TPBy;
  sy ← Py.add_int qy 1;
  BPGy ← Py.int sy;
  mret ((BPGx, BPGy), (TPBx, TPBy)).

(** The arguments for which the floats of Python 3 are fine enough. In
    [cover_range] the quotient and the sum are each rounded between the
    integers next to them; in [exact_range] the roundings do not change
    the integer part of the sum. Python 2 computes on integers: no
    condition. *)
Definition cover_range (v : Py.version) (x TPB : Z) : Prop :=
  match v with
  | Py.Py2 => True
  | Py.Py3 => x / TPB + 2 < 2 ^ 53
  end.

Definition exact_range (v : Py.version) (x TPB : Z) : Prop :=
  match v with
  | Py.Py2 => True
  | Py.Py3 => Z.abs x + 2 * Z.abs TPB ≤ 2 ^ 52
  end.

(** The default values of the keyword arguments. *)
Definition TPB_default : Z := 256.

Local Close Scope Z_scope.

(* ===================================================================== *)
(** * Complex numbers *)
(* ===================================================================== *)

(** A [complex128] value, over exact rationals. *)
Record C : Type := mkC { re : Qc; im : Qc }.

Global Instance C_eq_dec : EqDecision C.
Proof. solve_decision. Defined.

Definition Cadd (a b : C) : C := mkC (re a + re b) (im a + im b).
Definition Csub (a b : C) : C := mkC (re a - re b) (im a - im b).
Definition Cmul (a b : C) : C :=
  mkC (re a * re b - im a * im b) (re a * im b + im a * re b).

(** A float operand of a complex operation is first made complex. *)
Definition Cfloat (q : Qc) : C := mkC q 0.

(** The literals [0.5] and [1.j] of the source, and integers as complex
    values for the examples. *)
Definition half : Qc := Q2Qc (1 # 2).
Definition Cj : C := mkC 0 1.
Definition Cint (n : Z) : C := Cfloat (Q2Qc (inject_Z n)).
Definition Cdec (n : Z) (d : positive) : C := Cfloat (Q2Qc (n # d)).
Definition Cq (x y : Q) : C := mkC (Q2Qc x) (Q2Qc y).

(* ===================================================================== *)
(** * Device memory *)
(* ===================================================================== *)

(** A device array is an object with a shape and one item per index
    inside the shape. The order of the items in memory (C or Fortran) is
    not part of the model: [item] is the logical content. *)
Record darray : Type := DArray {
  shape : list nat;
  item : list nat → C
}.

(** Kernel arguments are handles of array objects; two arguments that are
    the same handle are the same storage. *)
Definition handle : Type := nat.

Abbreviation mem := (gmap handle darray).

(** [idx] is a valid index of an array of shape [dims]: as many
    coordinates as dimensions, each below its extent. *)
Fixpoint in_bounds (idx dims : list nat) : bool :=
  match idx, dims with
  | [], [] => true
  | i :: idx', n :: dims' => (i <? n) && in_bounds idx' dims'
  | _, _ => false
  end.

(** [d[idx] = v] on the content. *)
Definition write (d : darray) (idx : list nat) (v : C) : darray :=
  DArray (shape d) (λ j, if decide (j = idx) then v else item d j).

(** The shape of the object behind a handle, and the valid item at an
    index, as observations of a memory. *)
Definition shape_of (h : mem) (a : handle) : option (list nat) :=
  shape <$> h !! a.

Definition peek (h : mem) (a : handle) (idx : list nat) : option C :=
  d ← h !! a;
  if in_bounds idx (shape d) then Some (item d idx) else None.

(* ===================================================================== *)
(** * Kernel bodies *)
(* ===================================================================== *)

(** The body of a kernel is what one thread does: accesses to the device
    memory, one after the other, each followed by what the thread does
    with the value it gets. The accesses are the three of the module:
    [a.shape[k]], [a[idx]] read and [a[idx] = v]. *)
Inductive prog (A : Type) : Type :=
  | Ret (x : A)
  | ShapeAt (a : handle) (k : nat) (cont : nat → prog A)
  | Load (a : handle) (idx : list nat) (cont : C → prog A)
  | Store (a : handle) (idx : list nat) (v : C) (cont : prog A).

Arguments Ret {A} x.
Arguments ShapeAt {A} a k cont.
Arguments Load {A} a idx cont.
Arguments Store {A} a idx v cont.

Fixpoint pbind {A B} (p : prog A) (f : A → prog B) : prog B :=
  match p with
  | Ret x => f x
  | ShapeAt a k cont => ShapeAt a k (λ n, pbind (cont n) f)
  | Load a idx cont => Load a idx (λ v, pbind (cont v) f)
  | Store a idx v cont => Store a idx v (pbind cont f)
  end.

Notation "x <~ c1 ;; c2" := (pbind c1 (λ x, c2))
  (at level 100, c1 at next level, right associativity).

(** [a.shape[k]] *)
Definition shape_at (a : handle) (k : nat) : prog nat := ShapeAt a k Ret.

(** [a[idx]] as an expression *)
Definition load (a : handle) (idx : list nat) : prog C := Load a idx Ret.

(** [a[idx] = v] *)
Definition store (a : handle) (idx : list nat) (v : C) : prog unit :=
  Store a idx v (Ret ()).

(** [e1 and e2]: the second operand is evaluated only when the first is
    true. *)
Definition and_then (c1 c2 : prog bool) : prog bool :=
  b <~ c1 ;; if b then c2 else Ret false.

(** [(iz < a.shape[0]) and (ir < a.shape[1])], the guard of every
    kernel. *)
Definition guard (a : handle) (iz ir : nat) : prog bool :=
  and_then (n0 <~ shape_at a 0 ;; Ret (iz <? n0))
           (n1 <~ shape_at a 1 ;; Ret (ir <? n1)).

(** A thread of a two-dimensional grid: the pair [cuda.grid(2)]. *)
Definition tid : Type := nat * nat.

(* ===================================================================== *)
(** * Copying functions *)
(* ===================================================================== *)

(** [cuda_copy_2d_to_2d( array_in, array_out )] *)
Definition cuda_copy_2d_to_2d (array_in array_out : handle) (t : tid)
  : prog unit :=
  let '(iz, ir) := t in
  b <~ guard array_in iz ir ;;
  if b then
    v <~ load array_in [iz; ir] ;;
    store array_out [iz; ir] v
  else Ret ().

(** [cuda_copy_2d_to_1d( array_2d, array_1d )] *)
Definition cuda_copy_2d_to_1d (array_2d array_1d : handle) (t : tid)
  : prog unit :=
  let '(iz, ir) := t in
  b <~ guard array_2d iz ir ;;
  if b then
    n0 <~ shape_at array_2d 0 ;;
    let i := iz + n0 * ir in
    v <~ load array_2d [iz; ir] ;;
    store array_1d [i] v
  else Ret ().

(** [cuda_copy_1d_to_2d( array_1d, array_2d )] *)
Definition cuda_copy_1d_to_2d (array_1d array_2d : handle) (t : tid)
  : prog unit :=
  let '(iz, ir) := t in
  b <~ guard array_2d iz ir ;;
  if b then
    n0 <~ shape_at array_2d 0 ;;
    let i := iz + n0 * ir in
    v <~ load array_1d [i] ;;
    store array_2d [iz; ir] v
  else Ret ().

(* ===================================================================== *)
(** * Functions that combine components in spectral space *)
(* ===================================================================== *)

(** [cuda_rt_to_pm( buffer_r, buffer_t, buffer_p, buffer_m )] *)
Definition cuda_rt_to_pm (buffer_r buffer_t buffer_p buffer_m : handle)
  (t : tid) : prog unit :=
  let '(iz, ir) := t in
  b <~ guard buffer_r iz ir ;;
  if b then
    value_r <~ load buffer_r [iz; ir] ;;
    value_t <~ load buffer_t [iz; ir] ;;
    _ <~ store buffer_p [iz; ir]
           (Cmul (Cfloat half) (Csub value_r (Cmul Cj value_t))) ;;
    store buffer_m [iz; ir]
      (Cmul (Cfloat half) (Cadd value_r (Cmul Cj value_t)))
  else Ret ().

(** [cuda_pm_to_rt( buffer_p, buffer_m, buffer_r, buffer_t )] *)
Definition cuda_pm_to_rt (buffer_p buffer_m buffer_r buffer_t : handle)
  (t : tid) : prog unit :=
  let '(iz, ir) := t in
  b <~ guard buffer_p iz ir ;;
  if b then
    value_p <~ load buffer_p [iz; ir] ;;
    value_m <~ load buffer_m [iz; ir] ;;
    _ <~ store buffer_r [iz; ir] (Cadd value_p value_m) ;;
    store buffer_t [iz; ir] (Cmul Cj (Csub value_p value_m))
  else Ret ().

(* ===================================================================== *)
(** * The run of a body on the device memory *)
(* ===================================================================== *)

(** A thread that runs alone reads and writes the device memory: a state
    monad over the memory. [None] is a fault: an access outside an array
    (which the device does not check) or through a handle that is no
    array of the expected rank. *)
Definition kernel (A : Type) : Type := mem → option (A * mem).

Definition kret {A} (a : A) : kernel A := λ h, Some (a, h).

Definition kbind {A B} (c : kernel A) (k : A → kernel B) : kernel B :=
  λ h, match c h with
       | Some (a, h') => k a h'
       | None => None
       end.

Notation "x <<~ c1 ;; c2" := (kbind c1 (λ x, c2))
  (at level 100, c1 at next level, right associativity).

(** The three accesses on the memory. *)
Definition kshape_at (a : handle) (k : nat) : kernel nat :=
  λ h, d ← h !! a; n ← shape d !! k; Some (n, h).

Definition kload (a : handle) (idx : list nat) : kernel C :=
  λ h, d ← h !! a;
       if in_bounds idx (shape d) then Some (item d idx, h) else None.

Definition kstore (a : handle) (idx : list nat) (v : C) : kernel unit :=
  λ h, d ← h !! a;
       if in_bounds idx (shape d) then Some ((), <[a := write d idx v]> h)
       else None.

(** The run of a body: its accesses, one after the other. *)
Fixpoint run {A} (p : prog A) : kernel A :=
  match p with
  | Ret x => kret x
  | ShapeAt a k cont => n <<~ kshape_at a k ;; run (cont n)
  | Load a idx cont => v <<~ kload a idx ;; run (cont v)
  | Store a idx v cont => _ <<~ kstore a idx v ;; run cont
  end.

(* ===================================================================== *)
(** * The common shape of the five kernel bodies *)
(* ===================================================================== *)

(** A cell of the device memory: an array and an index. *)
Definition loc : Type := handle * list nat.

Definition view (h : mem) (l : loc) : option C := peek h l.1 l.2.

Fixpoint load_all (ls : list loc) : kernel (list C) :=
  match ls with
  | [] => kret []
  | l :: ls' => v <<~ kload l.1 l.2 ;; vs <<~ load_all ls' ;; kret (v :: vs)
  end.

Fixpoint store_all (ws : list (loc * C)) : kernel unit :=
  match ws with
  | [] => kret ()
  | w :: ws' => _ <<~ kstore w.1.1 w.1.2 w.2 ;; store_all ws'
  end.

(** The run of every kernel of the module is an instance of this one:
    behind the guard on the array [g], a thread first reads the cells
    [rd], then writes the cells [wr] with values computed from what it
    has read. The extent [g.shape[0]] is passed to both, for the flat
    index. Used in the proofs only; the run of each kernel is proved
    equal to its instance. *)
Definition pointwise (g : handle) (rd : nat → tid → list loc)
  (wr : nat → tid → list C → list (loc * C)) (t : tid) : kernel unit :=
  b <<~ run (guard g t.1 t.2) ;;
  if b then
    n0 <<~ kshape_at g 0 ;;
    vs <<~ load_all (rd n0 t) ;;
    store_all (wr n0 t vs)
  else kret ().

(** The last value written to [l] by a sequence of writes, if any. *)
Fixpoint last_write (ws : list (loc * C)) (l : loc) : option C :=
  match ws with
  | [] => None
  | w :: ws' =>
      match last_write ws' l with
      | Some v => Some v
      | None => if decide (w.1 = l) then Some w.2 else None
      end
  end.

(** A view after a sequence of writes. *)
Definition override (ws : list (loc * C)) (ρ : loc → option C) (l : loc)
  : option C :=
  match last_write ws l with
  | Some v => Some v
  | None => ρ l
  end.

(** The values a thread reads from the cells [ls] of a memory. *)
Definition vals (h : mem) (ls : list loc) : list C :=
  (λ l, default (mkC 0 0) (view h l)) <$> ls.

(** The thread [t] is inside the guarded extents. *)
Definition active (Nz Nr : nat) (t : tid) : bool :=
  (t.1 <? Nz) && (t.2 <? Nr).

(** The writes of a thread, computed from the cells of the memory [h0]
    the launch starts from. *)
Definition effects (rd : nat → tid → list loc)
  (wr : nat → tid → list C → list (loc * C)) (Nz Nr : nat) (h0 : mem)
  (t : tid) : list (loc * C) :=
  if active Nz Nr t then wr Nz t (vals h0 (rd Nz t)) else [].

(** The instances. *)
Definition idx2 (t : tid) : list nat := [t.1; t.2].
Definition flat (n0 : nat) (t : tid) : list nat := [t.1 + n0 * t.2].

Definition copy_writes (dst : loc) (vs : list C) : list (loc * C) :=
  match vs with
  | [v] => [(dst, v)]
  | _ => []
  end.

Definition rt_p (value_r value_t : C) : C :=
  Cmul (Cfloat half) (Csub value_r (Cmul Cj value_t)).
Definition rt_m (value_r value_t : C) : C :=
  Cmul (Cfloat half) (Cadd value_r (Cmul Cj value_t)).
Definition pm_r (value_p value_m : C) : C := Cadd value_p value_m.
Definition pm_t (value_p value_m : C) : C :=
  Cmul Cj (Csub value_p value_m).

Definition combine_writes (f1 f2 : C → C → C) (out1 out2 : loc)
  (vs : list C) : list (loc * C) :=
  match vs with
  | [v1; v2] => [(out1, f1 v1 v2); (out2, f2 v1 v2)]
  | _ => []
  end.

Definition rd1 (src : handle) (ix : nat → tid → list nat)
  : nat → tid → list loc :=
  λ n0 t, [(src, ix n0 t)].
Definition wr1 (dst : handle) (ix : nat → tid → list nat)
  : nat → tid → list C → list (loc * C) :=
  λ n0 t, copy_writes (dst, ix n0 t).

Definition rd2 (in1 in2 : handle) : nat → tid → list loc :=
  λ _ t, [(in1, idx2 t); (in2, idx2 t)].
Definition wr2 (f1 f2 : C → C → C) (out1 out2 : handle)
  : nat → tid → list C → list (loc * C) :=
  λ _ t, combine_writes f1 f2 (out1, idx2 t) (out2, idx2 t).

(* ===================================================================== *)
(** * Kernel launches *)
(* ===================================================================== *)

(** The threads of a launch with [bpg] blocks per grid and [tpb] threads
    per block, in each of the two dimensions: [cuda.grid(2)] takes every
    value below [bpg * tpb] once in each dimension. *)
Definition cuda_grid (bpg tpb : nat * nat) : list tid :=
  ix ← seq 0 (bpg.1 * tpb.1);
  iy ← seq 0 (bpg.2 * tpb.2);
  [(ix, iy)].

(** The threads run in an order the caller does not choose. A schedule
    is the threads of a launch in some order; running it runs the body of
    each thread in turn, the accesses of one thread before those of the
    next. The properties below are proved for every schedule, and
    [interleaved_launch] shows that the accesses of the threads may as
    well be interleaved. *)
Fixpoint run_threads (body : tid → kernel unit) (ts : list tid)
  : kernel unit :=
  match ts with
  | [] => kret ()
  | t :: ts' => _ <<~ body t ;; run_threads body ts'
  end.

(** The signature given to [cuda.jit]: each argument is an array of the
    stated number of dimensions, or the launch is refused. *)
Definition has_ndim (h : mem) (an : handle * nat) : bool :=
  match shape_of h an.1 with
  | Some dims => length dims =? an.2
  | None => false
  end.

Definition cuda_jit (sig : list (handle * nat)) (body : tid → prog unit)
  (ts : list tid) : kernel unit :=
  λ h, if forallb (has_ndim h) sig
       then run_threads (λ t, run (body t)) ts h
       else None.

(** The five kernels with their signatures, launched on a schedule. *)
Definition launch_copy_2d_to_2d (ts : list tid) (array_in array_out : handle)
  : kernel unit :=
  cuda_jit [(array_in, 2); (array_out, 2)]
    (cuda_copy_2d_to_2d array_in array_out) ts.

Definition launch_copy_2d_to_1d (ts : list tid) (array_2d array_1d : handle)
  : kernel unit :=
  cuda_jit [(array_2d, 2); (array_1d, 1)]
    (cuda_copy_2d_to_1d array_2d array_1d) ts.

Definition launch_copy_1d_to_2d (ts : list tid) (array_1d array_2d : handle)
  : kernel unit :=
  cuda_jit [(array_1d, 1); (array_2d, 2)]
    (cuda_copy_1d_to_2d array_1d array_2d) ts.

Definition launch_rt_to_pm (ts : list tid)
  (buffer_r buffer_t buffer_p buffer_m : handle) : kernel unit :=
  cuda_jit [(buffer_r, 2); (buffer_t, 2); (buffer_p, 2); (buffer_m, 2)]
    (cuda_rt_to_pm buffer_r buffer_t buffer_p buffer_m) ts.

Definition launch_pm_to_rt (ts : list tid)
  (buffer_p buffer_m buffer_r buffer_t : handle) : kernel unit :=
  cuda_jit [(buffer_p, 2); (buffer_m, 2); (buffer_r, 2); (buffer_t, 2)]
    (cuda_pm_to_rt buffer_p buffer_m buffer_r buffer_t) ts.

(** A call of one of the five kernels with its arguments, the array its
    guard reads, and the cells that the threads inside the guard write,
    for the extents [Nz], [Nr] of that array. *)
Inductive call :=
  | Copy2dTo2d (array_in array_out : handle)
  | Copy2dTo1d (array_2d array_1d : handle)
  | Copy1dTo2d (array_1d array_2d : handle)
  | RtToPm (buffer_r buffer_t buffer_p buffer_m : handle)
  | PmToRt (buffer_p buffer_m buffer_r buffer_t : handle).

Definition launch (k : call) (ts : list tid) : kernel unit :=
  match k with
  | Copy2dTo2d a b => launch_copy_2d_to_2d ts a b
  | Copy2dTo1d a b => launch_copy_2d_to_1d ts a b
  | Copy1dTo2d a b => launch_copy_1d_to_2d ts a b
  | RtToPm r t p m => launch_rt_to_pm ts r t p m
  | PmToRt p m r t => launch_pm_to_rt ts p m r t
  end.

Definition guard_array (k : call) : handle :=
  match k with
  | Copy2dTo2d array_in _ => array_in
  | Copy2dTo1d array_2d _ => array_2d
  | Copy1dTo2d _ array_2d => array_2d
  | RtToPm buffer_r _ _ _ => buffer_r
  | PmToRt buffer_p _ _ _ => buffer_p
  end.

Definition written (k : call) (Nz Nr : nat) (a : handle) (idx : list nat)
  : Prop :=
  ∃ iz ir, iz < Nz ∧ ir < Nr ∧
    match k with
    | Copy2dTo2d _ array_out => a = array_out ∧ idx = [iz; ir]
    | Copy2dTo1d _ array_1d => a = array_1d ∧ idx = [iz + Nz * ir]
    | Copy1dTo2d _ array_2d => a = array_2d ∧ idx = [iz; ir]
    | RtToPm _ _ buffer_p buffer_m =>
        (a = buffer_p ∨ a = buffer_m) ∧ idx = [iz; ir]
    | PmToRt _ _ buffer_r buffer_t =>
        (a = buffer_r ∨ a = buffer_t) ∧ idx = [iz; ir]
    end.


(** The memory a kernel leaves, when it does not fault. *)
Definition exec (k : kernel unit) (h : mem) : option mem := snd <$> k h.

(** A schedule for a grid of extents [Nz], [Nr]: no thread twice, and
    every index of the grid among the threads. *)
Definition covering (Nz Nr : nat) (ts : list tid) : Prop :=
  NoDup ts ∧ ∀ iz ir, iz < Nz → ir < Nr → (iz, ir) ∈ ts.

(** A two-dimensional array at least as large as the extents. *)
Definition covers (h : mem) (a : handle) (Nz Nr : nat) : Prop :=
  ∃ n0 n1, shape_of h a = Some [n0; n1] ∧ Nz ≤ n0 ∧ Nr ≤ n1.

(** What a launch of a combination kernel on the extents [Nz], [Nr]
    does, for the statements about two launches: from any memory with
    arrays of these extents and two distinct outputs, on any schedule
    without repetition, it leaves [f1], [f2] of the initial inputs in
    the outputs at the indices of its threads inside the extents, and
    every other cell and every shape as they were. *)
Definition combines (f1 f2 : C → C → C)
  (launch_k : list tid → handle → handle → handle → handle → kernel unit)
  (Nz Nr : nat) : Prop :=
  ∀ (h0 : mem) (in1 in2 out1 out2 : handle) (ts : list tid),
    shape_of h0 in1 = Some [Nz; Nr] → covers h0 in2 Nz Nr →
    covers h0 out1 Nz Nr → covers h0 out2 Nz Nr → out1 ≠ out2 →
    NoDup ts →
    ∃ h', exec (launch_k ts in1 in2 out1 out2) h0 = Some h'
      ∧ (∀ a, shape_of h' a = shape_of h0 a)
      ∧ (∀ t v1 v2, t ∈ ts → active Nz Nr t = true →
            peek h0 in1 (idx2 t) = Some v1 →
            peek h0 in2 (idx2 t) = Some v2 →
            peek h' out1 (idx2 t) = Some (f1 v1 v2)
            ∧ peek h' out2 (idx2 t) = Some (f2 v1 v2))
      ∧ (∀ a idx,
           ¬ ((a = out1 ∨ a = out2)
              ∧ ∃ t, t ∈ ts ∧ active Nz Nr t = true ∧ idx = idx2 t) →
           peek h' a idx = peek h0 a idx).

(** The grid of the launch that [cuda_tpb_bpg_2d] plans for the extents
    [Nz], [Nr], and its schedules. *)
Definition planned_grid (v : Py.version) (Nz Nr : nat) (TPBx TPBy : Z)
  : list tid :=
  match cuda_tpb_bpg_2d v (Z.of_nat Nz) (Z.of_nat Nr) TPBx TPBy with
  | Py.Return ((BPGx, BPGy), (tx, ty)) =>
      cuda_grid (Z.to_nat BPGx, Z.to_nat BPGy) (Z.to_nat tx, Z.to_nat ty)
  | Py.Raise _ => []
  end.

Definition planned (v : Py.version) (Nz Nr : nat) (TPBx TPBy : Z)
  (ts : list tid) : Prop :=
  ts ≡ₚ planned_grid v Nz Nr TPBx TPBy.

(* ===================================================================== *)
(** * Interleaved execution *)
(* ===================================================================== *)

(** One access of a thread to the memory; the thread goes on with the
    value it gets. A finished thread has no access left, and an access
    that faults gives no step. *)
Inductive access : prog unit → mem → prog unit → mem → Prop :=
  | access_shape a k cont h n h' :
      kshape_at a k h = Some (n, h') →
      access (ShapeAt a k cont) h (cont n) h'
  | access_load a idx cont h v h' :
      kload a idx h = Some (v, h') →
      access (Load a idx cont) h (cont v) h'
  | access_store a idx v cont h h' :
      kstore a idx v h = Some ((), h') →
      access (Store a idx v cont) h cont h'.

(** A launch in progress: what each thread has still to run, and the
    memory. A step of the launch is one access of any one thread. *)
Inductive step : list (prog unit) * mem → list (prog unit) * mem → Prop :=
  | step_thread ps h i p p' h' :
      ps !! i = Some p → access p h p' h' →
      step (ps, h) (<[i := p']> ps, h').

Definition finished (ps : list (prog unit)) : Prop :=
  Forall (λ p, p = Ret ()) ps.

(** The body of the threads of a call, and its signature. *)
Definition body_of (k : call) : tid → prog unit :=
  match k with
  | Copy2dTo2d a b => cuda_copy_2d_to_2d a b
  | Copy2dTo1d a b => cuda_copy_2d_to_1d a b
  | Copy1dTo2d a b => cuda_copy_1d_to_2d a b
  | RtToPm r t p m => cuda_rt_to_pm r t p m
  | PmToRt p m r t => cuda_pm_to_rt p m r t
  end.

(** The cells of a thread, for extents [Nz], [Nr] of the guarded array:
    none for a thread outside the guard; for a thread inside, the items
    at its index [iz, ir] and at its flat index [iz + Nz*ir], in any
    array. *)
Definition foot (Nz Nr : nat) (t : tid) (l : loc) : Prop :=
  active Nz Nr t = true ∧ (l.2 = idx2 t ∨ l.2 = flat Nz t).

(** A body all of whose accesses to items are to cells of [F], when the
    shapes it reads are those of [sh]. *)
Inductive within (sh : handle → option (list nat)) (F : loc → Prop)
  : prog unit → Prop :=
  | within_ret : within sh F (Ret ())
  | within_shape a k cont :
      (∀ n, sh a ≫= (.!! k) = Some n → within sh F (cont n)) →
      within sh F (ShapeAt a k cont)
  | within_load a idx cont :
      F (a, idx) → (∀ v, within sh F (cont v)) →
      within sh F (Load a idx cont)
  | within_store a idx v cont :
      F (a, idx) → within sh F cont →
      within sh F (Store a idx v cont).

(** What holds of a launch in progress, started from the memory [h0]
    with the threads [ts]: the shapes are those of [h0]; each thread, run
    alone from here to its end, leaves in its cells what it leaves there
    when run alone from [h0]; the cells of no thread are as in [h0]. *)
Definition in_progress (body : tid → prog unit) (ts : list tid) (h0 : mem)
  (Nz Nr : nat) (ps : list (prog unit)) (h : mem) : Prop :=
  length ps = length ts
  ∧ (∀ a, shape_of h a = shape_of h0 a)
  ∧ (∀ i t p, ts !! i = Some t → ps !! i = Some p →
       within (shape_of h0) (foot Nz Nr t) p
       ∧ ∃ g g0, run p h = Some ((), g)
                 ∧ run (body t) h0 = Some ((), g0)
                 ∧ ∀ l, foot Nz Nr t l → view g l = view g0 l)
  ∧ (∀ l, (∀ t, t ∈ ts → ¬ foot Nz Nr t l) → view h l = view h0 l).

(* ===================================================================== *)
(** * Arrays from and to lists, for the examples *)
(* ===================================================================== *)

Definition C0 : C := Cint 0.

Definition array_1d (l : list C) : darray :=
  DArray [length l]
    (λ j, match j with [i] => default C0 (l !! i) | _ => C0 end).

Definition array_2d (Nz Nr : nat) (rows : list (list C)) : darray :=
  DArray [Nz; Nr]
    (λ j, match j with
          | [iz; ir] => default C0 (row ← rows !! iz; row !! ir)
          | _ => C0
          end).

Definition tabulate_2d (Nz Nr : nat) (f : nat → nat → C) : darray :=
  DArray [Nz; Nr]
    (λ j, match j with [iz; ir] => f iz ir | _ => C0 end).

Definition to_list (h : mem) (a : handle) : option (list C) :=
  d ← h !! a;
  match shape d with
  | [n] => Some ((λ i, item d [i]) <$> seq 0 n)
  | _ => None
  end.

Definition to_rows (h : mem) (a : handle) : option (list (list C)) :=
  d ← h !! a;
  match shape d with
  | [Nz; Nr] =>
      Some ((λ iz, (λ ir, item d [iz; ir]) <$> seq 0 Nr) <$> seq 0 Nz)
  | _ => None
  end.

(** The memories of the two examples of the specification. In the first,
    the arrays 0 and 1 are [r] and [t], 2 and 3 receive [p] and [m], 4 and
    5 receive the result of the way back. In the second, the array 0 is
    the grid [g[iz,ir] = iz + 10*ir], 1 is the flat buffer, 2 receives the
    grid again. *)
Definition example_basis : mem :=
  {[ 0 := array_2d 2 2 [[Cint 1; Cint 2]; [Cint 3; Cint 4]];
     1 := array_2d 2 2 [[Cint 0; Cint 0]; [Cint 0; Cint 0]];
     2 := array_2d 2 2 [[Cint 7; Cint 7]; [Cint 7; Cint 7]];
     3 := array_2d 2 2 [[Cint 7; Cint 7]; [Cint 7; Cint 7]];
     4 := array_2d 2 2 [[Cint 7; Cint 7]; [Cint 7; Cint 7]];
     5 := array_2d 2 2 [[Cint 7; Cint 7]; [Cint 7; Cint 7]] ]}.

Definition example_layout : mem :=
  {[ 0 := tabulate_2d 3 2 (λ iz ir, Cint (Z.of_nat iz + 10 * Z.of_nat ir));
     1 := array_1d (replicate 6 (Cint 7));
     2 := array_2d 3 2 (replicate 3 (replicate 2 (Cint 7))) ]}.

(** As the first example with [t] all one: arrays 0 and 1 are [r] and
    [t], 2 and 3 are two more arrays of the same shape. *)
Definition example_alias : mem :=
  {[ 0 := array_2d 2 2 [[Cint 1; Cint 2]; [Cint 3; Cint 4]];
     1 := array_2d 2 2 [[Cint 1; Cint 1]; [Cint 1; Cint 1]];
     2 := array_2d 2 2 [[Cint 7; Cint 7]; [Cint 7; Cint 7]];
     3 := array_2d 2 2 [[Cint 7; Cint 7]; [Cint 7; Cint 7]] ]}.

(** One flat buffer of four items (array 0) before two grids of four
    items (array 1): one of shape 2 x 2, one of shape 4 x 1. *)
Definition example_flat_4 : darray :=
  array_1d [Cint 0; Cint 1; Cint 2; Cint 3].



(** A grid of shape 3 x 2 (array 0) before a flat buffer of eight items
    (array 1), two more than the grid has. *)
Definition example_longer : mem :=
  {[ 0 := tabulate_2d 3 2 (λ iz ir, Cint (Z.of_nat iz + 10 * Z.of_nat ir));
     1 := array_1d (replicate 8 (Cint 7)) ]}.

(* ===================================================================== *)
(** * CUDA memory management *)
(* ===================================================================== *)

(** The simulation object, as far as the two functions read it: the list
    [ptcl] of the species and the field object [fld]. A species and a
    field object are known by their identity, as an array is by its
    handle; what they hold, and the flag [use_cuda] of a species with
    it, is part of the world that the methods act on. The attributes
    [ptcl] and [fld] themselves are taken to be left as they are by the
    methods. *)
Definition species : Type := nat.
Definition fields : Type := nat.
Record simulation_object : Type :=
  Simulation { ptcl : list species; fld : fields }.

(** The methods of the particle and field packages that the two functions
    call. They are no part of this module. *)
Inductive method : Type :=
  | send_particles_to_gpu (s : species)
  | send_fields_to_gpu (f : fields)
  | receive_particles_from_gpu (s : species)
  | receive_fields_from_gpu (f : fields).

(** What the two functions find around them, over a world [W] (host and
    device memory, and the objects): what a call of a method does to the
    world, which may raise ([None]), and the flag [use_cuda] of a
    species as it is in a world. *)
Record host (W : Type) : Type := Host {
  method_call : method → W → option W;
  attr_use_cuda : species → W → bool
}.

Arguments Host {W} method_call attr_use_cuda.
Arguments method_call {W} h m w.
Arguments attr_use_cuda {W} h s w.

(** A function that calls methods: in a host and from a world, the
    calls it makes, in order, the last being the one that raised if one
    did, and the value and the world it returns with, or [None] when the
    exception of a call has ended it. *)
Definition transfer (W A : Type) : Type :=
  host W → W → list method * option (A * W).

Definition tret {W A} (a : A) : transfer W A := λ _ w, ([], Some (a, w)).

Definition tbind {W A B} (c : transfer W A) (k : A → transfer W B)
  : transfer W B :=
  λ H w,
    match c H w with
    | (log, Some (a, w')) =>
        let '(log', r) := k a H w' in (log ++ log', r)
    | (log, None) => (log, None)
    end.

(** A call of a method. *)
Definition invoke {W} (m : method) : transfer W unit :=
  λ H w,
    match method_call H m w with
    | Some w' => ([m], Some ((), w'))
    | None => ([m], None)
    end.

(** [species.use_cuda] *)
Definition use_cuda {W} (s : species) : transfer W bool :=
  λ H w, ([], Some (attr_use_cuda H s w, w)).

(** [for x in l : body] *)
Fixpoint for_each {W A} (l : list A) (body : A → transfer W unit)
  : transfer W unit :=
  match l with
  | [] => tret ()
  | x :: l' => tbind (body x) (λ _, for_each l' body)
  end.

(** [send_data_to_gpu(simulation)] *)
Definition send_data_to_gpu {W} (simulation : simulation_object)
  : transfer W unit :=
  tbind
    (for_each (ptcl simulation) (λ species,
       tbind (use_cuda species) (λ b,
         if b then invoke (send_particles_to_gpu species) else tret ())))
    (λ _, invoke (send_fields_to_gpu (fld simulation))).

(** [receive_data_from_gpu(simulation)] *)
Definition receive_data_from_gpu {W} (simulation : simulation_object)
  : transfer W unit :=
  tbind
    (for_each (ptcl simulation) (λ species,
       tbind (use_cuda species) (λ b,
         if b then invoke (receive_particles_from_gpu species) else tret ())))
    (λ _, invoke (receive_fields_from_gpu (fld simulation))).

(** Method calls one after the other, up to the first that raises. *)
Fixpoint run_methods {W} (H : host W) (ms : list method) (w : W)
  : option W :=
  match ms with
  | [] => Some w
  | m :: ms' =>
      match method_call H m w with
      | Some w' => run_methods H ms' w'
      | None => None
      end
  end.

(** The method of the way back for each method of the way out, and
    conversely; and the host in which each method does what its mirror
    does. *)
Definition mirror (m : method) : method :=
  match m with
  | send_particles_to_gpu s => receive_particles_from_gpu s
  | send_fields_to_gpu f => receive_fields_from_gpu f
  | receive_particles_from_gpu s => send_particles_to_gpu s
  | receive_fields_from_gpu f => send_fields_to_gpu f
  end.

Definition mirrored {W} (H : host W) : host W :=
  Host (λ m, method_call H (mirror m)) (attr_use_cuda H).

(** The methods leave the flags [use_cuda] as they are. *)
Definition keeps_flags {W} (H : host W) : Prop :=
  ∀ m w w' s, method_call H m w = Some w' →
              attr_use_cuda H s w' = attr_use_cuda H s w.

(** A host for the examples: the world is the number of calls made so
    far; the species with an even identity use CUDA; the transfer of the
    particles of the species 4 raises. *)
Definition example_host : host nat :=
  Host (λ m w, match m with
               | send_particles_to_gpu 4 => None
               | receive_particles_from_gpu 4 => None
               | _ => Some (S w)
               end)
       (λ s _, Nat.even s).

(* ===================================================================== *)
(** * Order of the accesses in a body *)
(* ===================================================================== *)

(** A body that reads no item of an array. *)
Inductive no_load {A} : prog A → Prop :=
  | no_load_ret x : no_load (Ret x)
  | no_load_shape a k cont :
      (∀ n, no_load (cont n)) → no_load (ShapeAt a k cont)
  | no_load_store a idx v cont :
      no_load cont → no_load (Store a idx v cont).

(** A body that reads no item after it has written one: its reads are
    all made, and their values held by the thread, before its first
    write. *)
Inductive reads_first {A} : prog A → Prop :=
  | reads_first_ret x : reads_first (Ret x)
  | reads_first_shape a k cont :
      (∀ n, reads_first (cont n)) → reads_first (ShapeAt a k cont)
  | reads_first_load a idx cont :
      (∀ v, reads_first (cont v)) → reads_first (Load a idx cont)
  | reads_first_store a idx v cont :
      no_load cont → reads_first (Store a idx v cont).

(* ===================================================================== *)
(** * Properties of the grid utilities *)
(* ===================================================================== *)

Section Rounding.

Local Open Scope Z_scope.

Lemma rne_ge n d a : 0 < d → a * d ≤ n → a ≤ Py.rne n d.
Proof.
  intros Hd Ha. unfold Py.rne.
  assert (a ≤ n / d) by (apply Z.div_le_lower_bound; lia).
  destruct (2 * (n mod d) ?= d); [destruct (Z.even (n / d))|..]; lia.
Qed.

Lemma rne_le n d b : 0 < d → n ≤ b * d → Py.rne n d ≤ b.
Proof.
  intros Hd Hb. unfold Py.rne.
  pose proof (Z.div_mod n d ltac:(lia)) as Hn.
  pose proof (Z.mod_pos_bound n d Hd) as Hm.
  assert (Hq : n / d ≤ b) by (apply Z.div_le_upper_bound; lia).
  destruct (Z.compare_spec (2 * (n mod d)) d) as [He|Hl|Hg].
  - destruct (Z.even (n / d)); [lia|]. nia.
  - lia.
  - nia.
Qed.

(** [ilog2 n d] is the floor of the binary logarithm of [n / d]:
    [2 ^ ilog2 ≤ n / d < 2 ^ (ilog2 + 1)], with the negative powers on
    the other side. *)
Lemma ilog2_spec n d :
  0 < n → 0 < d →
  d * 2 ^ Z.max (Py.ilog2 n d) 0 ≤ n * 2 ^ Z.max (- Py.ilog2 n d) 0
  ∧ n * 2 ^ Z.max (- (Py.ilog2 n d + 1)) 0
    < d * 2 ^ Z.max (Py.ilog2 n d + 1) 0.
Proof.
  intros Hn Hd. unfold Py.ilog2.
  pose proof (Z.log2_spec n Hn) as [Hn1 Hn2].
  pose proof (Z.log2_spec d Hd) as [Hd1 Hd2].
  pose proof (Z.log2_nonneg n) as Ha. pose proof (Z.log2_nonneg d) as Hb.
  set (a := Z.log2 n) in *. set (b := Z.log2 d) in *.
  rewrite <- Z.add_1_r in Hn2, Hd2.
  destruct (Z.leb_spec (d * 2 ^ Z.max (a - b) 0)
              (n * 2 ^ Z.max (- (a - b)) 0)) as [Ht|Ht].
  - split; [done|].
    destruct (Z.le_gt_cases 0 (a - b + 1)) as [Hc|Hc].
    + rewrite (Z.max_r (- (a - b + 1)) 0), (Z.max_l (a - b + 1) 0) by lia.
      rewrite Z.pow_0_r, Z.mul_1_r.
      apply Z.lt_le_trans with (2 ^ (a + 1)); [done|].
      replace (a + 1) with (b + (a - b + 1)) by lia.
      rewrite Z.pow_add_r by lia.
      apply Z.mul_le_mono_nonneg_r; [apply Z.pow_nonneg|]; lia.
    + rewrite (Z.max_l (- (a - b + 1)) 0), (Z.max_r (a - b + 1) 0) by lia.
      rewrite Z.pow_0_r, Z.mul_1_r.
      apply Z.lt_le_trans with (2 ^ b); [|done].
      replace b with ((a + 1) + - (a - b + 1)) at 2 by lia.
      rewrite Z.pow_add_r by lia.
      apply Z.mul_lt_mono_pos_r; [apply Z.pow_pos_nonneg|]; lia.
  - replace (a - b - 1 + 1) with (a - b) by lia. split; [|done].
    destruct (Z.le_gt_cases 0 (a - b - 1)) as [Hc|Hc].
    + rewrite (Z.max_l (a - b - 1) 0), (Z.max_r (- (a - b - 1)) 0) by lia.
      rewrite Z.pow_0_r, Z.mul_1_r.
      apply Z.le_trans with (2 ^ a); [|done].
      replace a with ((b + 1) + (a - b - 1)) at 2 by lia.
      rewrite Z.pow_add_r by lia.
      apply Z.mul_le_mono_nonneg_r; [apply Z.pow_nonneg|]; lia.
    + rewrite (Z.max_r (a - b - 1) 0), (Z.max_l (- (a - b - 1)) 0) by lia.
      rewrite Z.pow_0_r, Z.mul_1_r.
      apply Z.le_trans with (2 ^ (b + 1)); [lia|].
      replace (b + 1) with (a + - (a - b - 1)) by lia.
      rewrite Z.pow_add_r by lia.
      apply Z.mul_le_mono_nonneg_r; [apply Z.pow_nonneg|]; lia.
Qed.

(** The exponent of the grid on which [n / d] is rounded. *)
Lemma ilog2_small n d j :
  0 < n → 0 < d → 0 ≤ j → n * 2 ^ j < 2 ^ 53 * d →
  Py.ilog2 n d ≤ 52 - j.
Proof.
  intros Hn Hd Hj Hlt.
  destruct (ilog2_spec n d Hn Hd) as [Hlo _].
  set (L := Py.ilog2 n d) in *.
  destruct (Z.le_gt_cases L (52 - j)) as [|Hgt]; [done|exfalso].
  assert (HP : 0 < 2 ^ j) by (apply Z.pow_pos_nonneg; lia).
  destruct (Z.le_gt_cases 0 L) as [HL|HL].
  - rewrite (Z.max_l L 0), (Z.max_r (- L) 0) in Hlo by lia.
    rewrite Z.pow_0_r, Z.mul_1_r in Hlo.
    assert (2 ^ 53 ≤ 2 ^ (L + j)) by (apply Z.pow_le_mono_r; lia).
    rewrite Z.pow_add_r in * by lia.
    assert (0 < 2 ^ L) by (apply Z.pow_pos_nonneg; lia). nia.
  - rewrite (Z.max_r L 0), (Z.max_l (- L) 0) in Hlo by lia.
    rewrite Z.pow_0_r, Z.mul_1_r in Hlo.
    assert (2 ^ 53 ≤ 2 ^ (j + L)) by (apply Z.pow_le_mono_r; lia).
    replace j with (- L + (j + L)) in Hlt by lia.
    rewrite Z.pow_add_r in Hlt by lia.
    assert (0 < 2 ^ (- L)) by (apply Z.pow_pos_nonneg; lia).
    assert (0 < 2 ^ (j + L)) by (apply Z.pow_pos_nonneg; lia). nia.
Qed.

(** The mantissa has at most 53 bits. *)
Lemma ilog2_mantissa n d k :
  0 < n → 0 < d → 0 ≤ k → k ≤ 52 - Py.ilog2 n d →
  n * 2 ^ k < 2 ^ 53 * d.
Proof.
  intros Hn Hd Hk Hle.
  destruct (ilog2_spec n d Hn Hd) as [_ Hhi].
  set (L := Py.ilog2 n d) in *.
  destruct (Z.le_gt_cases 0 (L + 1)) as [HL|HL].
  - rewrite (Z.max_l (L + 1) 0), (Z.max_r (- (L + 1)) 0) in Hhi by lia.
    rewrite Z.pow_0_r, Z.mul_1_r in Hhi.
    assert (2 ^ (L + 1) * 2 ^ k ≤ 2 ^ 53).
    { rewrite <- Z.pow_add_r by lia. apply Z.pow_le_mono_r; lia. }
    assert (0 < 2 ^ k) by (apply Z.pow_pos_nonneg; lia). nia.
  - rewrite (Z.max_r (L + 1) 0), (Z.max_l (- (L + 1)) 0) in Hhi by lia.
    rewrite Z.pow_0_r, Z.mul_1_r in Hhi.
    assert (H53 : 1 ≤ 2 ^ 53) by lia.
    destruct (Z.le_gt_cases k (- (L + 1))) as [Hs|Hs].
    + assert (2 ^ k ≤ 2 ^ (- (L + 1))) by (apply Z.pow_le_mono_r; lia).
      nia.
    + replace k with (- (L + 1) + (k + (L + 1))) by lia.
      rewrite Z.pow_add_r by lia.
      assert (2 ^ (k + (L + 1)) ≤ 2 ^ 53) by (apply Z.pow_le_mono_r; lia).
      assert (0 < 2 ^ (k + (L + 1))) by (apply Z.pow_pos_nonneg; lia).
      assert (0 < 2 ^ (- (L + 1))) by (apply Z.pow_pos_nonneg; lia).
      nia.
Qed.

(** Rounding keeps a number between two numbers of the grid on which it
    is rounded: for [j ≥ 0], the multiples of [2^-j] below [2^53] in
    absolute value are numbers of the grid of every [q] between them. *)
Lemma binary64_grid (q : Q) (j A B : Z) :
  0 ≤ j ≤ 1074 → - 2 ^ 53 < A → B < 2 ^ 53 →
  (inject_Z A <= q * inject_Z (2 ^ j))%Q →
  (q * inject_Z (2 ^ j) <= inject_Z B)%Q →
  ∃ q', Py.binary64 q = Some q'
        ∧ (inject_Z A <= q' * inject_Z (2 ^ j))%Q
        ∧ (q' * inject_Z (2 ^ j) <= inject_Z B)%Q.
Proof.
  intros Hj HA HB. destruct q as [n d]. unfold Qle, Py.binary64.
  cbn [Qnum Qden Qmult inject_Z].
  rewrite !Pos.mul_1_r, !Z.mul_1_r. intros HAq HBq.
  set (D := Z.pos d) in *. assert (HD : 0 < D) by done.
  assert (HP : 0 < 2 ^ j) by (apply Z.pow_pos_nonneg; lia).
  destruct (Z.eqb_spec n 0) as [->|Hn0].
  - exists (0 # 1)%Q. cbn. split; [done|]. nia.
  - assert (Hn : 0 < Z.abs n) by lia.
    assert (Hlt : Z.abs n * 2 ^ j < 2 ^ 53 * D) by nia.
    pose proof (ilog2_small _ _ _ Hn HD (proj1 Hj) Hlt) as HL.
    set (L := Py.ilog2 (Z.abs n) D) in *.
    set (e := Z.max (-1074) (L - 52)).
    assert (He : e ≤ - j) by lia.
    rewrite (Z.max_l (- e) 0), (Z.max_r e 0) by lia.
    rewrite Z.pow_0_r, !Z.mul_1_r.
    set (k := - e) in *.
    assert (HK : 2 ^ k = 2 ^ (k - j) * 2 ^ j).
    { rewrite <- Z.pow_add_r by lia. f_equal. lia. }
    assert (HR : 0 < 2 ^ (k - j)) by (apply Z.pow_pos_nonneg; lia).
    set (m := Py.rne (n * 2 ^ k) D).
    assert (Hm1 : A * 2 ^ (k - j) ≤ m).
    { apply rne_ge; [done|]. rewrite HK. nia. }
    assert (Hm2 : m ≤ B * 2 ^ (k - j)).
    { apply rne_le; [done|]. rewrite HK. nia. }
    assert (Hmant : Z.abs n * 2 ^ k < 2 ^ 53 * D).
    { apply ilog2_mantissa; try done; lia. }
    assert (Hm3 : - 2 ^ 53 ≤ m) by (apply rne_ge; [done|]; nia).
    assert (Hm4 : m ≤ 2 ^ 53) by (apply rne_le; [done|]; nia).
    destruct (Z.leb_spec (2 ^ 1024) (Z.abs m)) as [Hover|_].
    { assert (2 ^ 53 < 2 ^ 1024) by (apply Z.pow_lt_mono_r; lia). lia. }
    eexists. split; [done|]. cbn [Qnum Qden Qmult inject_Z].
    rewrite !Pos.mul_1_r, !Z.mul_1_r.
    rewrite Z2Pos.id by (apply Z.pow_pos_nonneg; lia).
    rewrite HK. nia.
Qed.

Lemma binary64_1 :
  ∃ q1, Py.binary64 (inject_Z 1) = Some q1 ∧ (q1 == 1)%Q.
Proof. eexists. split; [vm_compute; reflexivity|reflexivity]. Qed.

(** [q + 1], with [q] a float: between the two numbers of the grid next
    to it. *)
Lemma binary64_add_1_grid (q0 : Q) (j A B : Z) :
  0 ≤ j ≤ 1074 → - 2 ^ 53 + 2 ^ j < A → B + 2 ^ j < 2 ^ 53 →
  (inject_Z A <= q0 * inject_Z (2 ^ j))%Q →
  (q0 * inject_Z (2 ^ j) <= inject_Z B)%Q →
  ∃ q qn s,
    Py.binary64 q0 = Some q
    ∧ Py.binary64 (inject_Z 1) = Some qn
    ∧ Py.binary64 (q + qn) = Some s
    ∧ (A + 2 ^ j) * Z.pos (Qden s) ≤ Qnum s * 2 ^ j
    ∧ Qnum s * 2 ^ j ≤ (B + 2 ^ j) * Z.pos (Qden s).
Proof.
  intros Hj HA HB HqA HqB.
  assert (HP : 0 < 2 ^ j) by (apply Z.pow_pos_nonneg; lia).
  destruct (binary64_grid q0 j A B) as (q & Hq & HqA' & HqB');
    [done|lia|lia|done|done|].
  destruct binary64_1 as (qn & Hqn & Hqn1).
  assert (Hsum : ((q + qn) * inject_Z (2 ^ j)
                  == q * inject_Z (2 ^ j) + inject_Z (2 ^ j))%Q).
  { rewrite Hqn1. ring. }
  destruct (binary64_grid (q + qn) j (A + 2 ^ j) (B + 2 ^ j))
    as (s & Hs & HsA & HsB); [done|lia|lia|..].
  { rewrite Hsum, inject_Z_plus.
    apply Qplus_le_compat; [exact HqA'|apply Qle_refl]. }
  { rewrite Hsum, inject_Z_plus.
    apply Qplus_le_compat; [exact HqB'|apply Qle_refl]. }
  exists q, qn, s. split_and!; [done..| |].
  - destruct s as [ms ds]. unfold Qle in HsA. cbn in HsA |- *.
    by rewrite !Pos.mul_1_r, !Z.mul_1_r in HsA.
  - destruct s as [ms ds]. unfold Qle in HsB. cbn in HsB |- *.
    by rewrite !Pos.mul_1_r, !Z.mul_1_r in HsB.
Qed.

End Rounding.

Section GridUtilities.

Local Open Scope Z_scope.

Implicit Types (v : Py.version) (x y TPB : Z).

Lemma div_by_zero v x : Py.div v x 0 = Py.Raise Py.ZeroDivisionError.
Proof. reflexivity. Qed.

Lemma quot_between m d c :
  0 < d → c * d < m < (c + 1) * d →
  m ÷ d = if 0 <=? c then c else c + 1.
Proof.
  intros Hd [H1 H2]. destruct (Z.leb_spec 0 c) as [Hc|Hc].
  - rewrite Z.quot_div_nonneg by nia.
    symmetry. apply (Z.div_unique m d c (m - c * d)); lia.
  - replace m with (- (- m)) by lia. rewrite Z.quot_opp_l by lia.
    rewrite Z.quot_div_nonneg by nia.
    rewrite <- (Z.div_unique (- m) d (- (c + 1)) (- m + (c + 1) * d)); lia.
Qed.

(** The power of two next to a group size. *)
Lemma log2_up_group_size T :
  0 < T → 2 * T ≤ 2 ^ 52 →
  0 ≤ Z.log2_up T ≤ 1074
  ∧ T ≤ 2 ^ Z.log2_up T ≤ 2 * T - 1.
Proof.
  intros HT Hle. destruct (Z.eq_dec T 1) as [->|Hne]; [done|].
  pose proof (Z.log2_up_spec T ltac:(lia)) as [H1 H2].
  pose proof (Z.log2_up_nonneg T) as H0.
  set (j := Z.log2_up T) in *.
  assert (Hj : 0 < j).
  { destruct (Z.eq_dec j 0) as [Hj0|]; [|lia]. rewrite Hj0 in H2. lia. }
  assert (Hp : 2 ^ j = 2 * 2 ^ Z.pred j).
  { rewrite <- Z.pow_succ_r by lia. f_equal. lia. }
  split; [|lia]. split; [done|].
  assert (Z.pred j < 51); [|lia].
  apply (Z.pow_lt_mono_r_iff 2); lia.
Qed.

(** [int(q0 + 1)] for the float [q0] nearest to [X / T], in the range
    in which the floats are fine enough for the fractions of
    denominator [T]: the quotient plus one, truncated toward zero. *)
Lemma float_quotient_add_1 (q0 : Q) (X T : Z) :
  Qnum q0 = X → Z.pos (Qden q0) = T →
  Z.abs X + 2 * T ≤ 2 ^ 52 →
  ∃ q qn s,
    Py.binary64 q0 = Some q
    ∧ Py.binary64 (inject_Z 1) = Some qn
    ∧ Py.binary64 (q + qn) = Some s
    ∧ Qnum s ÷ Z.pos (Qden s) = (X + T) ÷ T.
Proof.
  intros HX HT Hr. assert (HT0 : 0 < T) by lia.
  destruct (log2_up_group_size T) as [Hj HP]; [lia|lia|].
  set (j := Z.log2_up T) in *. set (P := 2 ^ j) in *.
  pose proof (Z.div_mod X T ltac:(lia)) as Hk.
  pose proof (Z.mod_pos_bound X T HT0) as Hrho.
  set (k := X / T) in *. set (rho := X mod T) in *.
  set (A := if rho =? 0 then k * P else k * P + 1).
  set (B := if rho =? 0 then k * P else (k + 1) * P - 1).
  assert (HAB : A * T ≤ X * P ≤ B * T ∧ - 2 ^ 53 + P < A ∧ B + P < 2 ^ 53).
  { unfold A, B. destruct (Z.eqb_spec rho 0) as [H0|H0].
    - split; [nia|]. destruct (Z.le_gt_cases 0 X); nia.
    - split; [nia|]. destruct (Z.le_gt_cases 0 X); nia. }
  destruct HAB as ([HA HB] & HAlo & HBhi).
  destruct (binary64_add_1_grid q0 j A B)
    as (q & qn & s & Hq & Hqn & Hs & HsA & HsB); [done|done|done|..].
  { destruct q0 as [n d]. cbn in HX, HT. unfold Qle. cbn.
    rewrite !Pos.mul_1_r, !Z.mul_1_r, HX, HT. done. }
  { destruct q0 as [n d]. cbn in HX, HT. unfold Qle. cbn.
    rewrite !Pos.mul_1_r, !Z.mul_1_r, HX, HT. done. }
  exists q, qn, s. split_and!; [done..|].
  fold P in HsA, HsB.
  set (D := Z.pos (Qden s)) in *. assert (HD : 0 < D) by done.
  set (ms := Qnum s) in *.
  unfold A, B in HsA, HsB. destruct (Z.eqb_spec rho 0) as [H0|H0].
  - assert (ms = (k + 1) * D) as -> by nia.
    replace (X + T) with ((k + 1) * T) by lia.
    rewrite !Z.quot_mul by lia. done.
  - assert (0 < P) by lia.
    rewrite (quot_between ms D (k + 1)); [|done|split; nia].
    rewrite (quot_between (X + T) T (k + 1)); [done|done|split; nia].
Qed.

(** The same for a quotient that is not negative, in the larger range
    in which each rounding stays between the two integers next to the
    exact number: one or two more than the floor of the quotient. *)
Lemma float_quotient_covers (q0 : Q) (X T : Z) :
  Qnum q0 = X → Z.pos (Qden q0) = T →
  0 ≤ X → X / T + 2 < 2 ^ 53 →
  ∃ q qn s,
    Py.binary64 q0 = Some q
    ∧ Py.binary64 (inject_Z 1) = Some qn
    ∧ Py.binary64 (q + qn) = Some s
    ∧ X / T + 1 ≤ Qnum s ÷ Z.pos (Qden s) ≤ X / T + 2.
Proof.
  intros HX HT HX0 Hr. assert (HT0 : 0 < T) by lia.
  pose proof (Z.div_mod X T ltac:(lia)) as Hk.
  pose proof (Z.mod_pos_bound X T HT0) as Hrho.
  assert (Hk0 : 0 ≤ X / T) by (apply Z.div_pos; lia).
  set (k := X / T) in *.
  destruct (binary64_add_1_grid q0 0 k (k + 1))
    as (q & qn & s & Hq & Hqn & Hs & HsA & HsB); [lia|lia|lia|..].
  { destruct q0 as [n d]. cbn in HX, HT. unfold Qle. cbn.
    rewrite !Pos.mul_1_r, !Z.mul_1_r, HX, HT. nia. }
  { destruct q0 as [n d]. cbn in HX, HT. unfold Qle. cbn.
    rewrite !Pos.mul_1_r, !Z.mul_1_r, HX, HT. nia. }
  exists q, qn, s. do 3 (split; [done|]).
  rewrite Z.pow_0_r, !Z.mul_1_r in HsA, HsB.
  set (D := Z.pos (Qden s)) in *. assert (HD : 0 < D) by done.
  rewrite Z.quot_div_nonneg by nia. split.
  - apply Z.div_le_lower_bound; lia.
  - apply Z.div_le_upper_bound; lia.
Qed.

(** The quotient of two integers as a rational: the sign is on the
    numerator. *)
Lemma quotient_Q x TPB :
  TPB ≠ 0 →
  Qnum (inject_Z x / inject_Z TPB) = x * Z.sgn TPB
  ∧ Z.pos (Qden (inject_Z x / inject_Z TPB)) = Z.abs TPB.
Proof.
  intros HT. destruct TPB as [|p|p]; [done|..]; cbn; split; lia.
Qed.

(** What [int(x/TPB + 1)] is, in each version: the floor of the
    quotient plus one in Python 2; in Python 3, where the floats are
    fine enough, the quotient plus one truncated toward zero. *)
Lemma cuda_tpb_bpg_1d_py2 x TPB :
  TPB ≠ 0 → cuda_tpb_bpg_1d Py.Py2 x TPB = Py.Return (x / TPB + 1, TPB).
Proof.
  intros H. unfold cuda_tpb_bpg_1d, Py.div.
  destruct (Z.eqb_spec TPB 0) as [->|_]; done.
Qed.

Lemma cuda_tpb_bpg_1d_py3 x TPB :
  TPB ≠ 0 → Z.abs x + 2 * Z.abs TPB ≤ 2 ^ 52 →
  cuda_tpb_bpg_1d Py.Py3 x TPB = Py.Return ((x + TPB) ÷ TPB, TPB).
Proof.
  intros H Hr. unfold cuda_tpb_bpg_1d, Py.div.
  destruct (Z.eqb_spec TPB 0) as [->|_]; [done|].
  destruct (quotient_Q x TPB H) as [Hn Hd].
  destruct (float_quotient_add_1 (inject_Z x / inject_Z TPB)
              (x * Z.sgn TPB) (Z.abs TPB) Hn Hd)
    as (q & qn & s & Hq & Hqn & Hs & Hint); [lia|].
  rewrite Hq. unfold mbind, Py.result_bind, Py.add_int.
  rewrite Hqn, Hs. unfold Py.int, mret, Py.result_ret. rewrite Hint.
  do 2 f_equal. destruct (Z.lt_total TPB 0) as [Hneg|[->|Hpos]]; [|done|].
  - rewrite Z.sgn_neg, Z.abs_neq by lia.
    replace (x * -1 + - TPB) with (- (x + TPB)) by lia.
    apply Z.quot_opp_opp. lia.
  - rewrite Z.sgn_pos, Z.abs_eq by lia. by rewrite Z.mul_1_r.
Qed.

(** Python 3, a quotient that is not negative, in the larger range. *)
Lemma cuda_tpb_bpg_1d_py3_covers x TPB :
  0 ≤ x → 0 < TPB → x / TPB + 2 < 2 ^ 53 →
  ∃ BPG, cuda_tpb_bpg_1d Py.Py3 x TPB = Py.Return (BPG, TPB)
         ∧ x / TPB + 1 ≤ BPG ≤ x / TPB + 2.
Proof.
  intros Hx HT Hr. unfold cuda_tpb_bpg_1d, Py.div.
  destruct (Z.eqb_spec TPB 0) as [->|_]; [lia|].
  destruct (quotient_Q x TPB ltac:(lia)) as [Hn Hd].
  rewrite Z.sgn_pos, Z.mul_1_r in Hn by done.
  rewrite Z.abs_eq in Hd by lia.
  destruct (float_quotient_covers (inject_Z x / inject_Z TPB) x TPB Hn Hd)
    as (q & qn & s & Hq & Hqn & Hs & Hint); [done|done|].
  rewrite Hq. unfold mbind, Py.result_bind, Py.add_int.
  rewrite Hqn, Hs. unfold Py.int, mret, Py.result_ret. eauto.
Qed.

(** For a non-negative [x] the two versions agree. *)
Lemma quot_add_nonneg x TPB :
  0 ≤ x → 0 < TPB → Z.quot (x + TPB) TPB = x / TPB + 1.
Proof.
  intros Hx HT. rewrite Z.quot_div_nonneg by lia.
  replace (x + TPB) with (x + 1 * TPB) by lia.
  rewrite Z.div_add by lia. reflexivity.
Qed.

Lemma cuda_tpb_bpg_1d_nonneg v x TPB :
  0 ≤ x → 0 < TPB → exact_range v x TPB →
  cuda_tpb_bpg_1d v x TPB = Py.Return (x / TPB + 1, TPB).
Proof.
  intros Hx HT Hr. destruct v.
  - apply cuda_tpb_bpg_1d_py2. lia.
  - rewrite cuda_tpb_bpg_1d_py3 by (done || lia).
    by rewrite quot_add_nonneg.
Qed.

Lemma cuda_tpb_bpg_1d_covers v x TPB :
  0 ≤ x → 0 < TPB → cover_range v x TPB →
  ∃ BPG, cuda_tpb_bpg_1d v x TPB = Py.Return (BPG, TPB)
         ∧ x / TPB + 1 ≤ BPG ≤ x / TPB + 2.
Proof.
  intros Hx HT Hr. destruct v.
  - exists (x / TPB + 1). split; [apply cuda_tpb_bpg_1d_py2|]; lia.
  - by apply cuda_tpb_bpg_1d_py3_covers.
Qed.

(** The plan in two dimensions is the two plans in one dimension, that
    of [x] first. *)
Lemma cuda_tpb_bpg_2d_1d v x y TPBx TPBy :
  cuda_tpb_bpg_2d v x y TPBx TPBy
  = px ← cuda_tpb_bpg_1d v x TPBx;
    py ← cuda_tpb_bpg_1d v y TPBy;
    mret ((px.1, py.1), (TPBx, TPBy)).
Proof.
  unfold cuda_tpb_bpg_2d, cuda_tpb_bpg_1d.
  destruct (Py.div v x TPBx) as [qx|]; cbn; [|done].
  destruct (Py.add_int qx 1) as [sx|]; cbn; [|done].
  destruct (Py.int sx) as [BPGx|]; cbn; [|done].
  destruct (Py.div v y TPBy) as [qy|]; cbn; [|done].
  destruct (Py.add_int qy 1) as [sy|]; cbn; [|done].
  by destruct (Py.int sy).
Qed.


Lemma cuda_tpb_bpg_2d_covers v x y TPBx TPBy :
  0 ≤ x → 0 ≤ y → 0 < TPBx → 0 < TPBy →
  cover_range v x TPBx → cover_range v y TPBy →
  ∃ BPGx BPGy,
    cuda_tpb_bpg_2d v x y TPBx TPBy
    = Py.Return ((BPGx, BPGy), (TPBx, TPBy))
    ∧ x / TPBx + 1 ≤ BPGx ≤ x / TPBx + 2
    ∧ y / TPBy + 1 ≤ BPGy ≤ y / TPBy + 2.
Proof.
  intros Hx Hy HTx HTy Hrx Hry. rewrite cuda_tpb_bpg_2d_1d.
  destruct (cuda_tpb_bpg_1d_covers v x TPBx) as (BPGx & -> & Hbx);
    [done..|].
  destruct (cuda_tpb_bpg_1d_covers v y TPBy) as (BPGy & -> & Hby);
    [done..|].
  by exists BPGx, BPGy.
Qed.

(** Floor division: the quotient is the one integer [n] with
    [n * TPB ≤ x < (n + 1) * TPB]. *)
Lemma floor_div_bounds x TPB :
  0 < TPB → (x / TPB) * TPB ≤ x < (x / TPB + 1) * TPB.
Proof.
  intros HT.
  pose proof (Z.mul_div_le x TPB HT).
  pose proof (Z.mul_succ_div_gt x TPB HT). lia.
Qed.

End GridUtilities.

(* ===================================================================== *)
(** * Properties of the complex operations *)
(* ===================================================================== *)

Section Complex.

Local Open Scope Qc_scope.

Lemma half_inv : half = / (1 + 1).
Proof. apply Qc_is_canon. reflexivity. Qed.

Lemma C_eq (a b : C) : re a = re b → im a = im b → a = b.
Proof. destruct a, b; simpl; congruence. Qed.

(** The inverse combination undoes the combination, and conversely. *)
Lemma pm_r_rt (r t : C) : pm_r (rt_p r t) (rt_m r t) = r.
Proof.
  destruct r as [rr ri], t as [tr ti].
  apply C_eq; cbn; rewrite half_inv; field; done.
Qed.

Lemma pm_t_rt (r t : C) : pm_t (rt_p r t) (rt_m r t) = t.
Proof.
  destruct r as [rr ri], t as [tr ti].
  apply C_eq; cbn; rewrite half_inv; field; done.
Qed.

Lemma rt_p_pm (p m : C) : rt_p (pm_r p m) (pm_t p m) = p.
Proof.
  destruct p as [pr pi], m as [mr mi].
  apply C_eq; cbn; rewrite half_inv; field; done.
Qed.

Lemma rt_m_pm (p m : C) : rt_m (pm_r p m) (pm_t p m) = m.
Proof.
  destruct p as [pr pi], m as [mr mi].
  apply C_eq; cbn; rewrite half_inv; field; done.
Qed.

End Complex.

(* ===================================================================== *)
(** * Properties of the device memory *)
(* ===================================================================== *)

#[local] Arguments Nat.ltb : simpl never.

Section Memory.

Implicit Types (h : mem) (a b : handle) (idx j : list nat) (v : C).

Lemma in_bounds_2 (iz ir Nz Nr : nat) :
  in_bounds [iz; ir] [Nz; Nr] = true ↔ iz < Nz ∧ ir < Nr.
Proof.
  unfold in_bounds. rewrite andb_true_r, andb_true_iff, !Nat.ltb_lt.
  done.
Qed.

Lemma in_bounds_1 (i n : nat) : in_bounds [i] [n] = true ↔ i < n.
Proof. unfold in_bounds. rewrite andb_true_r, Nat.ltb_lt. done. Qed.

Lemma peek_is_Some h a idx dims :
  shape_of h a = Some dims →
  is_Some (peek h a idx) ↔ in_bounds idx dims = true.
Proof.
  unfold peek, shape_of. destruct (h !! a) as [d|]; cbn; [|done].
  intros [= <-]. destruct (in_bounds idx (shape d)).
  - split; eauto.
  - split; [intros [? ?]|]; done.
Qed.

(** Whether a cell exists depends on the shapes alone. *)
Lemma peek_is_Some_shape h h' a idx :
  shape_of h' a = shape_of h a →
  is_Some (peek h a idx) → is_Some (peek h' a idx).
Proof.
  intros Hs [v Hv]. unfold peek, shape_of in *.
  destruct (h !! a) as [d|]; cbn in *; [|done].
  destruct (h' !! a) as [d'|]; cbn in *; [|done].
  injection Hs as ->. destruct (in_bounds idx (shape d)); eauto.
Qed.

Lemma shape_at_shape h a k :
  kshape_at a k h = dims ← shape_of h a; n ← dims !! k; Some (n, h).
Proof. unfold kshape_at, shape_of. by destruct (h !! a). Qed.

Lemma guard_shape h a iz ir Nz Nr :
  shape_of h a = Some [Nz; Nr] →
  run (guard a iz ir) h = Some (active Nz Nr (iz, ir), h).
Proof.
  intros Hs. cbn. unfold kbind, kret, active.
  rewrite shape_at_shape, Hs. cbn.
  destruct (iz <? Nz); [|done].
  cbn. unfold kbind. rewrite shape_at_shape, Hs. done.
Qed.

Lemma guard_inv h a iz ir (r : bool) h' :
  run (guard a iz ir) h = Some (r, h') →
  h' = h ∧
  (r = true → ∃ Nz dims, shape_of h a = Some (Nz :: dims) ∧ iz < Nz
                         ∧ kshape_at a 0 h = Some (Nz, h)).
Proof.
  cbn. unfold kbind, kret. rewrite shape_at_shape.
  destruct (shape_of h a) as [[|Nz dims]|] eqn:Hs; cbn; try done.
  destruct (iz <? Nz) eqn:Hz.
  - cbn. unfold kbind. rewrite shape_at_shape, Hs. cbn.
    destruct (dims !! 0); cbn; [|done].
    intros [= <- <-]. split; [done|]. intros _. exists Nz, dims.
    apply Nat.ltb_lt in Hz. done.
  - intros [= <- <-]. done.
Qed.

Lemma load_peek h a idx :
  kload a idx h = v ← peek h a idx; Some (v, h).
Proof.
  unfold kload, peek. destruct (h !! a) as [d|]; cbn; [|done].
  by destruct (in_bounds idx (shape d)).
Qed.

Lemma store_inv h a idx v h' :
  kstore a idx v h = Some ((), h') →
  is_Some (peek h a idx)
  ∧ (∀ b, shape_of h' b = shape_of h b)
  ∧ (∀ l, view h' l = if decide (l = (a, idx)) then Some v else view h l).
Proof.
  unfold kstore, view, peek, shape_of.
  destruct (h !! a) as [d|] eqn:Ha; cbn; [|done].
  destruct (in_bounds idx (shape d)) eqn:Hb; [|done].
  intros [= <-]. split_and!; [by eauto| |].
  - intros b. destruct (decide (a = b)) as [<-|Hne].
    + by rewrite lookup_insert_eq, Ha.
    + by rewrite lookup_insert_ne.
  - intros [b j]. cbn. destruct (decide (a = b)) as [<-|Hne].
    + rewrite lookup_insert_eq, Ha. cbn.
      destruct (decide (j = idx)) as [->|Hj].
      * rewrite Hb. by rewrite !decide_True.
      * rewrite decide_False by congruence. done.
    + rewrite lookup_insert_ne by done.
      rewrite decide_False by congruence. done.
Qed.

Lemma store_is_Some h a idx v :
  is_Some (peek h a idx) → ∃ h', kstore a idx v h = Some ((), h').
Proof.
  unfold kstore, peek. destruct (h !! a) as [d|]; cbn; [|by intros []].
  destruct (in_bounds idx (shape d)); [eauto|by intros []].
Qed.

End Memory.

(* ===================================================================== *)
(** * One thread of a pointwise kernel *)
(* ===================================================================== *)

Section Thread.

Implicit Types (h : mem) (l : loc) (ls : list loc) (ws : list (loc * C)).

Lemma last_write_app ws1 ws2 l :
  last_write (ws1 ++ ws2) l
  = match last_write ws2 l with
    | Some v => Some v
    | None => last_write ws1 l
    end.
Proof.
  induction ws1 as [|w ws1 IH]; cbn.
  - by destruct (last_write ws2 l).
  - rewrite IH. by destruct (last_write ws2 l).
Qed.

Lemma last_write_None ws l : last_write ws l = None ↔ l ∉ ws.*1.
Proof.
  induction ws as [|w ws IH]; cbn.
  - split; [intros _; apply not_elem_of_nil | done].
  - rewrite not_elem_of_cons, <- IH.
    destruct (last_write ws l) as [v|].
    + split; [done|]. by intros [_ ?].
    + destruct (decide (w.1 = l)) as [Hw|Hw].
      * split; [done|]. intros [Hne _]. by destruct Hne.
      * split; [|done]. intros _. split; [congruence|done].
Qed.

Lemma override_nil ρ l : override [] ρ l = ρ l.
Proof. done. Qed.

Lemma override_app ws1 ws2 ρ l :
  override (ws1 ++ ws2) ρ l = override ws2 (override ws1 ρ) l.
Proof.
  unfold override. rewrite last_write_app.
  by destruct (last_write ws2 l).
Qed.

Lemma override_notin ws ρ l : l ∉ ws.*1 → override ws ρ l = ρ l.
Proof. intros H%last_write_None. unfold override. by rewrite H. Qed.

Lemma override_ext ws ρ1 ρ2 l :
  ρ1 l = ρ2 l → override ws ρ1 l = override ws ρ2 l.
Proof. intros H. unfold override. by rewrite H. Qed.

Lemma vals_ext h h' ls :
  (∀ l, l ∈ ls → view h l = view h' l) → vals h ls = vals h' ls.
Proof.
  intros H. unfold vals. apply list_fmap_ext.
  intros i l Hl. rewrite H; [done|]. by eapply list_elem_of_lookup_2.
Qed.

Lemma load_all_inv ls h vs h' :
  load_all ls h = Some (vs, h') → h' = h ∧ vs = vals h ls.
Proof.
  revert vs h'. induction ls as [|l ls IH]; intros vs h'; cbn.
  - by intros [= <- <-].
  - unfold kbind. rewrite load_peek. fold (view h l).
    destruct (view h l) as [v|]; cbn; [|done].
    destruct (load_all ls h) as [[vs' h'']|]; [|done].
    destruct (IH vs' h'' eq_refl) as [-> ->].
    by intros [= <- <-].
Qed.

Lemma load_all_is_Some ls h :
  (∀ l, l ∈ ls → is_Some (view h l)) →
  load_all ls h = Some (vals h ls, h).
Proof.
  induction ls as [|l ls IH]; intros H; cbn; [done|].
  unfold kbind. rewrite load_peek. fold (view h l).
  destruct (H l) as [v Hv]; [left|]. rewrite Hv. cbn.
  rewrite IH; [done|]. intros l' Hl'. apply H. by right.
Qed.

Lemma store_all_inv ws h h' :
  store_all ws h = Some ((), h') →
  (∀ a, shape_of h' a = shape_of h a)
  ∧ (∀ l, view h' l = override ws (view h) l).
Proof.
  revert h. induction ws as [|[l v] ws IH]; intros h; cbn.
  - by intros [= <-].
  - unfold kbind.
    destruct (kstore l.1 l.2 v h) as [[[] h1]|] eqn:Hst; [|done].
    apply store_inv in Hst as (_ & Hsh & Hv).
    intros (Hsh' & Hv')%IH. split.
    + intros a. by rewrite Hsh', Hsh.
    + intros l'. rewrite Hv'. unfold override. cbn.
      destruct (last_write ws l'); [done|].
      rewrite Hv. destruct l as [a idx]. cbn.
      destruct (decide (l' = (a, idx))) as [->|Hne].
      * by rewrite decide_True.
      * by rewrite decide_False.
Qed.

Lemma store_all_is_Some ws h :
  (∀ l, l ∈ ws.*1 → is_Some (view h l)) →
  ∃ h', store_all ws h = Some ((), h').
Proof.
  revert h. induction ws as [|[l v] ws IH]; intros h H; cbn; [by eexists|].
  unfold kbind.
  destruct (store_is_Some h l.1 l.2 v) as [h1 Hst].
  { apply H. cbn. left. }
  rewrite Hst. apply IH. intros l' Hl'.
  apply store_inv in Hst as (_ & Hsh & _).
  eapply peek_is_Some_shape; [apply Hsh|]. apply H. cbn. by right.
Qed.

Context (g : handle) (rd : nat → tid → list loc)
        (wr : nat → tid → list C → list (loc * C)).

(** What one thread does, when it does not fault: outside the guard
    nothing, inside the guard its writes, computed from what it read. *)
Lemma pointwise_inv Nz Nr t h h' :
  shape_of h g = Some [Nz; Nr] →
  pointwise g rd wr t h = Some ((), h') →
  if active Nz Nr t
  then (∀ a, shape_of h' a = shape_of h a)
       ∧ (∀ l, view h' l = override (wr Nz t (vals h (rd Nz t))) (view h) l)
  else h' = h.
Proof.
  intros Hs. unfold pointwise, kbind. destruct t as [iz ir].
  rewrite (guard_shape _ _ _ _ _ _ Hs). cbn [fst snd].
  destruct (active Nz Nr (iz, ir)).
  - rewrite shape_at_shape, Hs. cbn.
    destruct (load_all (rd Nz (iz, ir)) h) as [[vs h1]|] eqn:Hl; [|done].
    apply load_all_inv in Hl as [-> ->]. apply store_all_inv.
  - unfold kret. by intros [= <-].
Qed.

Lemma pointwise_is_Some Nz Nr t h :
  shape_of h g = Some [Nz; Nr] →
  (active Nz Nr t = true →
   (∀ l, l ∈ rd Nz t → is_Some (view h l))
   ∧ (∀ l, l ∈ (wr Nz t (vals h (rd Nz t))).*1 → is_Some (view h l))) →
  ∃ h', pointwise g rd wr t h = Some ((), h').
Proof.
  intros Hs H. unfold pointwise, kbind. destruct t as [iz ir].
  rewrite (guard_shape _ _ _ _ _ _ Hs). cbn [fst snd].
  destruct (active Nz Nr (iz, ir)); [|by eexists].
  destruct H as [Hr Hw]; [done|].
  rewrite shape_at_shape, Hs. cbn.
  rewrite load_all_is_Some by done. by apply store_all_is_Some.
Qed.

End Thread.

(* ===================================================================== *)
(** * A launch of a pointwise kernel *)
(* ===================================================================== *)

Section Launch.

Context (g : handle) (rd : nat → tid → list loc)
        (wr : nat → tid → list C → list (loc * C)) (Nz Nr : nat).

Implicit Types (h : mem) (l : loc) (t : tid) (ts : list tid).

(** Frame: whatever the schedule, a launch that does not fault keeps
    every shape, and every cell that no thread inside the guard
    writes. *)
Lemma run_pointwise_frame ts h h' :
  shape_of h g = Some [Nz; Nr] →
  run_threads (pointwise g rd wr) ts h = Some ((), h') →
  (∀ a, shape_of h' a = shape_of h a)
  ∧ (∀ l, (∀ t vs, active Nz Nr t = true → l ∉ (wr Nz t vs).*1) →
          view h' l = view h l).
Proof.
  revert h. induction ts as [|t ts IH]; intros h Hg; cbn.
  - by intros [= <-].
  - unfold kbind.
    destruct (pointwise g rd wr t h) as [[[] h1]|] eqn:Ht; [|done].
    apply (pointwise_inv _ _ _ Nz Nr) in Ht; [|done].
    destruct (active Nz Nr t) eqn:Hact.
    + destruct Ht as [Hsh Hv]. intros [Hsh' Hv']%IH.
      2:{ by rewrite Hsh. }
      split.
      * intros a. by rewrite Hsh', Hsh.
      * intros l Hl. rewrite Hv', Hv by done.
        apply override_notin. by apply Hl.
    + subst h1. by apply IH.
Qed.

Lemma last_write_bind_notin (eff : tid → list (loc * C)) ts l :
  (∀ t, t ∈ ts → l ∉ (eff t).*1) → last_write (ts ≫= eff) l = None.
Proof.
  intros H. apply last_write_None.
  intros ([l' v] & -> & (t & Hin & Ht)%list_elem_of_bind)%list_elem_of_fmap.
  apply (H t Ht). apply list_elem_of_fmap. by exists (l', v).
Qed.

(** A cell that one thread only writes holds what this thread wrote. *)
Lemma last_write_bind_unique (eff : tid → list (loc * C)) ts t l :
  NoDup ts → t ∈ ts →
  (∀ t', t' ∈ ts → t' ≠ t → l ∉ (eff t').*1) →
  last_write (ts ≫= eff) l = last_write (eff t) l.
Proof.
  induction ts as [|t' ts IH]; intros Hnd Hin Hothers.
  - by apply elem_of_nil in Hin.
  - apply NoDup_cons in Hnd as [Hnotin Hnd].
    rewrite bind_cons, last_write_app.
    destruct (decide (t' = t)) as [->|Hne].
    + rewrite last_write_bind_notin; [done|].
      intros t' Ht'. apply Hothers; [by right|]. by intros ->.
    + apply elem_of_cons in Hin as [->|Hin]; [done|].
      rewrite IH; [|done|done|].
      2:{ intros t'' Ht'' Hne''. apply Hothers; [by right|done]. }
      destruct (last_write (eff t) l); [done|].
      apply last_write_None. apply Hothers; [left|done].
Qed.

Context (h0 : mem).
Hypothesis Hg : shape_of h0 g = Some [Nz; Nr].
Hypothesis Hrd : ∀ t l,
  active Nz Nr t = true → l ∈ rd Nz t → is_Some (view h0 l).
Hypothesis Hwr : ∀ t vs l,
  active Nz Nr t = true → l ∈ (wr Nz t vs).*1 → is_Some (view h0 l).
(** No thread writes a cell that another thread reads. *)
Hypothesis Hsep : ∀ t t' vs l,
  t ≠ t' → active Nz Nr t = true → active Nz Nr t' = true →
  l ∈ rd Nz t' → l ∉ (wr Nz t vs).*1.

Let eff := effects rd wr Nz Nr h0.

Lemma effects_sep t t' l :
  t ≠ t' → active Nz Nr t' = true → l ∈ rd Nz t' → l ∉ (eff t).*1.
Proof.
  intros Hne Hact' Hl. unfold eff, effects.
  destruct (active Nz Nr t) eqn:Hact; [|apply not_elem_of_nil].
  by eapply Hsep.
Qed.

(** The threads run one after another leave the memory that the
    threads would leave had each of them read the initial memory:
    the invariant of the run, from any point of a schedule. *)
Lemma run_pointwise_from done ts h :
  NoDup (done ++ ts) →
  (∀ a, shape_of h a = shape_of h0 a) →
  (∀ l, view h l = override (done ≫= eff) (view h0) l) →
  ∃ h', run_threads (pointwise g rd wr) ts h = Some ((), h')
        ∧ (∀ a, shape_of h' a = shape_of h0 a)
        ∧ (∀ l, view h' l = override ((done ++ ts) ≫= eff) (view h0) l).
Proof.
  revert done h. induction ts as [|t ts IH]; intros done h Hnd Hsh Hv.
  - exists h. rewrite app_nil_r. done.
  - assert (Hgh : shape_of h g = Some [Nz; Nr]) by (by rewrite Hsh).
    assert (Hreads : active Nz Nr t = true →
                     ∀ l, l ∈ rd Nz t → view h l = view h0 l).
    { intros Hact l Hl. rewrite Hv. unfold override.
      rewrite last_write_bind_notin; [done|].
      intros t' Ht'. apply (effects_sep t' t); [|done|done].
      intros ->. apply NoDup_app in Hnd as (_ & Hnd & _).
      apply (Hnd t Ht'). left. }
    destruct (pointwise_is_Some g rd wr Nz Nr t h Hgh) as [h1 Ht].
    { intros Hact. split.
      - intros l Hl. rewrite Hreads by done. by eapply Hrd.
      - intros l Hl. eapply peek_is_Some_shape; [apply Hsh|].
        by eapply Hwr. }
    cbn. unfold kbind. rewrite Ht.
    replace (done ++ t :: ts) with ((done ++ [t]) ++ ts) in *
      by (by rewrite <- app_assoc).
    apply IH; [done| |].
    + apply (pointwise_inv _ _ _ Nz Nr) in Ht; [|done].
      destruct (active Nz Nr t); [|by subst].
      destruct Ht as [Hsh1 _]. intros a. by rewrite Hsh1.
    + intros l. rewrite bind_app, override_app. cbn.
      rewrite app_nil_r.
      apply (pointwise_inv _ _ _ Nz Nr) in Ht; [|done].
      change (eff t) with
        (if active Nz Nr t then wr Nz t (vals h0 (rd Nz t)) else []).
      destruct (active Nz Nr t) eqn:Hact.
      * destruct Ht as [_ Hv1]. rewrite Hv1.
        rewrite (vals_ext h h0) by (intros; by apply Hreads).
        apply override_ext, Hv.
      * subst h1. rewrite override_nil. apply Hv.
Qed.

Lemma run_pointwise ts :
  NoDup ts →
  ∃ h', run_threads (pointwise g rd wr) ts h0 = Some ((), h')
        ∧ (∀ a, shape_of h' a = shape_of h0 a)
        ∧ (∀ l, view h' l = override (ts ≫= eff) (view h0) l).
Proof.
  intros Hnd. apply (run_pointwise_from [] ts h0); done.
Qed.

End Launch.

(* ===================================================================== *)
(** * The kernels as pointwise kernels *)
(* ===================================================================== *)

Section Instances.

Implicit Types (h : mem) (t : tid).

Lemma run_pbind {A B} (p : prog A) (f : A → prog B) h :
  run (pbind p f) h = kbind (run p) (λ x, run (f x)) h.
Proof.
  revert h. induction p as [x|a k cont IH|a idx cont IH|a idx v cont IH];
    intros h; cbn; unfold kbind.
  - done.
  - destruct (kshape_at a k h) as [[n h']|]; [apply IH|done].
  - destruct (kload a idx h) as [[v h']|]; [apply IH|done].
  - destruct (kstore a idx v h) as [[[] h']|]; [apply IH|done].
Qed.

(** Both sides start with the guard; behind it, with the extent
    [g.shape[0]] that the guard has read. *)
Ltac enter_guard g iz ir h :=
  rewrite run_pbind; unfold pointwise, kbind; cbn [fst snd];
  let Hg := fresh "Hg" in
  let b := fresh "b" in
  destruct (run (guard g iz ir) h) as [[b ?]|] eqn:Hg; [|done];
  apply guard_inv in Hg as [-> Hg];
  destruct b; [|done];
  destruct Hg as (? & ? & _ & _ & Hg); [done|];
  unfold rd1, wr1, rd2, wr2, idx2, flat, rt_p, rt_m, pm_r, pm_t;
  cbn; unfold kbind, kret; rewrite ?Hg; cbn [fst snd].

Ltac case_access :=
  cbn; unfold kbind, kret;
  match goal with
  | |- context [kload ?a ?i ?h] =>
      destruct (kload a i h) as [[? ?]|]; [|done]
  | |- context [kstore ?a ?i ?v ?h] =>
      destruct (kstore a i v h) as [[[] ?]|]; [|done]
  end.

Lemma cuda_copy_2d_to_2d_pointwise array_in array_out t h :
  run (cuda_copy_2d_to_2d array_in array_out t) h
  = pointwise array_in (rd1 array_in (λ _, idx2))
      (wr1 array_out (λ _, idx2)) t h.
Proof.
  destruct t as [iz ir]. unfold cuda_copy_2d_to_2d.
  enter_guard array_in iz ir h.
  case_access. by case_access.
Qed.

Lemma cuda_copy_2d_to_1d_pointwise array_2d array_1d t h :
  run (cuda_copy_2d_to_1d array_2d array_1d t) h
  = pointwise array_2d (rd1 array_2d (λ _, idx2))
      (wr1 array_1d flat) t h.
Proof.
  destruct t as [iz ir]. unfold cuda_copy_2d_to_1d.
  enter_guard array_2d iz ir h.
  case_access. by case_access.
Qed.

Lemma cuda_copy_1d_to_2d_pointwise array_1d array_2d t h :
  run (cuda_copy_1d_to_2d array_1d array_2d t) h
  = pointwise array_2d (rd1 array_1d flat)
      (wr1 array_2d (λ _, idx2)) t h.
Proof.
  destruct t as [iz ir]. unfold cuda_copy_1d_to_2d.
  enter_guard array_2d iz ir h.
  case_access. by case_access.
Qed.

Lemma cuda_rt_to_pm_pointwise buffer_r buffer_t buffer_p buffer_m t h :
  run (cuda_rt_to_pm buffer_r buffer_t buffer_p buffer_m t) h
  = pointwise buffer_r (rd2 buffer_r buffer_t)
      (wr2 rt_p rt_m buffer_p buffer_m) t h.
Proof.
  destruct t as [iz ir]. unfold cuda_rt_to_pm.
  enter_guard buffer_r iz ir h.
  case_access. case_access. case_access. by case_access.
Qed.

Lemma cuda_pm_to_rt_pointwise buffer_p buffer_m buffer_r buffer_t t h :
  run (cuda_pm_to_rt buffer_p buffer_m buffer_r buffer_t t) h
  = pointwise buffer_p (rd2 buffer_p buffer_m)
      (wr2 pm_r pm_t buffer_r buffer_t) t h.
Proof.
  destruct t as [iz ir]. unfold cuda_pm_to_rt.
  enter_guard buffer_p iz ir h.
  case_access. case_access. case_access. by case_access.
Qed.

Lemma run_threads_ext (body1 body2 : tid → kernel unit) ts h :
  (∀ t h, body1 t h = body2 t h) →
  run_threads body1 ts h = run_threads body2 ts h.
Proof.
  intros H. revert h. induction ts as [|t ts IH]; intros h; cbn; [done|].
  unfold kbind. rewrite H. destruct (body2 t h) as [[[] h1]|]; [|done].
  apply IH.
Qed.

End Instances.

(* ===================================================================== *)
(** * Launches of the copy kernels and of the combination kernels *)
(* ===================================================================== *)

Section Families.

Implicit Types (h : mem) (t : tid) (ts : list tid).

Lemma active_lt Nz Nr t : active Nz Nr t = true ↔ t.1 < Nz ∧ t.2 < Nr.
Proof. unfold active. rewrite andb_true_iff, !Nat.ltb_lt. done. Qed.

Lemma idx2_inj t t' : idx2 t = idx2 t' → t = t'.
Proof. destruct t, t'. unfold idx2. cbn. congruence. Qed.

(** [i = iz + Nz*ir] is one-to-one on the indices of the grid, and onto
    the indices below [Nz * Nr]. *)
Lemma flat_lt Nz Nr t : active Nz Nr t = true → t.1 + Nz * t.2 < Nz * Nr.
Proof. intros [Hz Hr]%active_lt. nia. Qed.

Lemma flat_inj Nz Nr t t' :
  active Nz Nr t = true → active Nz Nr t' = true →
  flat Nz t = flat Nz t' → t = t'.
Proof.
  intros [Hz Hr]%active_lt [Hz' Hr']%active_lt. unfold flat.
  destruct t as [iz ir], t' as [iz' ir']. cbn in *. intros [= H].
  assert (ir = ir') as -> by nia. f_equal. nia.
Qed.

Lemma flat_surj Nz Nr i :
  i < Nz * Nr →
  ∃ t, active Nz Nr t = true ∧ flat Nz t = [i].
Proof.
  intros Hi. assert (0 < Nz) by nia.
  exists (i `mod` Nz, i `div` Nz). split.
  - apply active_lt. cbn. split.
    + apply Nat.mod_upper_bound. lia.
    + apply Nat.Div0.div_lt_upper_bound. lia.
  - unfold flat. cbn. f_equal.
    rewrite (Nat.div_mod_eq i Nz) at 3. lia.
Qed.

Lemma covers_peek h a Nz Nr t :
  covers h a Nz Nr → active Nz Nr t = true →
  is_Some (peek h a (idx2 t)).
Proof.
  intros (n0 & n1 & Hs & H0 & H1) [Hz Hr]%active_lt.
  eapply peek_is_Some; [done|]. apply in_bounds_2. lia.
Qed.

Lemma shape_covers h a Nz Nr :
  shape_of h a = Some [Nz; Nr] → covers h a Nz Nr.
Proof. intros H. exists Nz, Nr. done. Qed.

(** ** A copy: one cell read, one cell written *)
Section Copy.

Context (g src dst : handle) (ixs ixd : nat → tid → list nat)
        (Nz Nr : nat) (h0 : mem).
Hypothesis Hg : shape_of h0 g = Some [Nz; Nr].
Hypothesis Hsrc : ∀ t,
  active Nz Nr t = true → is_Some (peek h0 src (ixs Nz t)).
Hypothesis Hdst : ∀ t,
  active Nz Nr t = true → is_Some (peek h0 dst (ixd Nz t)).
Hypothesis Hinj : ∀ t t',
  active Nz Nr t = true → active Nz Nr t' = true →
  ixd Nz t = ixd Nz t' → t = t'.
Hypothesis Hsep : ∀ t t',
  t ≠ t' → active Nz Nr t = true → active Nz Nr t' = true →
  (dst, ixd Nz t) ≠ (src, ixs Nz t').

Lemma copy_launch ts :
  NoDup ts →
  ∃ h', run_threads (pointwise g (rd1 src ixs) (wr1 dst ixd)) ts h0
        = Some ((), h')
    ∧ (∀ a, shape_of h' a = shape_of h0 a)
    ∧ (∀ t, t ∈ ts → active Nz Nr t = true →
            peek h' dst (ixd Nz t) = peek h0 src (ixs Nz t))
    ∧ (∀ a idx,
         ¬ (a = dst ∧ ∃ t, t ∈ ts ∧ active Nz Nr t = true
                           ∧ idx = ixd Nz t) →
         peek h' a idx = peek h0 a idx).
Proof.
  intros Hnd.
  destruct (run_pointwise g (rd1 src ixs) (wr1 dst ixd) Nz Nr h0)
    with (ts := ts) as (h' & Hrun & Hsh & Hv); try done.
  { intros t l Hact [->|[]%elem_of_nil]%elem_of_cons. by apply Hsrc. }
  { intros t vs l Hact. unfold wr1, copy_writes.
    destruct vs as [|v [|??]]; cbn; try (by intros []%elem_of_nil).
    intros [->|[]%elem_of_nil]%elem_of_cons. by apply Hdst. }
  { intros t t' vs l Hne Hact Hact'.
    intros [->|[]%elem_of_nil]%elem_of_cons.
    unfold wr1, copy_writes.
    destruct vs as [|v [|??]]; cbn; try apply not_elem_of_nil.
    intros [Heq|[]%elem_of_nil]%elem_of_cons.
    by eapply Hsep. }
  exists h'. split_and!; [done|done| |].
  - intros t Hin Hact.
    specialize (Hv (dst, ixd Nz t)). unfold view in Hv. cbn in Hv.
    rewrite Hv. unfold override.
    rewrite (last_write_bind_unique _ ts t); [|done|done|].
    + unfold effects. rewrite Hact. unfold wr1, rd1, vals. cbn.
      rewrite decide_True by done. unfold view. cbn.
      destruct (Hsrc t Hact) as [v ->]. done.
    + intros t' Hin' Hne. unfold effects.
      destruct (active Nz Nr t') eqn:Hact'; [|apply not_elem_of_nil].
      unfold wr1, rd1, vals. cbn.
      intros [[= Heq]|[]%elem_of_nil]%elem_of_cons.
      apply Hne. symmetry. by apply Hinj.
  - intros a idx Hno.
    specialize (Hv (a, idx)). unfold view in Hv. cbn in Hv.
    rewrite Hv. unfold override.
    rewrite last_write_bind_notin; [done|].
    intros t Hin. unfold effects.
    destruct (active Nz Nr t) eqn:Hact; [|apply not_elem_of_nil].
    unfold wr1, rd1, vals. cbn.
    intros [[= -> ->]|[]%elem_of_nil]%elem_of_cons.
    apply Hno. split; [done|]. by exists t.
Qed.

End Copy.

(** ** A combination: two cells read, two cells written, all four at
    the index of the thread. The inputs and the outputs may be the same
    arrays, in any way; the two outputs are two arrays. *)
Section Combine.

Context (f1 f2 : C → C → C) (in1 in2 out1 out2 : handle)
        (Nz Nr : nat) (h0 : mem).
Hypothesis Hin1 : shape_of h0 in1 = Some [Nz; Nr].
Hypothesis Hin2 : covers h0 in2 Nz Nr.
Hypothesis Hout1 : covers h0 out1 Nz Nr.
Hypothesis Hout2 : covers h0 out2 Nz Nr.
Hypothesis Hne : out1 ≠ out2.

Lemma combine_launch ts :
  NoDup ts →
  ∃ h', run_threads
          (pointwise in1 (rd2 in1 in2) (wr2 f1 f2 out1 out2)) ts h0
        = Some ((), h')
    ∧ (∀ a, shape_of h' a = shape_of h0 a)
    ∧ (∀ t v1 v2, t ∈ ts → active Nz Nr t = true →
          peek h0 in1 (idx2 t) = Some v1 →
          peek h0 in2 (idx2 t) = Some v2 →
          peek h' out1 (idx2 t) = Some (f1 v1 v2)
          ∧ peek h' out2 (idx2 t) = Some (f2 v1 v2))
    ∧ (∀ a idx,
         ¬ ((a = out1 ∨ a = out2)
            ∧ ∃ t, t ∈ ts ∧ active Nz Nr t = true ∧ idx = idx2 t) →
         peek h' a idx = peek h0 a idx).
Proof.
  intros Hnd.
  destruct (run_pointwise in1 (rd2 in1 in2) (wr2 f1 f2 out1 out2)
              Nz Nr h0) with (ts := ts)
    as (h' & Hrun & Hsh & Hv); try done.
  { intros t l Hact. unfold rd2.
    intros [->|[->|[]%elem_of_nil]%elem_of_cons]%elem_of_cons;
      apply (covers_peek _ _ Nz Nr); auto using shape_covers. }
  { intros t vs l Hact. unfold wr2, combine_writes.
    destruct vs as [|v1 [|v2 [|??]]]; cbn;
      try (by intros []%elem_of_nil).
    intros [->|[->|[]%elem_of_nil]%elem_of_cons]%elem_of_cons;
      by apply (covers_peek _ _ Nz Nr). }
  { intros t t' vs l Hne' Hact Hact'. unfold rd2, wr2, combine_writes.
    intros Hl. destruct vs as [|v1 [|v2 [|??]]]; cbn;
      try apply not_elem_of_nil.
    intros Hw. apply Hne'. apply idx2_inj.
    apply elem_of_cons in Hl as [->|[->|[]%elem_of_nil]%elem_of_cons];
      apply elem_of_cons in Hw
        as [[= _ H1 H2]|[[= _ H1 H2]|[]%elem_of_nil]%elem_of_cons];
      unfold idx2; congruence. }
  assert (Hothers : ∀ t t' a, t' ≠ t →
    (a, idx2 t) ∉ (effects (rd2 in1 in2) (wr2 f1 f2 out1 out2)
                     Nz Nr h0 t').*1).
  { intros t t' a Hne'. unfold effects.
    destruct (active Nz Nr t'); [|apply not_elem_of_nil].
    unfold wr2, rd2, vals. cbn.
    intros [[= _ H1 H2]|[[= _ H1 H2]|[]%elem_of_nil]%elem_of_cons]
             %elem_of_cons;
      apply Hne'; apply idx2_inj; unfold idx2; congruence. }
  exists h'. split_and!; [done|done| |].
  - intros t v1 v2 Hin Hact H1 H2.
    pose proof (Hv (out1, idx2 t)) as Hv1.
    pose proof (Hv (out2, idx2 t)) as Hv2.
    unfold view, override in Hv1, Hv2. cbn [fst snd] in Hv1, Hv2.
    rewrite (last_write_bind_unique _ ts t) in Hv1, Hv2
      by (intros; auto).
    unfold effects in Hv1, Hv2. rewrite Hact in Hv1, Hv2.
    unfold wr2, rd2, vals, view in Hv1, Hv2.
    cbn [fmap list_fmap fst snd] in Hv1, Hv2.
    rewrite H1, H2 in Hv1, Hv2. cbn in Hv1, Hv2.
    rewrite Hv1, Hv2.
    rewrite (decide_False (P := (out2, idx2 t) = (out1, idx2 t)))
      by congruence.
    rewrite !decide_True by done. done.
  - intros a idx Hno.
    specialize (Hv (a, idx)). unfold view in Hv. cbn in Hv.
    rewrite Hv. unfold override.
    rewrite last_write_bind_notin; [done|].
    intros t Hin. unfold effects.
    destruct (active Nz Nr t) eqn:Hact; [|apply not_elem_of_nil].
    unfold wr2, rd2, vals. cbn.
    intros [[= -> ->]|[[= -> ->]|[]%elem_of_nil]%elem_of_cons]%elem_of_cons;
      apply Hno; (split; [auto|by exists t]).
Qed.

End Combine.

End Families.

(* ===================================================================== *)
(** * The five launches *)
(* ===================================================================== *)

Section Launches.

Implicit Types (h : mem) (t : tid) (ts : list tid).

Lemma has_ndim_2 h a Nz Nr : covers h a Nz Nr → has_ndim h (a, 2) = true.
Proof.
  intros (n0 & n1 & Hs & _). unfold has_ndim. cbn. by rewrite Hs.
Qed.

Lemma has_ndim_1 h a n : shape_of h a = Some [n] → has_ndim h (a, 1) = true.
Proof. intros Hs. unfold has_ndim. cbn. by rewrite Hs. Qed.

Lemma exec_cuda_jit sig body1 body2 ts h h' :
  forallb (has_ndim h) sig = true →
  (∀ t h, run (body1 t) h = body2 t h) →
  run_threads body2 ts h = Some ((), h') →
  exec (cuda_jit sig body1 ts) h = Some h'.
Proof.
  intros Hsig Hbody Hrun. unfold exec, cuda_jit. rewrite Hsig.
  rewrite (run_threads_ext _ body2) by done. by rewrite Hrun.
Qed.

Lemma exec_cuda_jit_inv sig body1 body2 ts h h' :
  (∀ t h, run (body1 t) h = body2 t h) →
  exec (cuda_jit sig body1 ts) h = Some h' →
  run_threads body2 ts h = Some ((), h').
Proof.
  intros Hbody. unfold exec, cuda_jit.
  destruct (forallb (has_ndim h) sig); [|done].
  rewrite (run_threads_ext _ body2) by done.
  destruct (run_threads body2 ts h) as [[[] h1]|]; [|done].
  by intros [= <-].
Qed.

Lemma launch_copy_2d_to_2d_spec h0 array_in array_out Nz Nr ts :
  shape_of h0 array_in = Some [Nz; Nr] →
  covers h0 array_out Nz Nr →
  NoDup ts →
  ∃ h', exec (launch_copy_2d_to_2d ts array_in array_out) h0 = Some h'
    ∧ (∀ a, shape_of h' a = shape_of h0 a)
    ∧ (∀ t, t ∈ ts → active Nz Nr t = true →
            peek h' array_out (idx2 t) = peek h0 array_in (idx2 t))
    ∧ (∀ a idx,
         ¬ (a = array_out ∧ ∃ t, t ∈ ts ∧ active Nz Nr t = true
                                 ∧ idx = idx2 t) →
         peek h' a idx = peek h0 a idx).
Proof.
  intros Hin Hout Hnd.
  destruct (copy_launch array_in array_in array_out (λ _, idx2)
              (λ _, idx2) Nz Nr h0) with (ts := ts)
    as (h' & Hrun & H); try done.
  - intros t Hact. apply (covers_peek _ _ Nz Nr); auto using shape_covers.
  - intros t Hact. by apply (covers_peek _ _ Nz Nr).
  - intros t t' _ _. apply idx2_inj.
  - intros t t' Hne _ _ H. apply Hne, idx2_inj. congruence.
  - exists h'. split; [|done].
    eapply exec_cuda_jit; [|apply cuda_copy_2d_to_2d_pointwise|done].
    cbn. rewrite (has_ndim_2 _ _ Nz Nr), (has_ndim_2 _ _ Nz Nr);
      auto using shape_covers.
Qed.

Lemma launch_copy_2d_to_1d_spec h0 array_2d array_1d Nz Nr n ts :
  shape_of h0 array_2d = Some [Nz; Nr] →
  shape_of h0 array_1d = Some [n] → Nz * Nr ≤ n →
  NoDup ts →
  ∃ h', exec (launch_copy_2d_to_1d ts array_2d array_1d) h0 = Some h'
    ∧ (∀ a, shape_of h' a = shape_of h0 a)
    ∧ (∀ t, t ∈ ts → active Nz Nr t = true →
            peek h' array_1d (flat Nz t) = peek h0 array_2d (idx2 t))
    ∧ (∀ a idx,
         ¬ (a = array_1d ∧ ∃ t, t ∈ ts ∧ active Nz Nr t = true
                                 ∧ idx = flat Nz t) →
         peek h' a idx = peek h0 a idx).
Proof.
  intros H2 H1 Hn Hnd.
  destruct (copy_launch array_2d array_2d array_1d (λ _, idx2)
              flat Nz Nr h0) with (ts := ts)
    as (h' & Hrun & H); try done.
  - intros t Hact. apply (covers_peek _ _ Nz Nr); auto using shape_covers.
  - intros t Hact. eapply peek_is_Some; [done|].
    apply in_bounds_1. apply (flat_lt Nz Nr) in Hact. lia.
  - intros t t'. apply flat_inj.
  - exists h'. split; [|done].
    eapply exec_cuda_jit; [|apply cuda_copy_2d_to_1d_pointwise|done].
    cbn. rewrite (has_ndim_2 _ _ Nz Nr), (has_ndim_1 _ _ n);
      auto using shape_covers.
Qed.

Lemma launch_copy_1d_to_2d_spec h0 array_1d array_2d Nz Nr n ts :
  shape_of h0 array_2d = Some [Nz; Nr] →
  shape_of h0 array_1d = Some [n] → Nz * Nr ≤ n →
  NoDup ts →
  ∃ h', exec (launch_copy_1d_to_2d ts array_1d array_2d) h0 = Some h'
    ∧ (∀ a, shape_of h' a = shape_of h0 a)
    ∧ (∀ t, t ∈ ts → active Nz Nr t = true →
            peek h' array_2d (idx2 t) = peek h0 array_1d (flat Nz t))
    ∧ (∀ a idx,
         ¬ (a = array_2d ∧ ∃ t, t ∈ ts ∧ active Nz Nr t = true
                                 ∧ idx = idx2 t) →
         peek h' a idx = peek h0 a idx).
Proof.
  intros H2 H1 Hn Hnd.
  destruct (copy_launch array_2d array_1d array_2d flat
              (λ _, idx2) Nz Nr h0) with (ts := ts)
    as (h' & Hrun & H); try done.
  - intros t Hact. eapply peek_is_Some; [done|].
    apply in_bounds_1. apply (flat_lt Nz Nr) in Hact. lia.
  - intros t Hact. apply (covers_peek _ _ Nz Nr); auto using shape_covers.
  - intros t t' _ _. apply idx2_inj.
  - exists h'. split; [|done].
    eapply exec_cuda_jit; [|apply cuda_copy_1d_to_2d_pointwise|done].
    cbn. rewrite (has_ndim_2 _ _ Nz Nr), (has_ndim_1 _ _ n);
      auto using shape_covers.
Qed.

Lemma launch_rt_to_pm_spec h0 buffer_r buffer_t buffer_p buffer_m Nz Nr ts :
  shape_of h0 buffer_r = Some [Nz; Nr] →
  covers h0 buffer_t Nz Nr →
  covers h0 buffer_p Nz Nr →
  covers h0 buffer_m Nz Nr →
  buffer_p ≠ buffer_m →
  NoDup ts →
  ∃ h', exec (launch_rt_to_pm ts buffer_r buffer_t buffer_p buffer_m) h0
        = Some h'
    ∧ (∀ a, shape_of h' a = shape_of h0 a)
    ∧ (∀ t value_r value_t, t ∈ ts → active Nz Nr t = true →
          peek h0 buffer_r (idx2 t) = Some value_r →
          peek h0 buffer_t (idx2 t) = Some value_t →
          peek h' buffer_p (idx2 t) = Some (rt_p value_r value_t)
          ∧ peek h' buffer_m (idx2 t) = Some (rt_m value_r value_t))
    ∧ (∀ a idx,
         ¬ ((a = buffer_p ∨ a = buffer_m)
            ∧ ∃ t, t ∈ ts ∧ active Nz Nr t = true ∧ idx = idx2 t) →
         peek h' a idx = peek h0 a idx).
Proof.
  intros Hr Ht Hp Hm Hne Hnd.
  destruct (combine_launch rt_p rt_m buffer_r buffer_t buffer_p buffer_m
              Nz Nr h0 Hr Ht Hp Hm Hne ts Hnd) as (h' & Hrun & H).
  exists h'. split; [|done].
  eapply exec_cuda_jit; [|apply cuda_rt_to_pm_pointwise|done].
  cbn. rewrite !(has_ndim_2 _ _ Nz Nr); auto using shape_covers.
Qed.

Lemma launch_pm_to_rt_spec h0 buffer_p buffer_m buffer_r buffer_t Nz Nr ts :
  shape_of h0 buffer_p = Some [Nz; Nr] →
  covers h0 buffer_m Nz Nr →
  covers h0 buffer_r Nz Nr →
  covers h0 buffer_t Nz Nr →
  buffer_r ≠ buffer_t →
  NoDup ts →
  ∃ h', exec (launch_pm_to_rt ts buffer_p buffer_m buffer_r buffer_t) h0
        = Some h'
    ∧ (∀ a, shape_of h' a = shape_of h0 a)
    ∧ (∀ t value_p value_m, t ∈ ts → active Nz Nr t = true →
          peek h0 buffer_p (idx2 t) = Some value_p →
          peek h0 buffer_m (idx2 t) = Some value_m →
          peek h' buffer_r (idx2 t) = Some (pm_r value_p value_m)
          ∧ peek h' buffer_t (idx2 t) = Some (pm_t value_p value_m))
    ∧ (∀ a idx,
         ¬ ((a = buffer_r ∨ a = buffer_t)
            ∧ ∃ t, t ∈ ts ∧ active Nz Nr t = true ∧ idx = idx2 t) →
         peek h' a idx = peek h0 a idx).
Proof.
  intros Hp Hm Hr Ht Hne Hnd.
  destruct (combine_launch pm_r pm_t buffer_p buffer_m buffer_r buffer_t
              Nz Nr h0 Hp Hm Hr Ht Hne ts Hnd) as (h' & Hrun & H).
  exists h'. split; [|done].
  eapply exec_cuda_jit; [|apply cuda_pm_to_rt_pointwise|done].
  cbn. rewrite !(has_ndim_2 _ _ Nz Nr); auto using shape_covers.
Qed.

End Launches.

(* ===================================================================== *)
(** * The planned grid covers the arrays *)
(* ===================================================================== *)

Section Grid.

Implicit Types (t : tid) (ts : list tid).

Lemma elem_of_cuda_grid bpg tpb t :
  t ∈ cuda_grid bpg tpb ↔ t.1 < bpg.1 * tpb.1 ∧ t.2 < bpg.2 * tpb.2.
Proof.
  unfold cuda_grid. rewrite list_elem_of_bind. split.
  - intros (ix & (iy & ->%list_elem_of_singleton & Hy%elem_of_seq)
                   %list_elem_of_bind & Hx%elem_of_seq).
    cbn. lia.
  - intros [Hx Hy]. exists t.1. split; [|apply elem_of_seq; lia].
    apply list_elem_of_bind. exists t.2.
    split; [|apply elem_of_seq; lia].
    destruct t. apply list_elem_of_singleton. done.
Qed.

Lemma NoDup_cuda_grid bpg tpb : NoDup (cuda_grid bpg tpb).
Proof.
  unfold cuda_grid. apply NoDup_bind; [| |apply NoDup_seq].
  - intros x1 x2 t _ _.
    intros (? & ->%list_elem_of_singleton & _)%list_elem_of_bind.
    intros (? & [= -> _]%list_elem_of_singleton & _)%list_elem_of_bind.
    done.
  - intros x _. apply NoDup_bind; [| |apply NoDup_seq].
    + intros y1 y2 t _ _ ->%list_elem_of_singleton.
      by intros [= ->]%list_elem_of_singleton.
    + intros y _. apply NoDup_singleton.
Qed.

Lemma covered (n : nat) (TPB BPG : Z) :
  (0 < TPB)%Z → (Z.of_nat n / TPB + 1 ≤ BPG)%Z →
  n < Z.to_nat BPG * Z.to_nat TPB.
Proof.
  intros HT HB. pose proof (floor_div_bounds (Z.of_nat n) TPB HT) as [_ H].
  assert (0 ≤ Z.of_nat n / TPB)%Z by (apply Z.div_pos; lia).
  rewrite <- Z2Nat.inj_mul by lia. nia.
Qed.

(** Every schedule of the planned launch runs each index of the grid
    once. *)
Lemma planned_covering v Nz Nr TPBx TPBy ts :
  (0 < TPBx)%Z → (0 < TPBy)%Z →
  cover_range v (Z.of_nat Nz) TPBx → cover_range v (Z.of_nat Nr) TPBy →
  planned v Nz Nr TPBx TPBy ts → covering Nz Nr ts.
Proof.
  intros Hx Hy Hrx Hry Hp. unfold planned, planned_grid in Hp.
  destruct (cuda_tpb_bpg_2d_covers v (Z.of_nat Nz) (Z.of_nat Nr) TPBx TPBy)
    as (BPGx & BPGy & Heq & [Hbx _] & [Hby _]); [lia|lia|done..|].
  rewrite Heq in Hp. split.
  - rewrite Hp. apply NoDup_cuda_grid.
  - intros iz ir Hz Hr. rewrite Hp. apply elem_of_cuda_grid. cbn.
    pose proof (covered Nz TPBx BPGx Hx Hbx).
    pose proof (covered Nr TPBy BPGy Hy Hby). lia.
Qed.

Lemma planned_grid_planned v Nz Nr TPBx TPBy :
  planned v Nz Nr TPBx TPBy (planned_grid v Nz Nr TPBx TPBy).
Proof. unfold planned. reflexivity. Qed.

Lemma covering_active Nz Nr ts t :
  covering Nz Nr ts → active Nz Nr t = true → t ∈ ts.
Proof.
  intros [_ H] [Hz Hr]%active_lt. destruct t. by apply H.
Qed.

End Grid.

(* ===================================================================== *)
(** * The properties of the specification: the launch planner *)
(* ===================================================================== *)

Section Planner.

Local Open Scope Z_scope.

Lemma BPG_negative v x TPB :
  x < 0 → 0 < TPB → exact_range v x TPB →
  ∃ BPG, cuda_tpb_bpg_1d v x TPB = Py.Return (BPG, TPB) ∧ BPG ≤ 0.
Proof.
  intros Hx HT Hr. destruct v.
  - rewrite cuda_tpb_bpg_1d_py2 by lia. eexists. split; [done|].
    assert (x / TPB < 0) by (apply Z.div_lt_upper_bound; lia). lia.
  - rewrite cuda_tpb_bpg_1d_py3 by (done || lia). eexists. split; [done|].
    destruct (Z.le_gt_cases 0 (x + TPB)) as [Hge|Hlt].
    + rewrite Z.quot_small by lia. lia.
    + replace (x + TPB) with (- (- (x + TPB))) by lia.
      rewrite Z.quot_opp_l by lia.
      assert (0 ≤ - (x + TPB) ÷ TPB) by (apply Z.quot_pos; lia). lia.
Qed.

End Planner.




(** C5, as amended. For an extent [x ≤ 0] and a group size [TPB > 0],
    under Python 2, and under Python 3 when [|x| + 2 * TPB ≤ 2^52], the
    function returns a plan, no error; the plan has one block for the
    extent [0], and for a negative extent not one block but none, or a
    negative number of them. *)
Theorem plan_of_nonpositive_extent (v : Py.version) (x TPB : Z) :
  (x ≤ 0)%Z → (0 < TPB)%Z → exact_range v x TPB →
  ∃ BPG, cuda_tpb_bpg_1d v x TPB = Py.Return (BPG, TPB)
         ∧ (x = 0%Z → BPG = 1%Z)
         ∧ ((x < 0)%Z → (BPG ≤ 0)%Z).
Proof.
  intros Hx HT Hr. destruct (Z.eq_dec x 0%Z) as [->|Hne].
  - exists 1%Z. rewrite cuda_tpb_bpg_1d_nonneg by (done || lia).
    split_and!; [done|done|lia].
  - destruct (BPG_negative v x TPB) as (BPG & Heq & Hb); [lia|done|done|].
    exists BPG. split_and!; [done|lia|done].
Qed.

(** A negative extent and the extent [0], under Python 3. *)
Lemma plan_of_nonpositive_extent_witness :
  (∃ BPG, cuda_tpb_bpg_1d Py.Py3 (-300) TPB_default
          = Py.Return (BPG, TPB_default)
          ∧ ((-300)%Z = 0%Z → BPG = 1%Z)
          ∧ ((-300 < 0)%Z → (BPG ≤ 0)%Z))
  ∧ (∃ BPG, cuda_tpb_bpg_1d Py.Py3 0 TPB_default
            = Py.Return (BPG, TPB_default)
            ∧ (0%Z = 0%Z → BPG = 1%Z)
            ∧ ((0 < 0)%Z → (BPG ≤ 0)%Z)).
Proof.
  split.
  - apply (plan_of_nonpositive_extent Py.Py3 (-300) TPB_default);
      unfold TPB_default; try lia; vm_compute; discriminate.
  - apply (plan_of_nonpositive_extent Py.Py3 0 TPB_default);
      unfold TPB_default; try lia; vm_compute; discriminate.
Defined.

(** C5, as stated, fails: the extent [-1] is at most [0] and the group
    size [256] is positive, yet the plan has [0] blocks, not [1], in
    either language version. And there are error conditions: a group
    size [0] raises [ZeroDivisionError] in either version, and under
    Python 3 the extent [-10^400] with the group size [1] raises
    [OverflowError], the quotient being beyond the floats. *)
Lemma plan_of_negative_extent_counterexample :
  (-1 ≤ 0)%Z ∧ (0 < 256)%Z
  ∧ (∀ v, cuda_tpb_bpg_1d v (-1) 256 = Py.Return (0%Z, 256%Z)
          ∧ cuda_tpb_bpg_1d v (-1) 256 ≠ Py.Return (1%Z, 256%Z))
  ∧ (∀ v, cuda_tpb_bpg_1d v 0 0 = Py.Raise Py.ZeroDivisionError)
  ∧ cuda_tpb_bpg_1d Py.Py3 (- 10 ^ 400) 1 = Py.Raise Py.OverflowError.
Proof.
  split; [lia|]. split; [lia|]. split_and!.
  - intros []; split; [vm_compute; reflexivity|vm_compute; discriminate
                       |vm_compute; reflexivity|vm_compute; discriminate].
  - by intros [].
  - vm_compute. reflexivity.
Qed.




(* ===================================================================== *)
(** * The properties of the specification: frame *)
(* ===================================================================== *)

Section Guards.

Implicit Types (h : mem) (t : tid) (ts : list tid).

Lemma not_active Nz Nr iz ir :
  Nz ≤ iz ∨ Nr ≤ ir → active Nz Nr (iz, ir) = false.
Proof.
  intros H. apply not_true_is_false. intros [Hz Hr]%active_lt.
  cbn in *. lia.
Qed.

Lemma pointwise_outside g rd wr Nz Nr iz ir h :
  shape_of h g = Some [Nz; Nr] → Nz ≤ iz ∨ Nr ≤ ir →
  pointwise g rd wr (iz, ir) h = Some ((), h).
Proof.
  intros Hs Hout. unfold pointwise, kbind. cbn [fst snd].
  rewrite (guard_shape _ _ _ _ _ _ Hs), not_active by done. done.
Qed.


Lemma launch_pointwise k :
  ∃ rd wr,
    (∀ ts h h', exec (launch k ts) h = Some h' →
                run_threads (pointwise (guard_array k) rd wr) ts h
                = Some ((), h'))
    ∧ (∀ Nz Nr t vs a idx,
         active Nz Nr t = true → (a, idx) ∈ (wr Nz t vs).*1 →
         written k Nz Nr a idx).
Proof.
  destruct k as [a b|a b|a b|r t p m|p m r t]; cbn [launch guard_array].
  - exists (rd1 a (λ _, idx2)), (wr1 b (λ _, idx2)). split.
    + intros ts h h'. apply exec_cuda_jit_inv.
      apply cuda_copy_2d_to_2d_pointwise.
    + intros Nz Nr t vs a' idx [Hz Hr]%active_lt. unfold wr1, copy_writes.
      destruct vs as [|v [|??]]; cbn; try (by intros []%elem_of_nil).
      intros [[= -> ->]|[]%elem_of_nil]%elem_of_cons.
      exists t.1, t.2. done.
  - exists (rd1 a (λ _, idx2)), (wr1 b flat). split.
    + intros ts h h'. apply exec_cuda_jit_inv.
      apply cuda_copy_2d_to_1d_pointwise.
    + intros Nz Nr t vs a' idx [Hz Hr]%active_lt. unfold wr1, copy_writes.
      destruct vs as [|v [|??]]; cbn; try (by intros []%elem_of_nil).
      intros [[= -> ->]|[]%elem_of_nil]%elem_of_cons.
      exists t.1, t.2. done.
  - exists (rd1 a flat), (wr1 b (λ _, idx2)). split.
    + intros ts h h'. apply exec_cuda_jit_inv.
      apply cuda_copy_1d_to_2d_pointwise.
    + intros Nz Nr t vs a' idx [Hz Hr]%active_lt. unfold wr1, copy_writes.
      destruct vs as [|v [|??]]; cbn; try (by intros []%elem_of_nil).
      intros [[= -> ->]|[]%elem_of_nil]%elem_of_cons.
      exists t.1, t.2. done.
  - exists (rd2 r t), (wr2 rt_p rt_m p m). split.
    + intros ts h h'. apply exec_cuda_jit_inv.
      apply cuda_rt_to_pm_pointwise.
    + intros Nz Nr t' vs a' idx [Hz Hr]%active_lt.
      unfold wr2, combine_writes.
      destruct vs as [|v1 [|v2 [|??]]]; cbn;
        try (by intros []%elem_of_nil).
      intros [[= -> ->]|[[= -> ->]|[]%elem_of_nil]%elem_of_cons]
               %elem_of_cons; exists t'.1, t'.2; auto.
  - exists (rd2 p m), (wr2 pm_r pm_t r t). split.
    + intros ts h h'. apply exec_cuda_jit_inv.
      apply cuda_pm_to_rt_pointwise.
    + intros Nz Nr t' vs a' idx [Hz Hr]%active_lt.
      unfold wr2, combine_writes.
      destruct vs as [|v1 [|v2 [|??]]]; cbn;
        try (by intros []%elem_of_nil).
      intros [[= -> ->]|[[= -> ->]|[]%elem_of_nil]%elem_of_cons]
               %elem_of_cons; exists t'.1, t'.2; auto.
Qed.

Lemma launch_frame k ts h h' Nz Nr :
  shape_of h (guard_array k) = Some [Nz; Nr] →
  exec (launch k ts) h = Some h' →
  (∀ a, shape_of h' a = shape_of h a)
  ∧ (∀ a idx, ¬ written k Nz Nr a idx → peek h' a idx = peek h a idx).
Proof.
  intros Hs Hx. destruct (launch_pointwise k) as (rd & wr & Hrun & Hw).
  apply Hrun in Hx.
  destruct (run_pointwise_frame _ _ _ Nz Nr ts h h' Hs Hx) as [Hsh Hv].
  split; [done|]. intros a idx Hno. apply (Hv (a, idx)).
  intros t vs Hact Hin. apply Hno. by eapply Hw.
Qed.

End Guards.

(** C10. Whatever the schedule, a launch of any of the five kernels that
    does not fault keeps the shape of every array and the value of every
    cell other than the output cells at the indices inside the guarded
    extents. So the items of the flat output of [cuda_copy_2d_to_1d] at
    the indices [Nz * Nr] and above keep their values, and so do the
    items of an output grid at the indices at or beyond the guarded
    extents. *)
Theorem writes_stay_inside_the_guard
  (k : call) (ts : list tid) (h h' : mem) (Nz Nr : nat) :
  shape_of h (guard_array k) = Some [Nz; Nr] →
  exec (launch k ts) h = Some h' →
  (∀ a, shape_of h' a = shape_of h a)
  ∧ (∀ a idx, ¬ written k Nz Nr a idx → peek h' a idx = peek h a idx)
  ∧ (∀ a i, Nz * Nr ≤ i → peek h' a [i] = peek h a [i])
  ∧ (∀ a iz ir, Nz ≤ iz ∨ Nr ≤ ir →
                peek h' a [iz; ir] = peek h a [iz; ir]).
Proof.
  intros Hs Hx. destruct (launch_frame k ts h h' Nz Nr Hs Hx) as [Hsh Hv].
  split_and!; [done|done| |].
  - intros a i Hi. apply Hv. intros (iz & ir & Hz & Hr & Hw).
    destruct k; destruct Hw as [_ [= Hw]]. nia.
  - intros a iz ir Hout. apply Hv. intros (iz' & ir' & Hz & Hr & Hw).
    destruct k; destruct Hw as [_ [= Hw1 Hw2]] ||
                destruct Hw as [_ [= Hw1]]; lia.
Qed.

Lemma writes_stay_inside_the_guard_witness :
  match exec (launch (Copy2dTo1d 0 1) (planned_grid Py.Py2 3 2 8 8))
          example_longer with
  | Some h' =>
      (∀ a, shape_of h' a = shape_of example_longer a)
      ∧ (∀ a idx, ¬ written (Copy2dTo1d 0 1) 3 2 a idx →
                  peek h' a idx = peek example_longer a idx)
      ∧ (∀ a i, 3 * 2 ≤ i → peek h' a [i] = peek example_longer a [i])
      ∧ (∀ a iz ir, 3 ≤ iz ∨ 2 ≤ ir →
                    peek h' a [iz; ir] = peek example_longer a [iz; ir])
  | None => False
  end.
Proof.
  destruct (exec (launch (Copy2dTo1d 0 1) (planned_grid Py.Py2 3 2 8 8))
              example_longer) as [h'|] eqn:Hx.
  - apply (writes_stay_inside_the_guard (Copy2dTo1d 0 1)
             (planned_grid Py.Py2 3 2 8 8) example_longer h' 3 2);
      [reflexivity|exact Hx].
  - vm_compute in Hx. discriminate Hx.
Defined.

(* ===================================================================== *)
(** * The properties of the specification: layout conversion *)
(* ===================================================================== *)

(** Closed equations between computed values: decided by evaluation. *)
Ltac by_evaluation := apply (bool_decide_unpack _); vm_compute; exact I.

(** C8. For a grid of shape [Nz x Nr] and a flat buffer of [Nz * Nr]
    items, a launch of [cuda_copy_2d_to_1d] on any schedule covering the
    grid leaves [array_1d[iz + Nz*ir] = array_2d[iz, ir]] at every index
    of the grid. The grid [g[iz,ir] = iz + 10*ir] of shape 3 x 2 gives the
    flat array [0, 1, 2, 10, 11, 12], and [cuda_copy_1d_to_2d] gives the
    grid again from it. *)
Theorem copy_2d_to_1d_flattens
  (h0 : mem) (array_2d array_1d : handle) (Nz Nr : nat) (ts : list tid) :
  shape_of h0 array_2d = Some [Nz; Nr] →
  shape_of h0 array_1d = Some [Nz * Nr] →
  covering Nz Nr ts →
  (∃ h', exec (launch_copy_2d_to_1d ts array_2d array_1d) h0 = Some h'
     ∧ ∀ iz ir, iz < Nz → ir < Nr →
         is_Some (peek h0 array_2d [iz; ir])
         ∧ peek h' array_1d [iz + Nz * ir] = peek h0 array_2d [iz; ir])
  ∧ (h1 ← exec (launch_copy_2d_to_1d (planned_grid Py.Py2 3 2 8 8) 0 1)
             example_layout;
     to_list h1 1)
    = Some (Cint <$> [0; 1; 2; 10; 11; 12]%Z)
  ∧ (h1 ← exec (launch_copy_2d_to_1d (planned_grid Py.Py2 3 2 8 8) 0 1)
             example_layout;
     h2 ← exec (launch_copy_1d_to_2d (planned_grid Py.Py2 3 2 8 8) 1 2) h1;
     to_rows h2 2)
    = to_rows example_layout 0.
Proof.
  intros H2 H1 Hc. split_and!; [|by_evaluation..].
  destruct (launch_copy_2d_to_1d_spec h0 array_2d array_1d Nz Nr (Nz * Nr) ts)
    as (h' & Hx & _ & Hv & _); [done|done|done|apply Hc|].
  exists h'. split; [done|]. intros iz ir Hz Hr.
  assert (Hact : active Nz Nr (iz, ir) = true) by (by apply active_lt).
  split.
  - apply (covers_peek _ _ Nz Nr (iz, ir)); auto using shape_covers.
  - apply (Hv (iz, ir)); [|done]. by eapply covering_active.
Qed.

Lemma copy_2d_to_1d_flattens_witness :
  (∃ h', exec (launch_copy_2d_to_1d (planned_grid Py.Py3 3 2 8 8) 0 1)
           example_layout = Some h'
     ∧ ∀ iz ir, iz < 3 → ir < 2 →
         is_Some (peek example_layout 0 [iz; ir])
         ∧ peek h' 1 [iz + 3 * ir] = peek example_layout 0 [iz; ir])
  ∧ (h1 ← exec (launch_copy_2d_to_1d (planned_grid Py.Py2 3 2 8 8) 0 1)
             example_layout;
     to_list h1 1)
    = Some (Cint <$> [0; 1; 2; 10; 11; 12]%Z)
  ∧ (h1 ← exec (launch_copy_2d_to_1d (planned_grid Py.Py2 3 2 8 8) 0 1)
             example_layout;
     h2 ← exec (launch_copy_1d_to_2d (planned_grid Py.Py2 3 2 8 8) 1 2) h1;
     to_rows h2 2)
    = to_rows example_layout 0.
Proof.
  apply (copy_2d_to_1d_flattens example_layout 0 1 3 2
           (planned_grid Py.Py3 3 2 8 8)); [reflexivity|reflexivity|].
  apply (planned_covering Py.Py3 3 2 8 8); [lia|lia|done|done|].
  apply planned_grid_planned.
Defined.

(** C3. For a grid [g] of shape [Nz x Nr] and a flat buffer of [Nz * Nr]
    items, [cuda_copy_2d_to_1d] and then [cuda_copy_1d_to_2d], each
    launched on any schedule covering the grid, give back every item of
    [g], in a grid of the same shape (which may be [g] itself). The flat
    index [iz + Nz*ir] is one-to-one from the indices of the grid onto
    the indices below [Nz * Nr]. *)
Theorem layout_round_trip
  (h0 : mem) (g flat_buffer g' : handle) (Nz Nr : nat) (ts1 ts2 : list tid) :
  shape_of h0 g = Some [Nz; Nr] →
  shape_of h0 flat_buffer = Some [Nz * Nr] →
  shape_of h0 g' = Some [Nz; Nr] →
  covering Nz Nr ts1 → covering Nz Nr ts2 →
  (∃ h1 h2,
     exec (launch_copy_2d_to_1d ts1 g flat_buffer) h0 = Some h1
     ∧ exec (launch_copy_1d_to_2d ts2 flat_buffer g') h1 = Some h2
     ∧ ∀ iz ir, iz < Nz → ir < Nr →
         is_Some (peek h0 g [iz; ir])
         ∧ peek h2 g' [iz; ir] = peek h0 g [iz; ir])
  ∧ (∀ iz ir, iz < Nz → ir < Nr → iz + Nz * ir < Nz * Nr)
  ∧ (∀ iz ir iz' ir', iz < Nz → ir < Nr → iz' < Nz → ir' < Nr →
       iz + Nz * ir = iz' + Nz * ir' → iz = iz' ∧ ir = ir')
  ∧ (∀ i, i < Nz * Nr → ∃ iz ir, iz < Nz ∧ ir < Nr ∧ i = iz + Nz * ir).
Proof.
  intros Hg Hf Hg' Hc1 Hc2. split_and!.
  - destruct (launch_copy_2d_to_1d_spec h0 g flat_buffer Nz Nr (Nz * Nr) ts1)
      as (h1 & Hx1 & Hsh1 & Hv1 & _); [done|done|done|apply Hc1|].
    destruct (launch_copy_1d_to_2d_spec h1 flat_buffer g' Nz Nr (Nz * Nr) ts2)
      as (h2 & Hx2 & _ & Hv2 & _);
      [by rewrite Hsh1|by rewrite Hsh1|done|apply Hc2|].
    exists h1, h2. split_and!; [done|done|]. intros iz ir Hz Hr.
    assert (Hact : active Nz Nr (iz, ir) = true) by (by apply active_lt).
    split.
    + apply (covers_peek _ _ Nz Nr (iz, ir)); auto using shape_covers.
    + etrans; [apply (Hv2 (iz, ir))|apply (Hv1 (iz, ir))];
        by eauto using covering_active.
  - intros iz ir Hz Hr. apply (flat_lt Nz Nr (iz, ir)). by apply active_lt.
  - intros iz ir iz' ir' Hz Hr Hz' Hr' Heq.
    assert (H : (iz, ir) = (iz', ir')).
    { apply (flat_inj Nz Nr); [by apply active_lt..|].
      unfold flat. cbn. by rewrite Heq. }
    by injection H.
  - intros i Hi. destruct (flat_surj Nz Nr i Hi) as ([iz ir] & Hact & Heq).
    apply active_lt in Hact as [Hz Hr]. injection Heq as Heq.
    exists iz, ir. done.
Qed.

Lemma layout_round_trip_witness :
  (∃ h1 h2,
     exec (launch_copy_2d_to_1d (planned_grid Py.Py2 3 2 8 8) 0 1)
       example_layout = Some h1
     ∧ exec (launch_copy_1d_to_2d (planned_grid Py.Py2 3 2 4 4) 1 2) h1
       = Some h2
     ∧ ∀ iz ir, iz < 3 → ir < 2 →
         is_Some (peek example_layout 0 [iz; ir])
         ∧ peek h2 2 [iz; ir] = peek example_layout 0 [iz; ir])
  ∧ (∀ iz ir, iz < 3 → ir < 2 → iz + 3 * ir < 3 * 2)
  ∧ (∀ iz ir iz' ir', iz < 3 → ir < 2 → iz' < 3 → ir' < 2 →
       iz + 3 * ir = iz' + 3 * ir' → iz = iz' ∧ ir = ir')
  ∧ (∀ i, i < 3 * 2 → ∃ iz ir, iz < 3 ∧ ir < 2 ∧ i = iz + 3 * ir).
Proof.
  apply (layout_round_trip example_layout 0 1 2 3 2
           (planned_grid Py.Py2 3 2 8 8) (planned_grid Py.Py2 3 2 4 4));
    [reflexivity|reflexivity|reflexivity| |].
  - apply (planned_covering Py.Py2 3 2 8 8); [lia|lia|done|done|].
    apply planned_grid_planned.
  - apply (planned_covering Py.Py2 3 2 4 4); [lia|lia|done|done|].
    apply planned_grid_planned.
Defined.

(* ===================================================================== *)
(** * The properties of the specification: basis transform *)
(* ===================================================================== *)

Section TwoLaunches.

Implicit Types (h : mem) (t : tid) (ts : list tid).

Lemma peek_grid h a Nz Nr iz ir :
  shape_of h a = Some [Nz; Nr] → iz < Nz → ir < Nr →
  ∃ v, peek h a [iz; ir] = Some v.
Proof.
  intros Hs Hz Hr.
  apply (covers_peek h a Nz Nr (iz, ir)); [by apply shape_covers|].
  by apply active_lt.
Qed.

(** The two launches one after the other, on any arrays: what the
    second leaves is the second combination of the first combination
    of the initial values. *)
Lemma rt_to_pm_combines_launch Nz Nr :
  combines rt_p rt_m launch_rt_to_pm Nz Nr.
Proof. intros h0 r t p m ts. apply launch_rt_to_pm_spec. Qed.

Lemma pm_to_rt_combines_launch Nz Nr :
  combines pm_r pm_t launch_pm_to_rt Nz Nr.
Proof. intros h0 p m r t ts. apply launch_pm_to_rt_spec. Qed.

Lemma combine_twice (f1 f2 g1 g2 : C → C → C)
    (launch1 launch2 : list tid → handle → handle → handle → handle →
                       kernel unit)
    h0 a b c d e f Nz Nr ts1 ts2 :
  combines f1 f2 launch1 Nz Nr →
  combines g1 g2 launch2 Nz Nr →
  shape_of h0 a = Some [Nz; Nr] → shape_of h0 b = Some [Nz; Nr] →
  shape_of h0 c = Some [Nz; Nr] → shape_of h0 d = Some [Nz; Nr] →
  shape_of h0 e = Some [Nz; Nr] → shape_of h0 f = Some [Nz; Nr] →
  c ≠ d → e ≠ f →
  covering Nz Nr ts1 → covering Nz Nr ts2 →
  ∃ h1 h2,
    exec (launch1 ts1 a b c d) h0 = Some h1
    ∧ exec (launch2 ts2 c d e f) h1 = Some h2
    ∧ ∀ iz ir, iz < Nz → ir < Nr →
        ∃ va vb,
          peek h0 a [iz; ir] = Some va ∧ peek h0 b [iz; ir] = Some vb
          ∧ peek h2 e [iz; ir] = Some (g1 (f1 va vb) (f2 va vb))
          ∧ peek h2 f [iz; ir] = Some (g2 (f1 va vb) (f2 va vb)).
Proof.
  intros L1 L2 Ha Hb Hc Hd He Hf Hcd Hef Hc1 Hc2.
  destruct (L1 h0 a b c d ts1) as (h1 & Hx1 & Hsh1 & Hv1 & _);
    auto using shape_covers; [apply Hc1|].
  destruct (L2 h1 c d e f ts2) as (h2 & Hx2 & _ & Hv2 & _);
    try (apply shape_covers); rewrite ?Hsh1; try done; [apply Hc2|].
  exists h1, h2. split_and!; [done|done|]. intros iz ir Hz Hr.
  assert (Hact : active Nz Nr (iz, ir) = true) by (by apply active_lt).
  destruct (peek_grid h0 a Nz Nr iz ir) as [va Hva]; [done..|].
  destruct (peek_grid h0 b Nz Nr iz ir) as [vb Hvb]; [done..|].
  exists va, vb. split_and!; [done|done| |].
  - destruct (Hv1 (iz, ir) va vb) as [H1 H2];
      [by eapply covering_active|done..|].
    by destruct (Hv2 (iz, ir) (f1 va vb) (f2 va vb)) as [H3 H4];
      [by eapply covering_active|done..|].
  - destruct (Hv1 (iz, ir) va vb) as [H1 H2];
      [by eapply covering_active|done..|].
    by destruct (Hv2 (iz, ir) (f1 va vb) (f2 va vb)) as [H3 H4];
      [by eapply covering_active|done..|].
Qed.

End TwoLaunches.

(** C9. For grids [r], [t] of one shape and two output grids [p], [m] of
    that shape, a launch of [cuda_rt_to_pm] on any schedule covering the
    grid leaves [p = 0.5*(r - i*t)] and [m = 0.5*(r + i*t)] at every
    index, computed from the initial [r] and [t]. For [r = [[1,2],[3,4]]]
    and [t] all zero, [p] and [m] are [[0.5,1],[1.5,2]], and
    [cuda_pm_to_rt] on them gives [r] again and [t] all zero. *)
Theorem rt_to_pm_combines
  (h0 : mem) (buffer_r buffer_t buffer_p buffer_m : handle) (Nz Nr : nat)
  (ts : list tid) :
  shape_of h0 buffer_r = Some [Nz; Nr] →
  shape_of h0 buffer_t = Some [Nz; Nr] →
  shape_of h0 buffer_p = Some [Nz; Nr] →
  shape_of h0 buffer_m = Some [Nz; Nr] →
  buffer_p ≠ buffer_m →
  covering Nz Nr ts →
  (∃ h', exec (launch_rt_to_pm ts buffer_r buffer_t buffer_p buffer_m) h0
         = Some h'
     ∧ ∀ iz ir, iz < Nz → ir < Nr →
         ∃ value_r value_t,
           peek h0 buffer_r [iz; ir] = Some value_r
           ∧ peek h0 buffer_t [iz; ir] = Some value_t
           ∧ peek h' buffer_p [iz; ir]
             = Some (Cmul (Cfloat half) (Csub value_r (Cmul Cj value_t)))
           ∧ peek h' buffer_m [iz; ir]
             = Some (Cmul (Cfloat half) (Cadd value_r (Cmul Cj value_t))))
  ∧ (h1 ← exec (launch_rt_to_pm (planned_grid Py.Py2 2 2 8 8) 0 1 2 3)
             example_basis;
     p ← to_rows h1 2; m ← to_rows h1 3; Some (p, m))
    = Some ([[Cdec 1 2; Cint 1]; [Cdec 3 2; Cint 2]],
            [[Cdec 1 2; Cint 1]; [Cdec 3 2; Cint 2]])
  ∧ (h1 ← exec (launch_rt_to_pm (planned_grid Py.Py2 2 2 8 8) 0 1 2 3)
             example_basis;
     h2 ← exec (launch_pm_to_rt (planned_grid Py.Py2 2 2 8 8) 2 3 4 5) h1;
     r ← to_rows h2 4; t ← to_rows h2 5; Some (r, t))
    = Some ([[Cint 1; Cint 2]; [Cint 3; Cint 4]],
            [[Cint 0; Cint 0]; [Cint 0; Cint 0]]).
Proof.
  intros Hr Ht Hp Hm Hne Hc. split_and!; [|by_evaluation..].
  destruct (launch_rt_to_pm_spec h0 buffer_r buffer_t buffer_p buffer_m
              Nz Nr ts) as (h' & Hx & _ & Hv & _);
    auto using shape_covers; [apply Hc|].
  exists h'. split; [done|]. intros iz ir Hz Hr'.
  assert (Hact : active Nz Nr (iz, ir) = true) by (by apply active_lt).
  destruct (peek_grid h0 buffer_r Nz Nr iz ir) as [vr Hvr]; [done..|].
  destruct (peek_grid h0 buffer_t Nz Nr iz ir) as [vt Hvt]; [done..|].
  exists vr, vt. split; [done|]. split; [done|].
  apply (Hv (iz, ir) vr vt); [by eapply covering_active|done..].
Qed.

Lemma rt_to_pm_combines_witness :
  (∃ h', exec (launch_rt_to_pm (planned_grid Py.Py2 2 2 8 8) 0 1 2 3)
           example_basis = Some h'
     ∧ ∀ iz ir, iz < 2 → ir < 2 →
         ∃ value_r value_t,
           peek example_basis 0 [iz; ir] = Some value_r
           ∧ peek example_basis 1 [iz; ir] = Some value_t
           ∧ peek h' 2 [iz; ir]
             = Some (Cmul (Cfloat half) (Csub value_r (Cmul Cj value_t)))
           ∧ peek h' 3 [iz; ir]
             = Some (Cmul (Cfloat half) (Cadd value_r (Cmul Cj value_t))))
  ∧ (h1 ← exec (launch_rt_to_pm (planned_grid Py.Py2 2 2 8 8) 0 1 2 3)
             example_basis;
     p ← to_rows h1 2; m ← to_rows h1 3; Some (p, m))
    = Some ([[Cdec 1 2; Cint 1]; [Cdec 3 2; Cint 2]],
            [[Cdec 1 2; Cint 1]; [Cdec 3 2; Cint 2]])
  ∧ (h1 ← exec (launch_rt_to_pm (planned_grid Py.Py2 2 2 8 8) 0 1 2 3)
             example_basis;
     h2 ← exec (launch_pm_to_rt (planned_grid Py.Py2 2 2 8 8) 2 3 4 5) h1;
     r ← to_rows h2 4; t ← to_rows h2 5; Some (r, t))
    = Some ([[Cint 1; Cint 2]; [Cint 3; Cint 4]],
            [[Cint 0; Cint 0]; [Cint 0; Cint 0]]).
Proof.
  apply (rt_to_pm_combines example_basis 0 1 2 3 2 2
           (planned_grid Py.Py2 2 2 8 8));
    [reflexivity|reflexivity|reflexivity|reflexivity|lia|].
  apply (planned_covering Py.Py2 2 2 8 8); [lia|lia|done|done|].
  apply planned_grid_planned.
Defined.

Section Aliasing.

Implicit Types (h : mem) (t : tid) (ts : list tid).

(** A launch on arrays that may be the same, and a launch on four
    arrays that are not, from the same input values: the same output
    values. *)
Lemma combine_same_result (f1 f2 : C → C → C)
    (launch_k : list tid → handle → handle → handle → handle →
                kernel unit)
    h hd in1 in2 out1 out2 in1' in2' out1' out2' Nz Nr ts ts' :
  combines f1 f2 launch_k Nz Nr →
  shape_of h in1 = Some [Nz; Nr] → shape_of h in2 = Some [Nz; Nr] →
  shape_of h out1 = Some [Nz; Nr] → shape_of h out2 = Some [Nz; Nr] →
  shape_of hd in1' = Some [Nz; Nr] → shape_of hd in2' = Some [Nz; Nr] →
  shape_of hd out1' = Some [Nz; Nr] → shape_of hd out2' = Some [Nz; Nr] →
  out1 ≠ out2 → out1' ≠ out2' →
  (∀ iz ir, iz < Nz → ir < Nr →
     peek h in1 [iz; ir] = peek hd in1' [iz; ir]
     ∧ peek h in2 [iz; ir] = peek hd in2' [iz; ir]) →
  covering Nz Nr ts → covering Nz Nr ts' →
  ∃ h1 hd1,
    exec (launch_k ts in1 in2 out1 out2) h = Some h1
    ∧ exec (launch_k ts' in1' in2' out1' out2') hd = Some hd1
    ∧ ∀ iz ir, iz < Nz → ir < Nr →
        is_Some (peek hd1 out1' [iz; ir])
        ∧ is_Some (peek hd1 out2' [iz; ir])
        ∧ peek h1 out1 [iz; ir] = peek hd1 out1' [iz; ir]
        ∧ peek h1 out2 [iz; ir] = peek hd1 out2' [iz; ir].
Proof.
  intros L H1 H2 H3 H4 H1' H2' H3' H4' Hne Hne' Hsame Hc Hc'.
  destruct (L h in1 in2 out1 out2 ts) as (h1 & Hx & _ & Hv & _);
    auto using shape_covers; [apply Hc|].
  destruct (L hd in1' in2' out1' out2' ts') as (hd1 & Hx' & _ & Hv' & _);
    auto using shape_covers; [apply Hc'|].
  exists h1, hd1. split_and!; [done|done|]. intros iz ir Hz Hr.
  assert (Hact : active Nz Nr (iz, ir) = true) by (by apply active_lt).
  destruct (peek_grid h in1 Nz Nr iz ir) as [v1 Hv1]; [done..|].
  destruct (peek_grid h in2 Nz Nr iz ir) as [v2 Hv2]; [done..|].
  destruct (Hsame iz ir Hz Hr) as [Hs1 Hs2].
  destruct (Hv (iz, ir) v1 v2) as [Ho1 Ho2];
    [by eapply covering_active|done..|].
  destruct (Hv' (iz, ir) v1 v2) as [Ho1' Ho2'];
    [by eapply covering_active|done
    |unfold idx2; cbn [fst snd]; congruence
    |unfold idx2; cbn [fst snd]; congruence|].
  unfold idx2 in Ho1, Ho2, Ho1', Ho2'.
  cbn [fst snd] in Ho1, Ho2, Ho1', Ho2'. rewrite Ho1, Ho2, Ho1', Ho2'.
  split_and!; eauto.
Qed.

End Aliasing.

(** C1. For grids of one shape, [cuda_rt_to_pm] from [(a, b)] into
    [(c, d)] and then [cuda_pm_to_rt] from [(c, d)] into [(e, f)], each
    on any schedule covering the grid, leave in [(e, f)] the initial
    items of [(a, b)]; and so do [cuda_pm_to_rt] and then
    [cuda_rt_to_pm]. The six arrays may be the same in any way, except
    that the two outputs of a launch are two arrays; the arithmetic is
    exact. *)
Theorem basis_round_trip
  (h0 : mem) (a b c d e f : handle) (Nz Nr : nat) (ts1 ts2 : list tid) :
  shape_of h0 a = Some [Nz; Nr] → shape_of h0 b = Some [Nz; Nr] →
  shape_of h0 c = Some [Nz; Nr] → shape_of h0 d = Some [Nz; Nr] →
  shape_of h0 e = Some [Nz; Nr] → shape_of h0 f = Some [Nz; Nr] →
  c ≠ d → e ≠ f →
  covering Nz Nr ts1 → covering Nz Nr ts2 →
  (∃ h1 h2,
     exec (launch_rt_to_pm ts1 a b c d) h0 = Some h1
     ∧ exec (launch_pm_to_rt ts2 c d e f) h1 = Some h2
     ∧ ∀ iz ir, iz < Nz → ir < Nr →
         is_Some (peek h0 a [iz; ir]) ∧ is_Some (peek h0 b [iz; ir])
         ∧ peek h2 e [iz; ir] = peek h0 a [iz; ir]
         ∧ peek h2 f [iz; ir] = peek h0 b [iz; ir])
  ∧ (∃ h1 h2,
       exec (launch_pm_to_rt ts1 a b c d) h0 = Some h1
       ∧ exec (launch_rt_to_pm ts2 c d e f) h1 = Some h2
       ∧ ∀ iz ir, iz < Nz → ir < Nr →
           is_Some (peek h0 a [iz; ir]) ∧ is_Some (peek h0 b [iz; ir])
           ∧ peek h2 e [iz; ir] = peek h0 a [iz; ir]
           ∧ peek h2 f [iz; ir] = peek h0 b [iz; ir]).
Proof.
  intros Ha Hb Hc Hd He Hf Hcd Hef Hc1 Hc2. split.
  - destruct (combine_twice rt_p rt_m pm_r pm_t launch_rt_to_pm
                launch_pm_to_rt h0 a b c d e f Nz Nr ts1 ts2)
      as (h1 & h2 & Hx1 & Hx2 & Hv);
      auto using rt_to_pm_combines_launch, pm_to_rt_combines_launch.
    exists h1, h2. split_and!; [done|done|]. intros iz ir Hz Hr.
    destruct (Hv iz ir Hz Hr) as (va & vb & -> & -> & -> & ->).
    rewrite pm_r_rt, pm_t_rt. eauto.
  - destruct (combine_twice pm_r pm_t rt_p rt_m launch_pm_to_rt
                launch_rt_to_pm h0 a b c d e f Nz Nr ts1 ts2)
      as (h1 & h2 & Hx1 & Hx2 & Hv);
      auto using rt_to_pm_combines_launch, pm_to_rt_combines_launch.
    exists h1, h2. split_and!; [done|done|]. intros iz ir Hz Hr.
    destruct (Hv iz ir Hz Hr) as (va & vb & -> & -> & -> & ->).
    rewrite rt_p_pm, rt_m_pm. eauto.
Qed.

(** The round trip in place: [p] is the storage of [r] and [m] that of
    [t], and the way back writes [r] and [t] again. *)
Lemma basis_round_trip_witness :
  (∃ h1 h2,
     exec (launch_rt_to_pm (planned_grid Py.Py2 2 2 8 8) 0 1 0 1)
       example_basis = Some h1
     ∧ exec (launch_pm_to_rt (planned_grid Py.Py2 2 2 8 8) 0 1 0 1) h1
       = Some h2
     ∧ ∀ iz ir, iz < 2 → ir < 2 →
         is_Some (peek example_basis 0 [iz; ir])
         ∧ is_Some (peek example_basis 1 [iz; ir])
         ∧ peek h2 0 [iz; ir] = peek example_basis 0 [iz; ir]
         ∧ peek h2 1 [iz; ir] = peek example_basis 1 [iz; ir])
  ∧ (∃ h1 h2,
       exec (launch_pm_to_rt (planned_grid Py.Py2 2 2 8 8) 0 1 0 1)
         example_basis = Some h1
       ∧ exec (launch_rt_to_pm (planned_grid Py.Py2 2 2 8 8) 0 1 0 1) h1
         = Some h2
       ∧ ∀ iz ir, iz < 2 → ir < 2 →
           is_Some (peek example_basis 0 [iz; ir])
           ∧ is_Some (peek example_basis 1 [iz; ir])
           ∧ peek h2 0 [iz; ir] = peek example_basis 0 [iz; ir]
           ∧ peek h2 1 [iz; ir] = peek example_basis 1 [iz; ir]).
Proof.
  apply (basis_round_trip example_basis 0 1 0 1 0 1 2 2
           (planned_grid Py.Py2 2 2 8 8) (planned_grid Py.Py2 2 2 8 8));
    try reflexivity; try lia;
    (apply (planned_covering Py.Py2 2 2 8 8); [lia|lia|done|done|];
     apply planned_grid_planned).
Defined.

(** C2. A launch of [cuda_rt_to_pm] whose outputs are the storage of its
    inputs, in any combination of the two outputs with the two inputs
    ([p] on [r] and [m] on [t], or crossed, or one of them only), leaves
    in its outputs, at every index, the values that a launch on four
    distinct arrays leaves from the same inputs; and so does
    [cuda_pm_to_rt]. *)
Theorem aliased_outputs_same_result
  (h hd : mem) (in1 in2 out1 out2 in1' in2' out1' out2' : handle)
  (Nz Nr : nat) (ts ts' : list tid) :
  shape_of h in1 = Some [Nz; Nr] → shape_of h in2 = Some [Nz; Nr] →
  shape_of h out1 = Some [Nz; Nr] → shape_of h out2 = Some [Nz; Nr] →
  shape_of hd in1' = Some [Nz; Nr] → shape_of hd in2' = Some [Nz; Nr] →
  shape_of hd out1' = Some [Nz; Nr] → shape_of hd out2' = Some [Nz; Nr] →
  out1 ≠ out2 →
  NoDup [in1'; in2'; out1'; out2'] →
  (∀ iz ir, iz < Nz → ir < Nr →
     peek h in1 [iz; ir] = peek hd in1' [iz; ir]
     ∧ peek h in2 [iz; ir] = peek hd in2' [iz; ir]) →
  covering Nz Nr ts → covering Nz Nr ts' →
  (∃ h1 hd1,
     exec (launch_rt_to_pm ts in1 in2 out1 out2) h = Some h1
     ∧ exec (launch_rt_to_pm ts' in1' in2' out1' out2') hd = Some hd1
     ∧ ∀ iz ir, iz < Nz → ir < Nr →
         is_Some (peek hd1 out1' [iz; ir])
         ∧ is_Some (peek hd1 out2' [iz; ir])
         ∧ peek h1 out1 [iz; ir] = peek hd1 out1' [iz; ir]
         ∧ peek h1 out2 [iz; ir] = peek hd1 out2' [iz; ir])
  ∧ (∃ h1 hd1,
       exec (launch_pm_to_rt ts in1 in2 out1 out2) h = Some h1
       ∧ exec (launch_pm_to_rt ts' in1' in2' out1' out2') hd = Some hd1
       ∧ ∀ iz ir, iz < Nz → ir < Nr →
           is_Some (peek hd1 out1' [iz; ir])
           ∧ is_Some (peek hd1 out2' [iz; ir])
           ∧ peek h1 out1 [iz; ir] = peek hd1 out1' [iz; ir]
           ∧ peek h1 out2 [iz; ir] = peek hd1 out2' [iz; ir]).
Proof.
  intros H1 H2 H3 H4 H1' H2' H3' H4' Hne Hnd Hsame Hc Hc'.
  assert (Hne' : out1' ≠ out2').
  { intros ->. apply NoDup_cons in Hnd as [_ Hnd].
    apply NoDup_cons in Hnd as [_ Hnd].
    apply NoDup_cons in Hnd as [Hnd _]. apply Hnd. left. }
  split.
  - apply (combine_same_result rt_p rt_m launch_rt_to_pm);
      auto using rt_to_pm_combines_launch.
  - apply (combine_same_result pm_r pm_t launch_pm_to_rt);
      auto using pm_to_rt_combines_launch.
Qed.

(** In place ([p] on [r], [m] on [t]) against the four arrays 0, 1, 2
    and 3 of the example. *)
Lemma aliased_outputs_same_result_witness :
  (∃ h1 hd1,
     exec (launch_rt_to_pm (planned_grid Py.Py2 2 2 8 8) 0 1 0 1)
       example_basis = Some h1
     ∧ exec (launch_rt_to_pm (planned_grid Py.Py2 2 2 8 8) 0 1 2 3)
         example_basis = Some hd1
     ∧ ∀ iz ir, iz < 2 → ir < 2 →
         is_Some (peek hd1 2 [iz; ir])
         ∧ is_Some (peek hd1 3 [iz; ir])
         ∧ peek h1 0 [iz; ir] = peek hd1 2 [iz; ir]
         ∧ peek h1 1 [iz; ir] = peek hd1 3 [iz; ir])
  ∧ (∃ h1 hd1,
       exec (launch_pm_to_rt (planned_grid Py.Py2 2 2 8 8) 0 1 0 1)
         example_basis = Some h1
       ∧ exec (launch_pm_to_rt (planned_grid Py.Py2 2 2 8 8) 0 1 2 3)
           example_basis = Some hd1
       ∧ ∀ iz ir, iz < 2 → ir < 2 →
           is_Some (peek hd1 2 [iz; ir])
           ∧ is_Some (peek hd1 3 [iz; ir])
           ∧ peek h1 0 [iz; ir] = peek hd1 2 [iz; ir]
           ∧ peek h1 1 [iz; ir] = peek hd1 3 [iz; ir]).
Proof.
  apply (aliased_outputs_same_result example_basis example_basis
           0 1 0 1 0 1 2 3 2 2
           (planned_grid Py.Py2 2 2 8 8) (planned_grid Py.Py2 2 2 8 8));
    try reflexivity; try lia.
  - apply (bool_decide_unpack _). vm_compute. exact I.
  - intros iz ir _ _. split; reflexivity.
  - apply (planned_covering Py.Py2 2 2 8 8); [lia|lia|done|done|].
    apply planned_grid_planned.
  - apply (planned_covering Py.Py2 2 2 8 8); [lia|lia|done|done|].
    apply planned_grid_planned.
Defined.

(* ===================================================================== *)
(** * Interleaving the accesses of the threads *)
(* ===================================================================== *)

Section Accesses.

Implicit Types (h g : mem) (p : prog unit) (l : loc).

Lemma kshape_at_inv a k h n h' :
  kshape_at a k h = Some (n, h') →
  h' = h ∧ shape_of h a ≫= (.!! k) = Some n.
Proof.
  rewrite shape_at_shape. destruct (shape_of h a) as [dims|]; cbn; [|done].
  destruct (dims !! k); cbn; [|done]. by intros [= <- <-].
Qed.

Lemma kload_inv a idx h v h' :
  kload a idx h = Some (v, h') → h' = h ∧ view h (a, idx) = Some v.
Proof.
  rewrite load_peek. unfold view. cbn.
  destruct (peek h a idx); cbn; [|done]. by intros [= <- <-].
Qed.

(** An access is the first thing the run of a body does. *)
Lemma access_run p h p' h' : access p h p' h' → run p h = run p' h'.
Proof.
  intros Ha.
  destruct Ha as [a k cont h n h' H|a idx cont h v h' H|a idx v cont h h' H];
    cbn; unfold kbind; by rewrite H.
Qed.

Lemma access_shape_of p h p' h' :
  access p h p' h' → ∀ b, shape_of h' b = shape_of h b.
Proof.
  intros Ha.
  destruct Ha as [a k cont h n h' H|a idx cont h v h' H|a idx v cont h h' H].
  - by apply kshape_at_inv in H as [-> _].
  - by apply kload_inv in H as [-> _].
  - by apply store_inv in H as (_ & H & _).
Qed.

Lemma access_within sh F p h p' h' :
  (∀ a, shape_of h a = sh a) →
  within sh F p → access p h p' h' →
  within sh F p' ∧ ∀ l, ¬ F l → view h' l = view h l.
Proof.
  intros Hsh Hw Ha.
  destruct Ha as [a k cont h n h' H|a idx cont h v h' H|a idx v cont h h' H];
    inversion Hw as [|? ? ? Hc|? ? ? HF Hc|? ? ? ? HF Hc]; subst.
  - apply kshape_at_inv in H as [-> Hn]. split; [|done].
    apply Hc. by rewrite <- Hsh.
  - apply kload_inv in H as [-> Hv]. split; [|done]. apply Hc.
  - apply store_inv in H as (_ & _ & Hv). split; [done|].
    intros l Hl. rewrite Hv. rewrite decide_False; [done|].
    by intros ->.
Qed.

Lemma run_progress p h :
  is_Some (run p h) → p = Ret () ∨ ∃ p' h', access p h p' h'.
Proof.
  destruct p as [[]|a k cont|a idx cont|a idx v cont]; cbn; unfold kbind;
    intros Hrun; [by left|right..].
  - destruct (kshape_at a k h) as [[n h']|] eqn:H; [|by destruct Hrun].
    eexists _, _. by constructor.
  - destruct (kload a idx h) as [[v h']|] eqn:H; [|by destruct Hrun].
    eexists _, _. by constructor.
  - destruct (kstore a idx v h) as [[[] h']|] eqn:H; [|by destruct Hrun].
    eexists _, _. by constructor.
Qed.

(** The run of a body is its accesses, one after the other. *)
Lemma run_accesses p h g :
  run p h = Some ((), g) →
  rtc (λ x y, access x.1 x.2 y.1 y.2) (p, h) (Ret (), g).
Proof.
  revert h. induction p as [[]|a k cont IH|a idx cont IH|a idx v cont IH];
    intros h; cbn; unfold kbind.
  - intros [= <-]. done.
  - destruct (kshape_at a k h) as [[n h']|] eqn:H; [|done]. intros Hr.
    eapply rtc_l; [|by apply IH]. by constructor.
  - destruct (kload a idx h) as [[v h']|] eqn:H; [|done]. intros Hr.
    eapply rtc_l; [|by apply IH]. by constructor.
  - destruct (kstore a idx v h) as [[[] h']|] eqn:H; [|done]. intros Hr.
    eapply rtc_l; [|by apply IH]. by constructor.
Qed.

(** The run of a body depends on its cells and on the shapes only, and
    changes its cells only. *)
Lemma run_local sh F p :
  within sh F p → ∀ h1 h2,
  (∀ a, shape_of h1 a = sh a) → (∀ a, shape_of h2 a = sh a) →
  (∀ l, F l → view h1 l = view h2 l) →
  match run p h1, run p h2 with
  | Some (_, g1), Some (_, g2) => ∀ l, F l → view g1 l = view g2 l
  | None, None => True
  | _, _ => False
  end.
Proof.
  induction 1 as [|a k cont Hc IH|a idx cont HF Hc IH|a idx v cont HF Hc IH];
    intros h1 h2 Hs1 Hs2 Hv; cbn; unfold kbind.
  - done.
  - rewrite !shape_at_shape, Hs1, Hs2.
    destruct (sh a ≫= (.!! k)) as [n|] eqn:Hn.
    + destruct (sh a) as [dims|]; cbn in *; [|done]. rewrite Hn. cbn.
      apply IH; [|done..]. done.
    + destruct (sh a) as [dims|]; cbn in *; [|done]. by rewrite Hn.
  - rewrite !load_peek. pose proof (Hv _ HF) as Ha. unfold view in Ha.
    cbn in Ha. rewrite Ha. destruct (peek h2 a idx); cbn; [|done].
    by apply IH.
  - pose proof (Hv _ HF) as Ha. unfold view in Ha. cbn in Ha.
    destruct (kstore a idx v h1) as [[[] g1]|] eqn:H1;
      destruct (kstore a idx v h2) as [[[] g2]|] eqn:H2.
    + apply store_inv in H1 as (_ & Hg1 & Hv1).
      apply store_inv in H2 as (_ & Hg2 & Hv2).
      apply IH.
      * intros b. by rewrite Hg1.
      * intros b. by rewrite Hg2.
      * intros l Hl. rewrite Hv1, Hv2. case_decide; [done|by apply Hv].
    + apply store_inv in H1 as (Hsome & _).
      rewrite Ha in Hsome. apply (store_is_Some _ _ _ v) in Hsome as [? ?].
      congruence.
    + apply store_inv in H2 as (Hsome & _).
      rewrite <- Ha in Hsome.
      apply (store_is_Some _ _ _ v) in Hsome as [? ?]. congruence.
    + done.
Qed.

Lemma run_frame sh F p :
  within sh F p → ∀ h g,
  (∀ a, shape_of h a = sh a) →
  run p h = Some ((), g) →
  (∀ a, shape_of g a = sh a) ∧ ∀ l, ¬ F l → view g l = view h l.
Proof.
  induction 1 as [|a k cont Hc IH|a idx cont HF Hc IH|a idx v cont HF Hc IH];
    intros h g Hs; cbn; unfold kbind.
  - by intros [= <-].
  - destruct (kshape_at a k h) as [[n h']|] eqn:H; [|done].
    apply kshape_at_inv in H as [-> Hn]. apply IH; [|done].
    by rewrite <- Hs.
  - destruct (kload a idx h) as [[v h']|] eqn:H; [|done].
    apply kload_inv in H as [-> Hv]. by apply IH.
  - destruct (kstore a idx v h) as [[[] h']|] eqn:H; [|done].
    apply store_inv in H as (_ & Hs' & Hv'). intros Hr.
    destruct (IH h' g) as [Hsg Hvg]; [by intros b; rewrite Hs'|done|].
    split; [done|]. intros l Hl. rewrite Hvg, Hv' by done.
    rewrite decide_False; [done|]. by intros ->.
Qed.

Lemma within_mono sh (F G : loc → Prop) p :
  (∀ l, F l → G l) → within sh F p → within sh G p.
Proof.
  intros HFG. induction 1; constructor; auto.
Qed.

End Accesses.

Section Pool.

Implicit Types (h g : mem) (p : prog unit) (l : loc) (t : tid)
  (ps : list (prog unit)).

(** The cells of two threads are not the same cells. *)
Lemma foot_disjoint Nz Nr t t' l :
  foot Nz Nr t l → foot Nz Nr t' l → t = t'.
Proof.
  intros [Hact [H|H]] [Hact' [H'|H']]; rewrite H in H'.
  - by apply idx2_inj.
  - discriminate H'.
  - discriminate H'.
  - by apply (flat_inj Nz Nr).
Qed.

Lemma foot_dec Nz Nr t l : Decision (foot Nz Nr t l).
Proof. unfold foot. apply _. Qed.

(** The accesses of one thread, as steps of the launch. *)
Lemma step_thread_accesses i x y :
  rtc (λ x y, access x.1 x.2 y.1 y.2) x y →
  ∀ ps, ps !! i = Some x.1 →
  rtc step (ps, x.2) (<[i := y.1]> ps, y.2).
Proof.
  induction 1 as [[p h]|[p h] [p1 h1] [p2 h2] Ha _ IH]; intros ps Hi; cbn in *.
  - by rewrite list_insert_id.
  - eapply rtc_l; [by econstructor|].
    rewrite <- (list_insert_insert_eq ps i p2 p1). apply IH.
    apply list_lookup_insert_eq. by eapply lookup_lt_Some.
Qed.

Context (body : tid → prog unit) (h0 : mem) (Nz Nr : nat).
Hypothesis Hbody : ∀ t, within (shape_of h0) (foot Nz Nr t) (body t).

(** A schedule is an interleaving: that in which each thread makes all
    its accesses before the next thread starts. *)
Lemma schedule_steps ts n h h' :
  run_threads (λ t, run (body t)) ts h = Some ((), h') →
  rtc step (replicate n (Ret ()) ++ (body <$> ts), h)
           (replicate (n + length ts) (Ret ()), h').
Proof.
  revert n h. induction ts as [|t ts IH]; intros n h; cbn.
  - intros [= <-]. by rewrite Nat.add_0_r, app_nil_r.
  - unfold kbind.
    destruct (run (body t) h) as [[[] h1]|] eqn:Ht; [|done]. intros Hr.
    apply run_accesses in Ht.
    eapply rtc_trans.
    + apply (step_thread_accesses n _ _ Ht). cbn.
      rewrite lookup_app_r by (by rewrite length_replicate).
      by rewrite length_replicate, Nat.sub_diag.
    + cbn. rewrite insert_app_r_alt by (by rewrite length_replicate).
      rewrite length_replicate, Nat.sub_diag. cbn.
      replace (n + S (length ts)) with (S n + length ts) by lia.
      rewrite (cons_middle (Ret ())), app_assoc.
      replace (replicate n (Ret ()) ++ [Ret ()])
        with (replicate (S n) (@Ret unit ())); [by apply IH|].
      by rewrite replicate_S_end.
Qed.

(** In a schedule that does not fault, each thread finds its cells as
    they were at the start: it does not fault when run alone from the
    start either. *)
Lemma schedule_alone ts h h' :
  NoDup ts →
  (∀ a, shape_of h a = shape_of h0 a) →
  (∀ t l, t ∈ ts → foot Nz Nr t l → view h l = view h0 l) →
  run_threads (λ t, run (body t)) ts h = Some ((), h') →
  ∀ t, t ∈ ts → is_Some (run (body t) h0).
Proof.
  revert h. induction ts as [|t ts IH]; intros h Hnd Hsh Hv; cbn.
  - intros _ t []%elem_of_nil.
  - apply NoDup_cons in Hnd as [Hnotin Hnd]. unfold kbind.
    destruct (run (body t) h) as [[[] h1]|] eqn:Ht; [|done]. intros Hr.
    intros t' [->|Hin]%elem_of_cons.
    + pose proof (run_local _ _ _ (Hbody t) h h0 Hsh (λ _, eq_refl)) as Hl.
      rewrite Ht in Hl. destruct (run (body t) h0) as [[[] g0]|]; [eauto|].
      exfalso. apply Hl. intros l Hl'. apply (Hv t); [left|done].
    + destruct (run_frame _ _ _ (Hbody t) h h1 Hsh Ht) as [Hsh1 Hv1].
      apply (IH h1); try done.
      intros t'' l Hin'' Hf. rewrite Hv1.
      * apply (Hv t''); [by right|done].
      * intros Hf'. assert (t'' = t) as -> by (by eapply foot_disjoint).
        done.
Qed.

Context (ts : list tid).
Hypothesis Hnd : NoDup ts.

Lemma in_progress_start :
  (∀ t, t ∈ ts → is_Some (run (body t) h0)) →
  in_progress body ts h0 Nz Nr (body <$> ts) h0.
Proof.
  intros Halone. split_and!; [by rewrite length_fmap|done| |done].
  intros i t p Ht Hp. rewrite list_lookup_fmap, Ht in Hp.
  injection Hp as <-. split; [apply Hbody|].
  destruct (Halone t) as [[[] g0] Hg0]; [by eapply list_elem_of_lookup_2|].
  by exists g0, g0.
Qed.

Lemma in_progress_step ps h ps' h' :
  in_progress body ts h0 Nz Nr ps h →
  step (ps, h) (ps', h') →
  in_progress body ts h0 Nz Nr ps' h'.
Proof.
  intros (Hlen & Hsh & Hth & Hfr) Hstep.
  inversion Hstep as [? ? j p p' ? Hj Ha]; subst.
  destruct (lookup_lt_is_Some_2 ts j) as [tj Htj].
  { rewrite <- Hlen. by eapply lookup_lt_Some. }
  destruct (Hth j tj p Htj Hj) as (Hw & g & g0 & Hg & Hg0 & Hgg).
  destruct (access_within _ _ _ _ _ _ Hsh Hw Ha) as [Hw' Hout].
  pose proof (access_shape_of _ _ _ _ Ha) as Hsh'.
  split_and!.
  - by rewrite length_insert.
  - intros a. by rewrite Hsh'.
  - intros i t q Ht Hq. destruct (decide (i = j)) as [->|Hne].
    + rewrite list_lookup_insert_eq in Hq by (by eapply lookup_lt_Some).
      injection Hq as <-. assert (t = tj) as -> by congruence.
      split; [done|]. exists g, g0. by rewrite <- (access_run _ _ _ _ Ha).
    + rewrite list_lookup_insert_ne in Hq by done.
      destruct (Hth i t q Ht Hq) as (Hwq & gq & gq0 & Hgq & Hgq0 & Hggq).
      split; [done|].
      assert (Hsame : ∀ l, foot Nz Nr t l → view h' l = view h l).
      { intros l Hl. apply Hout. intros Hl'.
        assert (t = tj) as -> by (by eapply foot_disjoint).
        apply Hne. by eapply NoDup_lookup. }
      pose proof (run_local _ _ _ Hwq h' h) as Hloc.
      rewrite Hgq in Hloc.
      destruct (run q h') as [[[] gq']|].
      * exists gq', gq0. split_and!; [done|done|].
        intros l Hl. rewrite <- Hggq by done. apply Hloc; try done.
        intros a. by rewrite Hsh'.
      * exfalso. apply Hloc; try done. intros a. by rewrite Hsh'.
  - intros l Hl. rewrite Hout; [by apply Hfr|].
    apply Hl. by eapply list_elem_of_lookup_2.
Qed.

Lemma in_progress_steps x y :
  rtc step x y →
  in_progress body ts h0 Nz Nr x.1 x.2 →
  in_progress body ts h0 Nz Nr y.1 y.2.
Proof.
  induction 1 as [|[ps h] [ps1 h1] [ps2 h2] Hs _ IH]; [done|].
  intros Hin. apply IH. by eapply in_progress_step.
Qed.

(** No thread of a launch in progress is stopped by a fault. *)
Lemma in_progress_safe ps h i p :
  in_progress body ts h0 Nz Nr ps h →
  ps !! i = Some p →
  p = Ret () ∨ ∃ p' h', access p h p' h'.
Proof.
  intros (Hlen & Hsh & Hth & Hfr) Hp.
  destruct (lookup_lt_is_Some_2 ts i) as [t Ht].
  { rewrite <- Hlen. by eapply lookup_lt_Some. }
  destruct (Hth i t p Ht Hp) as (_ & g & _ & Hg & _).
  apply run_progress. by rewrite Hg.
Qed.

(** A launch in progress can be brought to its end. *)
Lemma in_progress_finish ps h :
  in_progress body ts h0 Nz Nr ps h →
  ∃ ps' h', rtc step (ps, h) (ps', h') ∧ finished ps'.
Proof.
  intros Hin.
  assert (Hn : ∀ n, n ≤ length ps →
    ∃ ps' h', rtc step (ps, h) (ps', h')
              ∧ length ps' = length ps
              ∧ ∀ i, i < n → ps' !! i = Some (Ret ())).
  { induction n as [|n IH]; intros Hle.
    - exists ps, h. split_and!; [done|done|lia].
    - destruct IH as (ps1 & h1 & Hsteps & Hlen1 & Hfin); [lia|].
      pose proof (in_progress_steps _ _ Hsteps Hin) as Hin1. cbn in Hin1.
      destruct (lookup_lt_is_Some_2 ps1 n) as [p Hp]; [lia|].
      destruct Hin1 as (Hlen & Hsh & Hth & Hfr).
      destruct (lookup_lt_is_Some_2 ts n) as [t Ht]; [lia|].
      destruct (Hth n t p Ht Hp) as (_ & g & _ & Hg & _).
      apply run_accesses in Hg.
      exists (<[n := Ret ()]> ps1), g. split_and!.
      + eapply rtc_trans; [done|].
        by apply (step_thread_accesses n _ _ Hg).
      + by rewrite length_insert.
      + intros i Hi. destruct (decide (i = n)) as [->|Hne].
        * apply list_lookup_insert_eq. lia.
        * rewrite list_lookup_insert_ne by done. apply Hfin. lia. }
  destruct (Hn (length ps)) as (ps' & h' & Hsteps & Hlen & Hfin); [done|].
  exists ps', h'. split; [done|]. apply Forall_lookup. intros i p Hp.
  rewrite Hfin in Hp; [by injection Hp|].
  rewrite <- Hlen. by eapply lookup_lt_Some.
Qed.

(** At the end, the memory is known cell by cell. *)
Lemma in_progress_finished ps h :
  in_progress body ts h0 Nz Nr ps h →
  finished ps →
  (∀ a, shape_of h a = shape_of h0 a)
  ∧ (∀ t l, t ∈ ts → foot Nz Nr t l →
       ∃ g0, run (body t) h0 = Some ((), g0) ∧ view h l = view g0 l)
  ∧ (∀ l, (∀ t, t ∈ ts → ¬ foot Nz Nr t l) → view h l = view h0 l).
Proof.
  intros (Hlen & Hsh & Hth & Hfr) Hfin. split_and!; [done| |done].
  intros t l [i Ht]%list_elem_of_lookup_1 Hl.
  destruct (lookup_lt_is_Some_2 ps i) as [p Hp].
  { rewrite Hlen. by eapply lookup_lt_Some. }
  destruct (Hth i t p Ht Hp) as (_ & g & g0 & Hg & Hg0 & Hgg).
  rewrite (Forall_lookup_1 _ _ _ _ Hfin Hp) in Hg. injection Hg as <-.
  exists g0. split; [done|by apply Hgg].
Qed.

(** Two ends of the same launch are the same memory. *)
Lemma in_progress_same_end ps h ps' h' :
  in_progress body ts h0 Nz Nr ps h → finished ps →
  in_progress body ts h0 Nz Nr ps' h' → finished ps' →
  (∀ a, shape_of h a = shape_of h' a) ∧ (∀ l, view h l = view h' l).
Proof.
  intros Hin Hfin Hin' Hfin'.
  destruct (in_progress_finished _ _ Hin Hfin) as (Hsh & Hc & Hfr).
  destruct (in_progress_finished _ _ Hin' Hfin') as (Hsh' & Hc' & Hfr').
  split; [intros a; by rewrite Hsh, Hsh'|]. intros l.
  assert (Hdec : Decision (Exists (λ t, foot Nz Nr t l) ts)).
  { apply Exists_dec. intros t. apply foot_dec. }
  destruct Hdec as [Hex|Hno].
  - apply Exists_exists in Hex as (t & Hin_t & Hl).
    destruct (Hc t l Hin_t Hl) as (g0 & Hg0 & ->).
    destruct (Hc' t l Hin_t Hl) as (g0' & Hg0' & ->). congruence.
  - rewrite Hfr, Hfr'; [done|..];
      intros t Ht Hl; apply Hno, Exists_exists; eauto.
Qed.

End Pool.

Section Interleaving.

Implicit Types (h g : mem) (t : tid) (ts : list tid).

Lemma foot_index Nz Nr iz ir a :
  (iz <? Nz) = true → (ir <? Nr) = true →
  foot Nz Nr (iz, ir) (a, [iz; ir]).
Proof.
  intros Hz Hr. split; [|by left]. unfold active. cbn. by rewrite Hz, Hr.
Qed.

Lemma foot_flat Nz Nr iz ir a :
  (iz <? Nz) = true → (ir <? Nr) = true →
  foot Nz Nr (iz, ir) (a, [iz + Nz * ir]).
Proof.
  intros Hz Hr. split; [|by right]. unfold active. cbn. by rewrite Hz, Hr.
Qed.

(** Follows a body access by access; [Hs] is the shape of the guarded
    array. *)
Ltac follow Hs :=
  repeat lazymatch goal with
  | |- within _ _ (Ret _) => constructor
  | |- within _ _ (ShapeAt _ _ _) =>
      let n := fresh "n" in
      let Hn := fresh "Hn" in
      constructor; intros n Hn; rewrite Hs in Hn; cbn in Hn;
      injection Hn as <-; cbn
  | |- within _ _ (Load _ _ _) =>
      constructor; [by auto using foot_index, foot_flat|intros ?; cbn]
  | |- within _ _ (Store _ _ _ _) =>
      constructor; [by auto using foot_index, foot_flat|cbn]
  | |- within _ _ (if ?b then _ else _) => destruct b eqn:?; cbn
  | |- within _ _ (pbind (if ?b then _ else _) _) => destruct b eqn:?; cbn
  | |- within _ _ (store _ _ _) => unfold store
  end.

(** Every access of a thread of the five kernels is to one of its
    cells. *)
Lemma body_within k h0 Nz Nr t :
  shape_of h0 (guard_array k) = Some [Nz; Nr] →
  within (shape_of h0) (foot Nz Nr t) (body_of k t).
Proof.
  intros Hs. destruct t as [iz ir].
  destruct k; cbn in Hs |- *; follow Hs.
Qed.

Lemma exec_launch k ts h h' :
  exec (launch k ts) h = Some h' →
  run_threads (λ t, run (body_of k t)) ts h = Some ((), h').
Proof.
  intros Hx.
  destruct k;
    by apply (exec_cuda_jit_inv _ _ _ _ _ _ (λ _ _, eq_refl)) in Hx.
Qed.

(** X14. The accesses of the threads of a launch may be interleaved in
    any way. From a launch whose schedule [ts] does not fault: no thread is
    ever stopped by a fault; the launch can always be brought to its
    end; and at its end the memory is the memory that the schedule
    leaves, shape by shape and item by item. *)
Theorem interleaved_launch
  (k : call) (ts : list tid) (h0 h_seq : mem) (Nz Nr : nat) :
  shape_of h0 (guard_array k) = Some [Nz; Nr] →
  NoDup ts →
  exec (launch k ts) h0 = Some h_seq →
  ∀ ps h, rtc step (body_of k <$> ts, h0) (ps, h) →
    (∀ i p, ps !! i = Some p → p = Ret () ∨ ∃ p' h', access p h p' h')
    ∧ (∃ ps' h', rtc step (ps, h) (ps', h') ∧ finished ps')
    ∧ (finished ps →
       (∀ a, shape_of h a = shape_of h_seq a)
       ∧ ∀ a idx, peek h a idx = peek h_seq a idx).
Proof.
  intros Hs Hnd Hx%exec_launch ps h Hsteps.
  assert (Hw : ∀ t, within (shape_of h0) (foot Nz Nr t) (body_of k t))
    by (intros t; by apply body_within).
  assert (Halone : ∀ t, t ∈ ts → is_Some (run (body_of k t) h0)).
  { by apply (schedule_alone (body_of k) h0 Nz Nr Hw ts h0 h_seq). }
  pose proof (in_progress_start (body_of k) h0 Nz Nr Hw ts Halone) as Hin0.
  pose proof (in_progress_steps (body_of k) h0 Nz Nr ts Hnd _ _ Hsteps Hin0)
    as Hin. cbn in Hin.
  split_and!.
  - intros i p. by eapply in_progress_safe.
  - by eapply in_progress_finish.
  - intros Hfin.
    pose proof (schedule_steps (body_of k) ts 0 h0 h_seq Hx) as Hseq.
    cbn in Hseq.
    pose proof (in_progress_steps (body_of k) h0 Nz Nr ts Hnd _ _ Hseq Hin0)
      as Hin'. cbn in Hin'.
    destruct (in_progress_same_end (body_of k) h0 Nz Nr ts ps h _ h_seq
                Hin Hfin Hin') as [Hsh Hv].
    { by apply Forall_replicate. }
    split; [done|]. intros a idx. apply (Hv (a, idx)).
Qed.

End Interleaving.

(* ===================================================================== *)
(** * The properties of the specification: the guard of the copies *)
(* ===================================================================== *)




(* ===================================================================== *)
(** * Further properties: the launch planner *)
(* ===================================================================== *)

Section MorePlanner.

Local Open Scope Z_scope.

(** Which exception, when one is raised. *)
Lemma div_raises v x y e :
  Py.div v x y = Py.Raise e →
  (e = Py.ZeroDivisionError ∧ y = 0)
  ∨ (e = Py.OverflowError ∧ y ≠ 0 ∧ v = Py.Py3).
Proof.
  unfold Py.div. destruct (Z.eqb_spec y 0) as [->|Hne].
  - intros [= <-]. by left.
  - destruct v; [done|].
    destruct (Py.binary64 _); [done|]. intros [= <-]. by right.
Qed.

Lemma add_int_raises a n e :
  Py.add_int a n = Py.Raise e → e = Py.OverflowError.
Proof.
  unfold Py.add_int.
  destruct a; [done|..]; destruct (Py.binary64 (inject_Z n)); try done;
    by intros [= <-].
Qed.

Lemma int_raises a e : Py.int a = Py.Raise e → e = Py.OverflowError.
Proof. destruct a; cbn; [done..|]. by intros [= <-]. Qed.

Lemma cuda_tpb_bpg_1d_raises v x TPB e :
  cuda_tpb_bpg_1d v x TPB = Py.Raise e →
  (e = Py.ZeroDivisionError ∧ TPB = 0)
  ∨ (e = Py.OverflowError ∧ TPB ≠ 0 ∧ v = Py.Py3).
Proof.
  unfold cuda_tpb_bpg_1d.
  destruct (Py.div v x TPB) as [q|e'] eqn:Hq; cbn.
  - assert (TPB ≠ 0 ∧ (v = Py.Py2 → ∃ z, q = Py.PyInt z)) as [Hne Hv].
    { unfold Py.div in Hq. destruct (Z.eqb_spec TPB 0); [done|].
      split; [done|]. intros ->. injection Hq as <-. by eexists. }
    destruct (Py.add_int q 1) as [s|e'] eqn:Hs; cbn.
    + destruct (Py.int s) as [BPG|e'] eqn:Hi; cbn; [done|].
      intros [= <-]. pose proof (int_raises _ _ Hi) as ->. right.
      split_and!; [done..|]. destruct v; [|done].
      destruct Hv as [z ->]; [done|]. cbn in Hs. injection Hs as <-. done.
    + intros [= <-]. pose proof (add_int_raises _ _ _ Hs) as ->. right.
      split_and!; [done..|]. destruct v; [|done].
      destruct Hv as [z ->]; [done|]. by cbn in Hs.
  - intros [= <-]. by apply div_raises in Hq.
Qed.

Lemma cuda_tpb_bpg_1d_ZeroDivisionError v x TPB :
  cuda_tpb_bpg_1d v x TPB = Py.Raise Py.ZeroDivisionError ↔ TPB = 0.
Proof.
  split.
  - intros [[_ ?]|[? _]]%cuda_tpb_bpg_1d_raises; done.
  - intros ->. unfold cuda_tpb_bpg_1d. by rewrite div_by_zero.
Qed.

Lemma cuda_tpb_bpg_2d_ZeroDivisionError v x y TPBx TPBy :
  cuda_tpb_bpg_2d v x y TPBx TPBy = Py.Raise Py.ZeroDivisionError
  ↔ TPBx = 0
    ∨ (TPBy = 0 ∧ cuda_tpb_bpg_1d v x TPBx ≠ Py.Raise Py.OverflowError).
Proof.
  rewrite cuda_tpb_bpg_2d_1d.
  destruct (cuda_tpb_bpg_1d v x TPBx) as [px|e] eqn:Hx; cbn.
  - assert (TPBx ≠ 0) as Hne.
    { intros ->. unfold cuda_tpb_bpg_1d in Hx.
      by rewrite div_by_zero in Hx. }
    destruct (cuda_tpb_bpg_1d v y TPBy) as [py|e] eqn:Hy; cbn.
    + split; [done|]. intros [?|[-> _]]; [done|].
      unfold cuda_tpb_bpg_1d in Hy. by rewrite div_by_zero in Hy.
    + destruct (cuda_tpb_bpg_1d_raises _ _ _ _ Hy) as [[-> ->]|[-> [? _]]].
      * split; [|done]. intros _. by right.
      * split; [done|]. intros [?|[? _]]; done.
  - destruct (cuda_tpb_bpg_1d_raises _ _ _ _ Hx) as [[-> ->]|[-> [? _]]].
    + split; [|done]. intros _. by left.
    + split; [done|]. intros [?|[_ ?]]; done.
Qed.

Lemma cuda_tpb_bpg_1d_group_size v x TPB BPG T :
  cuda_tpb_bpg_1d v x TPB = Py.Return (BPG, T) → T = TPB.
Proof.
  unfold cuda_tpb_bpg_1d.
  destruct (Py.div v x TPB) as [q|]; cbn; [|done].
  destruct (Py.add_int q 1) as [s|]; cbn; [|done].
  destruct (Py.int s); cbn; [|done]. by intros [= _ <-].
Qed.

(** The quotient truncated toward zero and the floor of the quotient,
    side by side. *)
Lemma quot_div_compare a T :
  0 < T →
  a / T ≤ a ÷ T ≤ a / T + 1 ∧ (a / T = a ÷ T ↔ 0 ≤ a ∨ a mod T = 0).
Proof.
  intros HT.
  pose proof (Z.div_mod a T ltac:(lia)) as Hd.
  pose proof (Z.mod_pos_bound a T HT) as Hm.
  pose proof (Z.quot_rem' a T) as Hq.
  destruct (Z.le_gt_cases 0 a) as [Ha|Ha].
  - rewrite Z.quot_div_nonneg by lia. split; [lia|]. split; auto.
  - pose proof (Z.rem_nonpos a T ltac:(lia) ltac:(lia)) as Hr.
    pose proof (Z.rem_bound_abs a T ltac:(lia)) as Hr'.
    split; [nia|]. split.
    + intros Heq. right. nia.
    + intros [?|H0]; [lia|]. nia.
Qed.

Lemma quot_negative_group_size x TPB :
  0 < x → TPB < 0 → (x + TPB) ÷ TPB ≤ 0.
Proof.
  intros Hx HT.
  replace TPB with (- (- TPB)) at 2 by lia. rewrite Z.quot_opp_r by lia.
  destruct (Z.le_gt_cases 0 (x + TPB)) as [Hge|Hlt].
  - assert (0 ≤ (x + TPB) ÷ - TPB) by (apply Z.quot_pos; lia). lia.
  - replace (x + TPB) with (- (- (x + TPB))) by lia.
    rewrite Z.quot_opp_l by lia.
    rewrite Z.quot_small by lia. lia.
Qed.

End MorePlanner.

(** X1. The errors of the planner. [cuda_tpb_bpg_1d] raises
    [ZeroDivisionError] exactly when the group size is zero, whatever
    the extent and the language version; [cuda_tpb_bpg_2d] raises it
    exactly when the group size of [x] is zero, or that of [y] is zero
    and the part of [x], which is evaluated first, did not raise
    [OverflowError]. Python 2 raises nothing else. Python 3 raises
    [OverflowError] when the quotient is beyond the floats, as for the
    extent [10^400] with the group size [1]; it raises nothing for a
    group size that is not zero with [|x| + 2 * |TPB| ≤ 2^52]. A plan
    that is returned carries the group size it was given. *)
Theorem plan_raises_iff_zero_group_size
  (v : Py.version) (x y TPB TPBx TPBy : Z) :
  (cuda_tpb_bpg_1d v x TPB = Py.Raise Py.ZeroDivisionError ↔ TPB = 0%Z)
  ∧ (cuda_tpb_bpg_2d v x y TPBx TPBy = Py.Raise Py.ZeroDivisionError
     ↔ TPBx = 0%Z
       ∨ (TPBy = 0%Z
          ∧ cuda_tpb_bpg_1d v x TPBx ≠ Py.Raise Py.OverflowError))
  ∧ (∀ e, cuda_tpb_bpg_1d Py.Py2 x TPB = Py.Raise e →
          e = Py.ZeroDivisionError)
  ∧ cuda_tpb_bpg_1d Py.Py3 (10 ^ 400) 1 = Py.Raise Py.OverflowError
  ∧ (TPB ≠ 0%Z → exact_range v x TPB →
     ∃ BPG, cuda_tpb_bpg_1d v x TPB = Py.Return (BPG, TPB))
  ∧ (∀ BPG T, cuda_tpb_bpg_1d v x TPB = Py.Return (BPG, T) → T = TPB)
  ∧ (∀ BPG T, cuda_tpb_bpg_2d v x y TPBx TPBy = Py.Return (BPG, T) →
              T = (TPBx, TPBy)).
Proof.
  split_and!.
  - apply cuda_tpb_bpg_1d_ZeroDivisionError.
  - apply cuda_tpb_bpg_2d_ZeroDivisionError.
  - intros e [[-> _]|(_ & _ & [=])]%cuda_tpb_bpg_1d_raises. done.
  - vm_compute. reflexivity.
  - intros Hne Hr. destruct v.
    + rewrite cuda_tpb_bpg_1d_py2 by done. by eexists.
    + rewrite cuda_tpb_bpg_1d_py3 by done. by eexists.
  - apply cuda_tpb_bpg_1d_group_size.
  - intros BPG T. rewrite cuda_tpb_bpg_2d_1d.
    destruct (cuda_tpb_bpg_1d v x TPBx); cbn; [|done].
    destruct (cuda_tpb_bpg_1d v y TPBy); cbn; [|done]. by intros [= _ <-].
Qed.

(** X2. For an extent [x ≥ 0] and a group size [TPB > 0], under
    Python 2, and under Python 3 for extents with [x + 2 * TPB ≤ 2^52],
    the plan has at least one block, its threads beyond the extent are
    at least one and at most one group ([0 < BPG * TPB - x ≤ TPB]), and
    a larger extent never gets fewer blocks. *)
Theorem plan_surplus_and_growth (v : Py.version) (x x' TPB : Z) :
  (0 ≤ x)%Z → (x ≤ x')%Z → (0 < TPB)%Z →
  exact_range v x TPB → exact_range v x' TPB →
  ∃ BPG BPG',
    cuda_tpb_bpg_1d v x TPB = Py.Return (BPG, TPB)
    ∧ cuda_tpb_bpg_1d v x' TPB = Py.Return (BPG', TPB)
    ∧ (1 ≤ BPG)%Z
    ∧ (0 < BPG * TPB - x ≤ TPB)%Z
    ∧ (BPG ≤ BPG')%Z.
Proof.
  intros Hx Hx' HT Hr Hr'. exists (x / TPB + 1)%Z, (x' / TPB + 1)%Z.
  rewrite !cuda_tpb_bpg_1d_nonneg by (done || lia).
  pose proof (floor_div_bounds x TPB HT).
  pose proof (Z.div_pos x TPB Hx HT).
  pose proof (Z.div_le_mono x x' TPB HT Hx').
  split_and!; try done; lia.
Qed.

Lemma plan_surplus_and_growth_witness :
  ∃ BPG BPG',
    cuda_tpb_bpg_1d Py.Py3 512 256 = Py.Return (BPG, 256%Z)
    ∧ cuda_tpb_bpg_1d Py.Py3 1000 256 = Py.Return (BPG', 256%Z)
    ∧ (1 ≤ BPG)%Z
    ∧ (0 < BPG * 256 - 512 ≤ 256)%Z
    ∧ (BPG ≤ BPG')%Z.
Proof.
  apply (plan_surplus_and_growth Py.Py3 512 1000 256);
    try lia; vm_compute; discriminate.
Defined.

(** X3. For a group size [TPB > 0] and an extent [x] with
    [|x| + 2 * TPB ≤ 2^52], the two language versions return the same
    plan when [x ≥ -TPB] (so for every such extent that is not
    negative) and when [x] is a multiple of [TPB]; for the other
    extents, Python 3 (true division, rounded to a float, then
    truncation toward zero) counts one block more than Python 2 (floor
    division). Beyond that range the floats show: for the extent [2^53]
    and the group size [1], Python 3 counts [2^53] blocks and Python 2
    [2^53 + 1]. *)
Theorem plan_of_the_two_versions (x TPB : Z) :
  (0 < TPB)%Z → exact_range Py.Py3 x TPB →
  (∃ BPG2 BPG3,
     cuda_tpb_bpg_1d Py.Py2 x TPB = Py.Return (BPG2, TPB)
     ∧ cuda_tpb_bpg_1d Py.Py3 x TPB = Py.Return (BPG3, TPB)
     ∧ (BPG2 = BPG3 ∨ BPG3 = BPG2 + 1)%Z
     ∧ (BPG2 = BPG3 ↔ (- TPB ≤ x)%Z ∨ (TPB | x)%Z))
  ∧ cuda_tpb_bpg_1d Py.Py2 (2 ^ 53) 1 = Py.Return ((2 ^ 53 + 1)%Z, 1%Z)
  ∧ cuda_tpb_bpg_1d Py.Py3 (2 ^ 53) 1 = Py.Return ((2 ^ 53)%Z, 1%Z).
Proof.
  intros HT Hr. split; [|split; vm_compute; reflexivity].
  exists (x / TPB + 1)%Z, (Z.quot (x + TPB) TPB).
  rewrite cuda_tpb_bpg_1d_py2, cuda_tpb_bpg_1d_py3 by (done || lia).
  split; [done|]. split; [done|].
  destruct (quot_div_compare (x + TPB) TPB HT) as [Hb Heq].
  replace ((x + TPB) / TPB)%Z with (x / TPB + 1)%Z in *.
  2:{ replace (x + TPB)%Z with (x + 1 * TPB)%Z by lia.
      by rewrite Z.div_add by lia. }
  split; [lia|]. rewrite Heq.
  replace ((x + TPB) `mod` TPB)%Z with (x `mod` TPB)%Z.
  2:{ replace (x + TPB)%Z with (x + 1 * TPB)%Z by lia.
      by rewrite Z.mod_add by lia. }
  rewrite <- (Z.mod_divide x TPB) by lia.
  split; (intros [?|?]; [left; lia|by right]).
Qed.

Lemma plan_of_the_two_versions_witness :
  (∃ BPG2 BPG3,
     cuda_tpb_bpg_1d Py.Py2 (-300) 256 = Py.Return (BPG2, 256%Z)
     ∧ cuda_tpb_bpg_1d Py.Py3 (-300) 256 = Py.Return (BPG3, 256%Z)
     ∧ (BPG2 = BPG3 ∨ BPG3 = BPG2 + 1)%Z
     ∧ (BPG2 = BPG3 ↔ (- 256 ≤ -300)%Z ∨ (256 | -300)%Z))
  ∧ cuda_tpb_bpg_1d Py.Py2 (2 ^ 53) 1 = Py.Return ((2 ^ 53 + 1)%Z, 1%Z)
  ∧ cuda_tpb_bpg_1d Py.Py3 (2 ^ 53) 1 = Py.Return ((2 ^ 53)%Z, 1%Z).
Proof.
  apply (plan_of_the_two_versions (-300) 256);
    [lia|vm_compute; discriminate].
Defined.

(** X4. The sign of the group size is not checked: for an extent [x > 0]
    and a group size [TPB < 0], Python 2, and Python 3 when
    [x + 2 * |TPB| ≤ 2^52], return, without error, a plan with no block
    at all ([BPG ≤ 0]). Beyond that range the floats show: for the
    extent [1] and the group size [-2^54], Python 3 returns a plan with
    one block. *)
Theorem plan_of_negative_group_size (v : Py.version) (x TPB : Z) :
  (0 < x)%Z → (TPB < 0)%Z → exact_range v x TPB →
  (∃ BPG, cuda_tpb_bpg_1d v x TPB = Py.Return (BPG, TPB) ∧ (BPG ≤ 0)%Z)
  ∧ cuda_tpb_bpg_1d Py.Py3 1 (- 2 ^ 54)
    = Py.Return (1%Z, (- 2 ^ 54)%Z).
Proof.
  intros Hx HT Hr. split; [|vm_compute; reflexivity]. destruct v.
  - rewrite cuda_tpb_bpg_1d_py2 by lia. eexists. split; [done|].
    pose proof (Z.div_mod x TPB ltac:(lia)).
    pose proof (Z.mod_neg_bound x TPB HT). nia.
  - rewrite cuda_tpb_bpg_1d_py3 by (done || lia). eexists. split; [done|].
    by apply quot_negative_group_size.
Qed.

Lemma plan_of_negative_group_size_witness :
  (∃ BPG, cuda_tpb_bpg_1d Py.Py3 10 (-8) = Py.Return (BPG, (-8)%Z)
          ∧ (BPG ≤ 0)%Z)
  ∧ cuda_tpb_bpg_1d Py.Py3 1 (- 2 ^ 54)
    = Py.Return (1%Z, (- 2 ^ 54)%Z).
Proof.
  apply (plan_of_negative_group_size Py.Py3 10 (-8));
    try lia; vm_compute; discriminate.
Defined.

(* ===================================================================== *)
(** * Further properties: CUDA memory management *)
(* ===================================================================== *)

Section Transfers.

Context {W : Type}.

Implicit Types (H : host W) (w : W) (m : method) (ms : list method)
  (s : species) (l : list species).

Lemma invoke_call m H w :
  invoke m H w
  = match method_call H m w with
    | Some w' => ([m], Some ((), w'))
    | None => ([m], None)
    end.
Proof. done. Qed.

(** One turn of the loop: the flag is read, and the method called when
    it is set. *)
Lemma turn_of_the_loop (f : species → method) s H w :
  tbind (use_cuda s) (λ b, if b then invoke (f s) else tret ()) H w
  = if attr_use_cuda H s w then invoke (f s) H w else ([], Some ((), w)).
Proof.
  unfold tbind, use_cuda.
  destruct (attr_use_cuda H s w); [|done].
  by destruct (invoke (f s) H w).
Qed.

Lemma run_methods_app H ms1 ms2 w :
  run_methods H (ms1 ++ ms2) w
  = run_methods H ms1 w ≫= run_methods H ms2.
Proof.
  revert w. induction ms1 as [|m ms1 IH]; intros w; cbn; [done|].
  destruct (method_call H m w); [apply IH|done].
Qed.

(** The loop of the two functions, for the method [f] of a species. *)
Local Abbreviation loop f l :=
  (for_each l (λ species,
     tbind (use_cuda species) (λ b,
       if b then invoke (f species) else tret ()))).

Lemma loop_cons (f : species → method) s l H w :
  loop f (s :: l) H w
  = if attr_use_cuda H s w then
      match method_call H (f s) w with
      | Some w1 => (f s :: (loop f l H w1).1, (loop f l H w1).2)
      | None => ([f s], None)
      end
    else loop f l H w.
Proof.
  cbn [for_each]. unfold tbind at 1. rewrite turn_of_the_loop.
  destruct (attr_use_cuda H s w).
  - rewrite invoke_call. destruct (method_call H (f s) w) as [w1|]; [|done].
    by destruct (loop f l H w1).
  - by destruct (loop f l H w).
Qed.

Lemma then_invoke (c : transfer W unit) m H w :
  tbind c (λ _, invoke m) H w
  = match c H w with
    | (log, Some (_, w1)) =>
        (log ++ [m],
         match method_call H m w1 with
         | Some w2 => Some ((), w2)
         | None => None
         end)
    | (log, None) => (log, None)
    end.
Proof.
  unfold tbind. destruct (c H w) as [log [[[] w1]|]]; [|done].
  rewrite invoke_call. by destruct (method_call H m w1).
Qed.

(** The calls of the loop, whatever the methods do: each is the method
    of a species of the list whose flag is set in the world that the
    calls before it leave, which is the world in which the loop reads
    the flag; the loop returns with the world that the calls made leave,
    and when a call raises, the calls before it have returned and no
    call follows it. *)
Lemma loop_trace (f : species → method) l H w :
  (∀ pre m post, (loop f l H w).1 = pre ++ m :: post →
        ∃ s w', s ∈ l ∧ m = f s
                ∧ run_methods H pre w = Some w'
                ∧ attr_use_cuda H s w' = true)
  ∧ (∀ w', (loop f l H w).2 = Some ((), w') →
           run_methods H (loop f l H w).1 w = Some w')
  ∧ ((loop f l H w).2 = None →
     ∃ pre m w',
       (loop f l H w).1 = pre ++ [m]
       ∧ run_methods H pre w = Some w'
       ∧ method_call H m w' = None).
Proof.
  revert w. induction l as [|s l IH]; intros w.
  - cbn. split_and!; [|by intros w' [= <-]|done].
    intros pre m post Heq. by destruct pre.
  - rewrite loop_cons.
    destruct (attr_use_cuda H s w) eqn:Hflag.
    + destruct (method_call H (f s) w) as [w1|] eqn:Hm.
      * destruct (IH w1) as (Hin & Hret & Hstop).
        destruct (loop f l H w1) as [log r]. cbn in *.
        split_and!.
        -- intros [|m0 pre] m post Heq; cbn in Heq.
           ++ injection Heq as <- _.
              exists s, w. split_and!; [left|done|done|done].
           ++ injection Heq as <- Heq.
              destruct (Hin pre m post Heq) as (s' & w' & ? & ? & ? & ?).
              exists s', w'. cbn. rewrite Hm.
              split_and!; [by right|done|done|done].
        -- intros w' Hr. rewrite Hm. by apply Hret.
        -- intros Hr. destruct (Hstop Hr) as (pre & m & w' & -> & Hpre & Hm').
           exists (f s :: pre), m, w'. cbn. by rewrite Hm.
      * cbn. split_and!.
        -- intros [|m0 pre] m post Heq; cbn in Heq.
           ++ injection Heq as <- _.
              exists s, w. split_and!; [left|done|done|done].
           ++ injection Heq as _ Heq. by destruct pre.
        -- done.
        -- intros _. by exists [], (f s), w.
    + destruct (IH w) as (Hin & Hret & Hstop).
      split_and!; [|done|done].
      intros pre m post Heq.
      destruct (Hin pre m post Heq) as (s' & w' & ? & ? & ? & ?).
      exists s', w'. split_and!; [by right|done|done|done].
Qed.

(** When the methods leave the flags as they are, the loop calls the
    method of the species whose flag is set at the start. *)
Lemma loop_keeps_flags (f : species → method) l H w :
  keeps_flags H →
  loop f l H w
  = for_each (f <$> List.filter (λ s, attr_use_cuda H s w) l) invoke H w.
Proof.
  intros Hk. revert w. induction l as [|s l IH]; intros w; [done|].
  rewrite loop_cons. cbn [List.filter].
  destruct (attr_use_cuda H s w) eqn:Hflag; [|apply IH].
  cbn [fmap list_fmap for_each]. unfold tbind. rewrite invoke_call.
  destruct (method_call H (f s) w) as [w1|] eqn:Hm; [|done].
  rewrite IH.
  rewrite (List.filter_ext (λ s0, attr_use_cuda H s0 w1)
             (λ s0, attr_use_cuda H s0 w)).
  - by destruct (for_each _ invoke H w1).
  - intros s'. by eapply Hk.
Qed.

Lemma for_each_snoc ms m H w :
  tbind (for_each ms invoke) (λ _, invoke m) H w
  = for_each (ms ++ [m]) invoke H w.
Proof.
  revert w. induction ms as [|m' ms IH]; intros w; cbn.
  - unfold tbind. cbn.
    destruct (invoke m H w) as [log [[[] w']|]]; cbn;
      by rewrite ?app_nil_r.
  - unfold tbind at 1 2 3.
    destruct (invoke m' H w) as [log [[[] w1]|]]; [|done].
    rewrite <- IH. unfold tbind.
    destruct (for_each ms invoke H w1) as [log1 [[[] w2]|]]; [|done].
    destruct (invoke m H w2) as [log2 r2]. by rewrite app_assoc.
Qed.

(** The calls of a sequence of calls: all of them when none raises, and
    otherwise those up to the first that raises. *)
Lemma for_each_invoke ms H w :
  snd <$> (for_each ms invoke H w).2 = run_methods H ms w
  ∧ (is_Some (for_each ms invoke H w).2 →
     (for_each ms invoke H w).1 = ms)
  ∧ ((for_each ms invoke H w).2 = None →
     ∃ pre m post w',
       ms = pre ++ m :: post
       ∧ (for_each ms invoke H w).1 = pre ++ [m]
       ∧ run_methods H pre w = Some w'
       ∧ method_call H m w' = None).
Proof.
  revert w. induction ms as [|m ms IH]; intros w; cbn.
  - split_and!; [done|done|done].
  - unfold tbind. rewrite invoke_call.
    destruct (method_call H m w) as [w1|] eqn:Hm.
    + destruct (IH w1) as (Hr & Hall & Hstop).
      destruct (for_each ms invoke H w1) as [log r]. cbn in *.
      split_and!; [done|by intros ->%Hall|].
      intros (pre & m' & post & w' & -> & -> & Hpre & Hm')%Hstop.
      exists (m :: pre), m', post, w'. cbn. by rewrite Hm.
    + cbn. split_and!; [done|by intros []|]. intros _.
      by exists [], m, ms, w.
Qed.

(** The loop and the call behind it, whatever the methods do. *)
Lemma transfer_trace (f : species → method) (m_last : method) l H w :
  (∀ s, f s ≠ m_last) →
  (∀ pre m post,
     (tbind (loop f l) (λ _, invoke m_last) H w).1 = pre ++ m :: post →
     m = m_last
     ∨ ∃ s w', s ∈ l ∧ m = f s
               ∧ run_methods H pre w = Some w'
               ∧ attr_use_cuda H s w' = true)
  ∧ (m_last ∈ (tbind (loop f l) (λ _, invoke m_last) H w).1 →
     ∃ pre,
       (tbind (loop f l) (λ _, invoke m_last) H w).1 = pre ++ [m_last]
       ∧ (m_last ∉ pre)
       ∧ is_Some (run_methods H pre w))
  ∧ (∀ w', (tbind (loop f l) (λ _, invoke m_last) H w).2 = Some ((), w') →
           run_methods H (tbind (loop f l) (λ _, invoke m_last) H w).1 w
           = Some w')
  ∧ ((tbind (loop f l) (λ _, invoke m_last) H w).2 = None →
     ∃ pre m w',
       (tbind (loop f l) (λ _, invoke m_last) H w).1 = pre ++ [m]
       ∧ run_methods H pre w = Some w'
       ∧ method_call H m w' = None).
Proof.
  intros Hf. rewrite then_invoke.
  destruct (loop_trace f l H w) as (Hin & Hret & Hstop).
  assert (Hnot : m_last ∉ (loop f l H w).1).
  { intros (pre & post & Heq)%list_elem_of_split.
    destruct (Hin _ _ _ Heq) as (s & _ & _ & Heq' & _).
    by apply (Hf s). }
  destruct (loop f l H w) as [log [[[] w1]|]]; cbn in *.
  - specialize (Hret w1 eq_refl). split_and!.
    + intros pre m post Heq.
      destruct post as [|m' post _] using rev_ind.
      * apply app_inj_tail in Heq as [_ <-]. by left.
      * right. apply (Hin pre m post).
        change (pre ++ m :: post ++ [m'])
          with (pre ++ (m :: post) ++ [m']) in Heq.
        rewrite app_assoc in Heq. by apply app_inj_tail in Heq as [<- _].
    + intros _. exists log. split_and!; [done|done|by rewrite Hret].
    + intros w'. rewrite run_methods_app, Hret. cbn.
      destruct (method_call H m_last w1); [|done]. by intros [= <-].
    + intros Hr. exists log, m_last, w1. split_and!; [done|done|].
      by destruct (method_call H m_last w1).
  - split_and!.
    + intros pre m post Heq. right. by apply (Hin pre m post).
    + intros Hl. by apply Hnot in Hl.
    + done.
    + intros _. by apply Hstop.
Qed.

(** The way back is the way out with each method mirrored. *)
Lemma loop_mirrored (f : species → method) l H w :
  loop (λ s, mirror (f s)) l H w
  = (mirror <$> (loop f l (mirrored H) w).1, (loop f l (mirrored H) w).2).
Proof.
  revert w. induction l as [|s l IH]; intros w; [done|].
  rewrite !loop_cons.
  change (attr_use_cuda (mirrored H) s w) with (attr_use_cuda H s w).
  change (method_call (mirrored H) (f s) w)
    with (method_call H (mirror (f s)) w).
  destruct (attr_use_cuda H s w); [|apply IH].
  destruct (method_call H (mirror (f s)) w) as [w1|]; [|done].
  by rewrite IH.
Qed.

End Transfers.

(** X5. When the methods leave the flags [use_cuda] as they are,
    [send_data_to_gpu] calls [send_particles_to_gpu] on the species of
    [simulation.ptcl] that have [use_cuda] set, in the order of the
    list, and then [send_fields_to_gpu] on [simulation.fld]. Its outcome
    is that of these calls one after the other; when it returns, it has
    made them all; when a call raises, it has made the calls before it,
    which returned, and this one, and no other. *)
Theorem send_data_to_gpu_call_sequence
  {W : Type} (H : host W) (simulation : simulation_object) (w : W) :
  keeps_flags H →
  let calls :=
    (send_particles_to_gpu
       <$> List.filter (λ s, attr_use_cuda H s w) (ptcl simulation))
    ++ [send_fields_to_gpu (fld simulation)] in
  snd <$> (send_data_to_gpu simulation H w).2 = run_methods H calls w
  ∧ (is_Some (send_data_to_gpu simulation H w).2 →
     (send_data_to_gpu simulation H w).1 = calls)
  ∧ ((send_data_to_gpu simulation H w).2 = None →
     ∃ pre m post w',
       calls = pre ++ m :: post
       ∧ (send_data_to_gpu simulation H w).1 = pre ++ [m]
       ∧ run_methods H pre w = Some w'
       ∧ method_call H m w' = None).
Proof.
  intros Hk calls.
  assert (Heq : send_data_to_gpu simulation H w
                = for_each calls invoke H w).
  { unfold calls. rewrite <- for_each_snoc.
    unfold send_data_to_gpu. rewrite !then_invoke.
    by rewrite loop_keeps_flags. }
  rewrite Heq. apply for_each_invoke.
Qed.

(** The species 1 to 6 of the example: those with an even identity use
    CUDA, and the transfer of the species 4 raises. *)
Lemma send_data_to_gpu_call_sequence_witness :
  snd <$> (send_data_to_gpu (Simulation [1; 2; 3; 4; 5; 6] 7)
             example_host 0).2
  = run_methods example_host
      ((send_particles_to_gpu
          <$> List.filter (λ s, attr_use_cuda example_host s 0)
                [1; 2; 3; 4; 5; 6])
       ++ [send_fields_to_gpu 7]) 0
  ∧ (is_Some (send_data_to_gpu (Simulation [1; 2; 3; 4; 5; 6] 7)
                example_host 0).2 →
     (send_data_to_gpu (Simulation [1; 2; 3; 4; 5; 6] 7) example_host 0).1
     = (send_particles_to_gpu
          <$> List.filter (λ s, attr_use_cuda example_host s 0)
                [1; 2; 3; 4; 5; 6])
       ++ [send_fields_to_gpu 7])
  ∧ ((send_data_to_gpu (Simulation [1; 2; 3; 4; 5; 6] 7)
        example_host 0).2 = None →
     ∃ pre m post w',
       (send_particles_to_gpu
          <$> List.filter (λ s, attr_use_cuda example_host s 0)
                [1; 2; 3; 4; 5; 6])
       ++ [send_fields_to_gpu 7] = pre ++ m :: post
       ∧ (send_data_to_gpu (Simulation [1; 2; 3; 4; 5; 6] 7)
            example_host 0).1 = pre ++ [m]
       ∧ run_methods example_host pre 0 = Some w'
       ∧ method_call example_host m w' = None).
Proof.
  apply (send_data_to_gpu_call_sequence example_host
           (Simulation [1; 2; 3; 4; 5; 6] 7) 0).
  intros m w w' s _. reflexivity.
Defined.

(** X6. What [send_data_to_gpu] does whatever its methods do, to the
    flags too. Each call of [send_particles_to_gpu] is on a species of
    [simulation.ptcl] whose flag [use_cuda] is set in the world that the
    calls made before it leave, all of which have returned: that is the
    world in which the function reads the flag, no call being made
    between the reading and the call. [send_fields_to_gpu] is called on
    [simulation.fld] only, and no method of the way back is called. The
    fields are sent last, and only when every call before has returned.
    When the function returns, the world is the one that the calls it
    has made leave; when a call raises, the calls before it have
    returned and no call follows it. *)
Theorem send_data_to_gpu_calls_only
  {W : Type} (H : host W) (simulation : simulation_object) (w : W) :
  (∀ pre s post,
     (send_data_to_gpu simulation H w).1
     = pre ++ send_particles_to_gpu s :: post →
     s ∈ ptcl simulation
     ∧ ∃ w', run_methods H pre w = Some w'
             ∧ attr_use_cuda H s w' = true)
  ∧ (∀ f, send_fields_to_gpu f ∈ (send_data_to_gpu simulation H w).1 →
          f = fld simulation
          ∧ ∃ pre,
              (send_data_to_gpu simulation H w).1
              = pre ++ [send_fields_to_gpu f]
              ∧ (send_fields_to_gpu f ∉ pre)
              ∧ is_Some (run_methods H pre w))
  ∧ (∀ s, receive_particles_from_gpu s
            ∉ (send_data_to_gpu simulation H w).1)
  ∧ (∀ f, receive_fields_from_gpu f
            ∉ (send_data_to_gpu simulation H w).1)
  ∧ (∀ w', (send_data_to_gpu simulation H w).2 = Some ((), w') →
           run_methods H (send_data_to_gpu simulation H w).1 w = Some w')
  ∧ ((send_data_to_gpu simulation H w).2 = None →
     ∃ pre m w',
       (send_data_to_gpu simulation H w).1 = pre ++ [m]
       ∧ run_methods H pre w = Some w'
       ∧ method_call H m w' = None).
Proof.
  destruct (transfer_trace send_particles_to_gpu
              (send_fields_to_gpu (fld simulation)) (ptcl simulation) H w)
    as (Hin & Hlast & Hret & Hstop); [done|].
  fold (send_data_to_gpu (W := W) simulation) in Hin, Hlast, Hret, Hstop.
  split_and!; [| | | |done|done].
  - intros pre s post Heq.
    destruct (Hin _ _ _ Heq) as [[=]|(s' & w' & Hs & [= <-] & Hrun & Hflag)].
    eauto.
  - intros f Hf. pose proof Hf as (pre & post & Heq)%list_elem_of_split.
    destruct (Hin _ _ _ Heq) as [[= ->]|(s' & w' & _ & [=] & _)].
    split; [done|]. by apply Hlast.
  - intros s (pre & post & Heq)%list_elem_of_split.
    by destruct (Hin _ _ _ Heq) as [[=]|(s' & w' & _ & [=] & _)].
  - intros f (pre & post & Heq)%list_elem_of_split.
    by destruct (Hin _ _ _ Heq) as [[=]|(s' & w' & _ & [=] & _)].
Qed.

(** X7. [receive_data_from_gpu] is [send_data_to_gpu] with each method
    replaced by the method of the way back: in any host it makes the
    calls that [send_data_to_gpu] makes in the host in which each method
    of the way out does what the method of the way back does, each
    mirrored, with the same outcome. So it reads the same flags at the
    same moments, goes through the species in the same order, and stops
    at the first exception in the same way. *)
Theorem receive_data_from_gpu_mirrors_send
  {W : Type} (H : host W) (simulation : simulation_object) (w : W) :
  receive_data_from_gpu simulation H w
  = (mirror <$> (send_data_to_gpu simulation (mirrored H) w).1,
     (send_data_to_gpu simulation (mirrored H) w).2).
Proof.
  unfold receive_data_from_gpu, send_data_to_gpu. rewrite !then_invoke.
  rewrite (loop_mirrored send_particles_to_gpu).
  destruct (for_each (ptcl simulation) _ (mirrored H) w)
    as [log [[[] w1]|]]; [|done].
  cbn [fst snd]. by rewrite fmap_app.
Qed.

(* ===================================================================== *)
(** * Further properties: the launches of the kernels *)
(* ===================================================================== *)

Section MoreLaunches.

Implicit Types (h : mem) (t : tid) (ts : list tid).

(** The cells that the threads of a covering schedule write in a grid
    are those at the indices inside the extents. *)
Lemma covering_written Nz Nr ts idx :
  covering Nz Nr ts →
  (∃ t, t ∈ ts ∧ active Nz Nr t = true ∧ idx = idx2 t)
  ↔ ∃ iz ir, iz < Nz ∧ ir < Nr ∧ idx = [iz; ir].
Proof.
  intros Hc. split.
  - intros ([iz ir] & _ & [Hz Hr]%active_lt & ->). by exists iz, ir.
  - intros (iz & ir & Hz & Hr & ->). exists (iz, ir).
    assert (active Nz Nr (iz, ir) = true) by (by apply active_lt).
    split_and!; [by eapply covering_active|done|done].
Qed.

Lemma inactive_outside Nz Nr t :
  active Nz Nr t = false → Nz ≤ t.1 ∨ Nr ≤ t.2.
Proof.
  unfold active. intros [H|H]%andb_false_iff; apply Nat.ltb_ge in H; auto.
Qed.

(** Whether an index is an index of the grid of extents [Nz], [Nr]. *)
Lemma grid_index_dec Nz Nr (idx : list nat) :
  Decision (∃ iz ir, iz < Nz ∧ ir < Nr ∧ idx = [iz; ir]).
Proof.
  unfold Decision.
  destruct idx as [|iz [|ir [|??]]];
    try (right; by intros (? & ? & _ & _ & [=])).
  destruct (decide (iz < Nz)) as [Hz|Hz];
    [destruct (decide (ir < Nr)) as [Hr|Hr]|].
  - left. by exists iz, ir.
  - right. intros (? & ? & _ & ? & [= -> ->]). done.
  - right. intros (? & ? & ? & _ & [= -> ->]). done.
Qed.

End MoreLaunches.

(** X8. For a source grid of shape [Nz x Nr] and a destination grid at
    least as large, a launch of [cuda_copy_2d_to_2d] on any schedule
    covering the source leaves [array_out[iz, ir] = array_in[iz, ir]] at
    every index of the source, and leaves every shape, every other
    array, and the items of the destination at or beyond the extents of
    the source, as they were. When the destination is the source itself,
    the launch leaves every item of the memory as it was. *)
Theorem copy_2d_to_2d_copies
  (h0 : mem) (array_in array_out : handle) (Nz Nr : nat) (ts : list tid) :
  shape_of h0 array_in = Some [Nz; Nr] →
  covers h0 array_out Nz Nr →
  covering Nz Nr ts →
  ∃ h', exec (launch_copy_2d_to_2d ts array_in array_out) h0 = Some h'
    ∧ (∀ a, shape_of h' a = shape_of h0 a)
    ∧ (∀ iz ir, iz < Nz → ir < Nr →
         is_Some (peek h0 array_in [iz; ir])
         ∧ peek h' array_out [iz; ir] = peek h0 array_in [iz; ir])
    ∧ (∀ a idx, a ≠ array_out → peek h' a idx = peek h0 a idx)
    ∧ (∀ iz ir, Nz ≤ iz ∨ Nr ≤ ir →
         peek h' array_out [iz; ir] = peek h0 array_out [iz; ir])
    ∧ (array_in = array_out → ∀ a idx, peek h' a idx = peek h0 a idx).
Proof.
  intros Hin Hout Hc.
  destruct (launch_copy_2d_to_2d_spec h0 array_in array_out Nz Nr ts)
    as (h' & Hx & Hsh & Hv & Hfr); [done|done|apply Hc|].
  assert (Hcopy : ∀ iz ir, iz < Nz → ir < Nr →
            peek h' array_out [iz; ir] = peek h0 array_in [iz; ir]).
  { intros iz ir Hz Hr. apply (Hv (iz, ir)); [|by apply active_lt].
    eapply covering_active; [done|]. by apply active_lt. }
  exists h'. split_and!; [done|done| | | |].
  - intros iz ir Hz Hr. split; [|by apply Hcopy].
    apply (covers_peek _ _ Nz Nr (iz, ir)); [by apply shape_covers|].
    by apply active_lt.
  - intros a idx Hne. apply Hfr. by intros [? _].
  - intros iz ir Hout'. apply Hfr.
    intros [_ ([iz' ir'] & _ & [Hz Hr]%active_lt & [= -> ->])].
    cbn in *. lia.
  - intros <- a idx.
    destruct (decide (a = array_in)) as [->|Hne];
      [|apply Hfr; by intros [? _]].
    destruct (grid_index_dec Nz Nr idx) as [(iz & ir & Hz & Hr & ->)|Hno].
    + by apply Hcopy.
    + apply Hfr. intros [_ Hw]. apply Hno.
      by apply (covering_written Nz Nr ts).
Qed.

Lemma copy_2d_to_2d_copies_witness :
  ∃ h', exec (launch_copy_2d_to_2d (planned_grid Py.Py3 2 2 8 8) 0 2)
          example_basis = Some h'
    ∧ (∀ a, shape_of h' a = shape_of example_basis a)
    ∧ (∀ iz ir, iz < 2 → ir < 2 →
         is_Some (peek example_basis 0 [iz; ir])
         ∧ peek h' 2 [iz; ir] = peek example_basis 0 [iz; ir])
    ∧ (∀ a idx, a ≠ 2 → peek h' a idx = peek example_basis a idx)
    ∧ (∀ iz ir, 2 ≤ iz ∨ 2 ≤ ir →
         peek h' 2 [iz; ir] = peek example_basis 2 [iz; ir])
    ∧ (0 = 2 → ∀ a idx, peek h' a idx = peek example_basis a idx).
Proof.
  apply (copy_2d_to_2d_copies example_basis 0 2 2 2
           (planned_grid Py.Py3 2 2 8 8)).
  - reflexivity.
  - apply shape_covers. reflexivity.
  - apply (planned_covering Py.Py3 2 2 8 8); [lia|lia|done|done|].
    apply planned_grid_planned.
Defined.

(** X9. The layout conversion the other way round. For a flat buffer of
    at least [Nz * Nr] items and a grid of shape [Nz x Nr],
    [cuda_copy_1d_to_2d] leaves [array_2d[iz, ir] = array_1d[iz + Nz*ir]]
    at every index of the grid; [cuda_copy_2d_to_1d] from this grid into
    a flat buffer, which may be the first one, then gives back the first
    [Nz * Nr] items of the first buffer and leaves the items behind them
    as they were. The items of the first buffer are at the end what they
    were at the start. *)
Theorem flat_round_trip
  (h0 : mem) (f g f' : handle) (Nz Nr n n' : nat) (ts1 ts2 : list tid) :
  shape_of h0 f = Some [n] →
  shape_of h0 g = Some [Nz; Nr] →
  shape_of h0 f' = Some [n'] →
  Nz * Nr ≤ n → Nz * Nr ≤ n' →
  covering Nz Nr ts1 → covering Nz Nr ts2 →
  ∃ h1 h2,
    exec (launch_copy_1d_to_2d ts1 f g) h0 = Some h1
    ∧ exec (launch_copy_2d_to_1d ts2 g f') h1 = Some h2
    ∧ (∀ iz ir, iz < Nz → ir < Nr →
         is_Some (peek h0 f [iz + Nz * ir])
         ∧ peek h1 g [iz; ir] = peek h0 f [iz + Nz * ir])
    ∧ (∀ i, i < Nz * Nr → peek h2 f' [i] = peek h0 f [i])
    ∧ (∀ i, Nz * Nr ≤ i → peek h2 f' [i] = peek h0 f' [i])
    ∧ (∀ i, peek h2 f [i] = peek h0 f [i]).
Proof.
  intros Hf Hg Hf' Hn Hn' Hc1 Hc2.
  destruct (launch_copy_1d_to_2d_spec h0 f g Nz Nr n ts1)
    as (h1 & Hx1 & Hsh1 & Hv1 & Hfr1); [done|done|done|apply Hc1|].
  destruct (launch_copy_2d_to_1d_spec h1 g f' Nz Nr n' ts2)
    as (h2 & Hx2 & Hsh2 & Hv2 & Hfr2);
    [by rewrite Hsh1|by rewrite Hsh1|done|apply Hc2|].
  assert (Hfg : f ≠ g) by (intros ->; congruence).
  assert (Hfg' : f' ≠ g) by (intros ->; congruence).
  assert (Hback : ∀ i, i < Nz * Nr → peek h2 f' [i] = peek h0 f [i]).
  { intros i Hi. destruct (flat_surj Nz Nr i Hi) as (t & Hact & Hflat).
    assert (Hin1 : t ∈ ts1) by (destruct t; by eapply covering_active).
    assert (Hin2 : t ∈ ts2) by (destruct t; by eapply covering_active).
    rewrite <- Hflat. rewrite (Hv2 t Hin2 Hact). by apply Hv1. }
  assert (Hbehind : ∀ i, Nz * Nr ≤ i → peek h2 f' [i] = peek h0 f' [i]).
  { intros i Hi. rewrite Hfr2.
    - apply Hfr1. by intros [? _].
    - intros [_ (t & _ & Hact & [= ->])].
      apply (flat_lt Nz Nr) in Hact. lia. }
  exists h1, h2. split_and!; [done|done| |done|done|].
  - intros iz ir Hz Hr.
    assert (Hact : active Nz Nr (iz, ir) = true) by (by apply active_lt).
    split.
    + eapply peek_is_Some; [done|]. apply in_bounds_1.
      apply (flat_lt Nz Nr) in Hact. cbn in Hact. lia.
    + apply (Hv1 (iz, ir)); [by eapply covering_active|done].
  - intros i. destruct (decide (f' = f)) as [->|Hne].
    + destruct (le_lt_dec (Nz * Nr) i); [by apply Hbehind|by apply Hback].
    + rewrite Hfr2 by (intros [? _]; congruence).
      apply Hfr1. by intros [? _].
Qed.

Lemma flat_round_trip_witness :
  ∃ h1 h2,
    exec (launch_copy_1d_to_2d (planned_grid Py.Py2 3 2 8 8) 1 0)
      example_longer = Some h1
    ∧ exec (launch_copy_2d_to_1d (planned_grid Py.Py2 3 2 4 4) 0 1) h1
      = Some h2
    ∧ (∀ iz ir, iz < 3 → ir < 2 →
         is_Some (peek example_longer 1 [iz + 3 * ir])
         ∧ peek h1 0 [iz; ir] = peek example_longer 1 [iz + 3 * ir])
    ∧ (∀ i, i < 3 * 2 → peek h2 1 [i] = peek example_longer 1 [i])
    ∧ (∀ i, 3 * 2 ≤ i → peek h2 1 [i] = peek example_longer 1 [i])
    ∧ (∀ i, peek h2 1 [i] = peek example_longer 1 [i]).
Proof.
  apply (flat_round_trip example_longer 1 0 1 3 2 8 8
           (planned_grid Py.Py2 3 2 8 8) (planned_grid Py.Py2 3 2 4 4));
    [reflexivity|reflexivity|reflexivity|lia|lia| |].
  - apply (planned_covering Py.Py2 3 2 8 8); [lia|lia|done|done|].
    apply planned_grid_planned.
  - apply (planned_covering Py.Py2 3 2 4 4); [lia|lia|done|done|].
    apply planned_grid_planned.
Defined.

(** X10. For grids [p], [m] of one shape and two output grids [r], [t]
    of that shape, a launch of [cuda_pm_to_rt] on any schedule covering
    the grid leaves [r = p + m] and [t = i*(p - m)] at every index,
    computed from the initial [p] and [m], also when the outputs are the
    storage of the inputs; every shape, and every item of an array that
    is not an output, is as it was. *)
Theorem pm_to_rt_combines
  (h0 : mem) (buffer_p buffer_m buffer_r buffer_t : handle) (Nz Nr : nat)
  (ts : list tid) :
  shape_of h0 buffer_p = Some [Nz; Nr] →
  shape_of h0 buffer_m = Some [Nz; Nr] →
  shape_of h0 buffer_r = Some [Nz; Nr] →
  shape_of h0 buffer_t = Some [Nz; Nr] →
  buffer_r ≠ buffer_t →
  covering Nz Nr ts →
  ∃ h', exec (launch_pm_to_rt ts buffer_p buffer_m buffer_r buffer_t) h0
        = Some h'
    ∧ (∀ a, shape_of h' a = shape_of h0 a)
    ∧ (∀ iz ir, iz < Nz → ir < Nr →
         ∃ value_p value_m,
           peek h0 buffer_p [iz; ir] = Some value_p
           ∧ peek h0 buffer_m [iz; ir] = Some value_m
           ∧ peek h' buffer_r [iz; ir] = Some (Cadd value_p value_m)
           ∧ peek h' buffer_t [iz; ir]
             = Some (Cmul Cj (Csub value_p value_m)))
    ∧ (∀ a idx, a ≠ buffer_r → a ≠ buffer_t →
         peek h' a idx = peek h0 a idx).
Proof.
  intros Hp Hm Hr Ht Hne Hc.
  destruct (launch_pm_to_rt_spec h0 buffer_p buffer_m buffer_r buffer_t
              Nz Nr ts) as (h' & Hx & Hsh & Hv & Hfr);
    auto using shape_covers; [apply Hc|].
  exists h'. split_and!; [done|done| |].
  - intros iz ir Hz Hr'.
    assert (Hact : active Nz Nr (iz, ir) = true) by (by apply active_lt).
    destruct (peek_grid h0 buffer_p Nz Nr iz ir) as [vp Hvp]; [done..|].
    destruct (peek_grid h0 buffer_m Nz Nr iz ir) as [vm Hvm]; [done..|].
    exists vp, vm. split; [done|]. split; [done|].
    apply (Hv (iz, ir) vp vm); [by eapply covering_active|done..].
  - intros a idx Hnr Hnt. apply Hfr. intros [[?|?] _]; congruence.
Qed.

Lemma pm_to_rt_combines_witness :
  ∃ h', exec (launch_pm_to_rt (planned_grid Py.Py2 2 2 8 8) 0 1 0 1)
          example_alias = Some h'
    ∧ (∀ a, shape_of h' a = shape_of example_alias a)
    ∧ (∀ iz ir, iz < 2 → ir < 2 →
         ∃ value_p value_m,
           peek example_alias 0 [iz; ir] = Some value_p
           ∧ peek example_alias 1 [iz; ir] = Some value_m
           ∧ peek h' 0 [iz; ir] = Some (Cadd value_p value_m)
           ∧ peek h' 1 [iz; ir] = Some (Cmul Cj (Csub value_p value_m)))
    ∧ (∀ a idx, a ≠ 0 → a ≠ 1 → peek h' a idx = peek example_alias a idx).
Proof.
  apply (pm_to_rt_combines example_alias 0 1 0 1 2 2
           (planned_grid Py.Py2 2 2 8 8));
    [reflexivity|reflexivity|reflexivity|reflexivity|lia|].
  apply (planned_covering Py.Py2 2 2 8 8); [lia|lia|done|done|].
  apply planned_grid_planned.
Defined.

Section OneOutput.

Implicit Types (h : mem) (t : tid) (ts : list tid).

Context (f1 f2 : C → C → C) (in1 in2 out : handle)
        (Nz Nr : nat) (h0 : mem).
Hypothesis Hin1 : shape_of h0 in1 = Some [Nz; Nr].
Hypothesis Hin2 : covers h0 in2 Nz Nr.
Hypothesis Hout : covers h0 out Nz Nr.

(** A combination whose two outputs are one array: each thread writes
    its cell twice, and the second write stays. *)
Lemma combine_launch_one_output ts :
  NoDup ts →
  ∃ h', run_threads
          (pointwise in1 (rd2 in1 in2) (wr2 f1 f2 out out)) ts h0
        = Some ((), h')
    ∧ (∀ a, shape_of h' a = shape_of h0 a)
    ∧ (∀ t v1 v2, t ∈ ts → active Nz Nr t = true →
          peek h0 in1 (idx2 t) = Some v1 →
          peek h0 in2 (idx2 t) = Some v2 →
          peek h' out (idx2 t) = Some (f2 v1 v2)).
Proof.
  intros Hnd.
  destruct (run_pointwise in1 (rd2 in1 in2) (wr2 f1 f2 out out)
              Nz Nr h0) with (ts := ts)
    as (h' & Hrun & Hsh & Hv); try done.
  { intros t l Hact. unfold rd2.
    intros [->|[->|[]%elem_of_nil]%elem_of_cons]%elem_of_cons;
      apply (covers_peek _ _ Nz Nr); auto using shape_covers. }
  { intros t vs l Hact. unfold wr2, combine_writes.
    destruct vs as [|v1 [|v2 [|??]]]; cbn;
      try (by intros []%elem_of_nil).
    intros [->|[->|[]%elem_of_nil]%elem_of_cons]%elem_of_cons;
      by apply (covers_peek _ _ Nz Nr). }
  { intros t t' vs l Hne' Hact Hact'. unfold rd2, wr2, combine_writes.
    intros Hl. destruct vs as [|v1 [|v2 [|??]]]; cbn;
      try apply not_elem_of_nil.
    intros Hw. apply Hne'. apply idx2_inj.
    apply elem_of_cons in Hl as [->|[->|[]%elem_of_nil]%elem_of_cons];
      apply elem_of_cons in Hw
        as [[= _ H1 H2]|[[= _ H1 H2]|[]%elem_of_nil]%elem_of_cons];
      unfold idx2; congruence. }
  assert (Hothers : ∀ t t' a, t' ≠ t →
    (a, idx2 t) ∉ (effects (rd2 in1 in2) (wr2 f1 f2 out out)
                     Nz Nr h0 t').*1).
  { intros t t' a Hne'. unfold effects.
    destruct (active Nz Nr t'); [|apply not_elem_of_nil].
    unfold wr2, rd2, vals. cbn.
    intros [[= _ H1 H2]|[[= _ H1 H2]|[]%elem_of_nil]%elem_of_cons]
             %elem_of_cons;
      apply Hne'; apply idx2_inj; unfold idx2; congruence. }
  exists h'. split_and!; [done|done|].
  intros t v1 v2 Hin Hact H1 H2.
  pose proof (Hv (out, idx2 t)) as Hv1.
  unfold view, override in Hv1. cbn [fst snd] in Hv1.
  rewrite (last_write_bind_unique _ ts t) in Hv1 by (intros; auto).
  unfold effects in Hv1. rewrite Hact in Hv1.
  unfold wr2, rd2, vals, view in Hv1.
  cbn [fmap list_fmap fst snd] in Hv1.
  rewrite H1, H2 in Hv1. cbn in Hv1.
  rewrite Hv1. by rewrite !decide_True by done.
Qed.

End OneOutput.

Section Surplus.

Implicit Types (h : mem) (t : tid) (ts : list tid).

(** The threads outside the guard may as well not be launched. *)
Lemma run_threads_active g rd wr Nz Nr ts h :
  shape_of h g = Some [Nz; Nr] →
  run_threads (pointwise g rd wr) ts h
  = run_threads (pointwise g rd wr) (List.filter (active Nz Nr) ts) h.
Proof.
  revert h. induction ts as [|t ts IH]; intros h Hs; cbn; [done|].
  destruct (active Nz Nr t) eqn:Hact; cbn; unfold kbind.
  - destruct (pointwise g rd wr t h) as [[[] h1]|] eqn:Ht; [|done].
    apply IH. apply (pointwise_inv _ _ _ Nz Nr) in Ht; [|done].
    rewrite Hact in Ht. destruct Ht as [Hsh _]. by rewrite Hsh.
  - apply inactive_outside in Hact. destruct t as [iz ir].
    rewrite (pointwise_outside _ _ _ Nz Nr) by done. by apply IH.
Qed.

Lemma cuda_jit_active sig body g rd wr Nz Nr ts h :
  (∀ t h, run (body t) h = pointwise g rd wr t h) →
  shape_of h g = Some [Nz; Nr] →
  cuda_jit sig body ts h
  = cuda_jit sig body (List.filter (active Nz Nr) ts) h.
Proof.
  intros Hbody Hs. unfold cuda_jit.
  destruct (forallb (has_ndim h) sig); [|done].
  rewrite (run_threads_ext _ (pointwise g rd wr) ts) by done.
  rewrite (run_threads_ext _ (pointwise g rd wr) (List.filter _ ts)) by done.
  by apply run_threads_active.
Qed.

End Surplus.

(** X11. The two outputs of a combination kernel on one array. With
    [buffer_p] and [buffer_m] the same array [out], a launch of
    [cuda_rt_to_pm] on any schedule covering the grid does not fault,
    and leaves in [out], at every index, the value of the second
    assignment, [0.5*(r + i*t)], computed from the initial [r] and [t],
    also when [out] is the storage of [r] or of [t]; and a launch of
    [cuda_pm_to_rt] with [buffer_r] and [buffer_t] the same array leaves
    [i*(p - m)] there. The value of the first assignment is lost. *)
Theorem both_outputs_on_one_array
  (h0 : mem) (in1 in2 out : handle) (Nz Nr : nat) (ts : list tid) :
  shape_of h0 in1 = Some [Nz; Nr] →
  shape_of h0 in2 = Some [Nz; Nr] →
  shape_of h0 out = Some [Nz; Nr] →
  covering Nz Nr ts →
  (∃ h', exec (launch_rt_to_pm ts in1 in2 out out) h0 = Some h'
     ∧ ∀ iz ir, iz < Nz → ir < Nr →
         ∃ value_r value_t,
           peek h0 in1 [iz; ir] = Some value_r
           ∧ peek h0 in2 [iz; ir] = Some value_t
           ∧ peek h' out [iz; ir]
             = Some (Cmul (Cfloat half) (Cadd value_r (Cmul Cj value_t))))
  ∧ (∃ h', exec (launch_pm_to_rt ts in1 in2 out out) h0 = Some h'
       ∧ ∀ iz ir, iz < Nz → ir < Nr →
           ∃ value_p value_m,
             peek h0 in1 [iz; ir] = Some value_p
             ∧ peek h0 in2 [iz; ir] = Some value_m
             ∧ peek h' out [iz; ir]
               = Some (Cmul Cj (Csub value_p value_m))).
Proof.
  intros H1 H2 Ho Hc. split.
  - destruct (combine_launch_one_output rt_p rt_m in1 in2 out Nz Nr h0)
      with (ts := ts) as (h' & Hrun & _ & Hv);
      auto using shape_covers; [apply Hc|].
    exists h'. split.
    + eapply exec_cuda_jit; [|apply cuda_rt_to_pm_pointwise|done].
      cbn. rewrite !(has_ndim_2 _ _ Nz Nr); auto using shape_covers.
    + intros iz ir Hz Hr.
      assert (Hact : active Nz Nr (iz, ir) = true) by (by apply active_lt).
      destruct (peek_grid h0 in1 Nz Nr iz ir) as [v1 Hv1]; [done..|].
      destruct (peek_grid h0 in2 Nz Nr iz ir) as [v2 Hv2]; [done..|].
      exists v1, v2. split; [done|]. split; [done|].
      apply (Hv (iz, ir) v1 v2); [by eapply covering_active|done..].
  - destruct (combine_launch_one_output pm_r pm_t in1 in2 out Nz Nr h0)
      with (ts := ts) as (h' & Hrun & _ & Hv);
      auto using shape_covers; [apply Hc|].
    exists h'. split.
    + eapply exec_cuda_jit; [|apply cuda_pm_to_rt_pointwise|done].
      cbn. rewrite !(has_ndim_2 _ _ Nz Nr); auto using shape_covers.
    + intros iz ir Hz Hr.
      assert (Hact : active Nz Nr (iz, ir) = true) by (by apply active_lt).
      destruct (peek_grid h0 in1 Nz Nr iz ir) as [v1 Hv1]; [done..|].
      destruct (peek_grid h0 in2 Nz Nr iz ir) as [v2 Hv2]; [done..|].
      exists v1, v2. split; [done|]. split; [done|].
      apply (Hv (iz, ir) v1 v2); [by eapply covering_active|done..].
Qed.

(** Both outputs on [r]: the array 0 of the example. *)
Lemma both_outputs_on_one_array_witness :
  (∃ h', exec (launch_rt_to_pm (planned_grid Py.Py2 2 2 8 8) 0 1 0 0)
           example_alias = Some h'
     ∧ ∀ iz ir, iz < 2 → ir < 2 →
         ∃ value_r value_t,
           peek example_alias 0 [iz; ir] = Some value_r
           ∧ peek example_alias 1 [iz; ir] = Some value_t
           ∧ peek h' 0 [iz; ir]
             = Some (Cmul (Cfloat half) (Cadd value_r (Cmul Cj value_t))))
  ∧ (∃ h', exec (launch_pm_to_rt (planned_grid Py.Py2 2 2 8 8) 0 1 0 0)
             example_alias = Some h'
       ∧ ∀ iz ir, iz < 2 → ir < 2 →
           ∃ value_p value_m,
             peek example_alias 0 [iz; ir] = Some value_p
             ∧ peek example_alias 1 [iz; ir] = Some value_m
             ∧ peek h' 0 [iz; ir]
               = Some (Cmul Cj (Csub value_p value_m))).
Proof.
  apply (both_outputs_on_one_array example_alias 0 1 0 2 2
           (planned_grid Py.Py2 2 2 8 8));
    [reflexivity|reflexivity|reflexivity|].
  apply (planned_covering Py.Py2 2 2 8 8); [lia|lia|done|done|].
  apply planned_grid_planned.
Defined.

(** X12. The threads outside the guard may as well not be launched: for
    each of the five kernels, a launch on any threads has the outcome,
    fault or memory, of the launch on those of the threads that are
    inside the extents of the guarded array, in the same order. So the
    number of blocks beyond those that cover the array is of no
    effect. *)
Theorem surplus_threads_do_nothing
  (k : call) (ts : list tid) (h : mem) (Nz Nr : nat) :
  shape_of h (guard_array k) = Some [Nz; Nr] →
  launch k ts h = launch k (List.filter (active Nz Nr) ts) h.
Proof.
  intros Hs. destruct k as [a b|a b|a b|r t p m|p m r t];
    cbn [launch guard_array] in *.
  - by apply (cuda_jit_active _ _ a (rd1 a (λ _, idx2)) (wr1 b (λ _, idx2)));
      [apply cuda_copy_2d_to_2d_pointwise|].
  - by apply (cuda_jit_active _ _ a (rd1 a (λ _, idx2)) (wr1 b flat));
      [apply cuda_copy_2d_to_1d_pointwise|].
  - by apply (cuda_jit_active _ _ b (rd1 a flat) (wr1 b (λ _, idx2)));
      [apply cuda_copy_1d_to_2d_pointwise|].
  - by apply (cuda_jit_active _ _ r (rd2 r t) (wr2 rt_p rt_m p m));
      [apply cuda_rt_to_pm_pointwise|].
  - by apply (cuda_jit_active _ _ p (rd2 p m) (wr2 pm_r pm_t r t));
      [apply cuda_pm_to_rt_pointwise|].
Qed.

Lemma surplus_threads_do_nothing_witness :
  launch (Copy2dTo1d 0 1) (planned_grid Py.Py2 3 2 8 8) example_longer
  = launch (Copy2dTo1d 0 1)
      (List.filter (active 3 2) (planned_grid Py.Py2 3 2 8 8)) example_longer.
Proof.
  apply (surplus_threads_do_nothing (Copy2dTo1d 0 1)
           (planned_grid Py.Py2 3 2 8 8) example_longer 3 2).
  reflexivity.
Defined.

Section Orders.

Implicit Types (h g : mem) (t : tid) (ts : list tid).

(** A launch that is not refused has a guarded array of two
    dimensions. *)
Lemma exec_launch_guard k ts h h' :
  exec (launch k ts) h = Some h' →
  ∃ Nz Nr, shape_of h (guard_array k) = Some [Nz; Nr].
Proof.
  assert (H2 : ∀ a, has_ndim h (a, 2) = true →
                    ∃ Nz Nr, shape_of h a = Some [Nz; Nr]).
  { intros a. unfold has_ndim. cbn.
    destruct (shape_of h a) as [[|Nz [|Nr [|??]]]|]; cbn; try done.
    eauto. }
  destruct k as [a b|a b|a b|r t p m|p m r t];
    unfold exec, launch, launch_copy_2d_to_2d, launch_copy_2d_to_1d,
      launch_copy_1d_to_2d, launch_rt_to_pm, launch_pm_to_rt, cuda_jit;
    cbn [forallb guard_array];
    intros Hx; apply H2;
    repeat match type of Hx with
    | context [has_ndim h ?x] =>
        destruct (has_ndim h x) eqn:?; cbn [andb] in Hx; try done
    end.
Qed.

(** The threads of a launch that was not refused, launched in another
    order. *)
Lemma launch_exec k ts ts' h h' h'' :
  exec (launch k ts) h = Some h' →
  run_threads (λ t, run (body_of k t)) ts' h = Some ((), h'') →
  exec (launch k ts') h = Some h''.
Proof.
  destruct k;
    unfold exec, launch, launch_copy_2d_to_2d, launch_copy_2d_to_1d,
      launch_copy_1d_to_2d, launch_rt_to_pm, launch_pm_to_rt, cuda_jit;
    cbn [body_of];
    (destruct (forallb _ _); [|done]); by intros _ ->.
Qed.

Context (body : tid → prog unit) (h0 : mem) (Nz Nr : nat).
Hypothesis Hbody : ∀ t, within (shape_of h0) (foot Nz Nr t) (body t).

(** The threads that are left, run one after the other from a launch in
    progress in which the others have finished: no fault. *)
Lemma schedule_runs_from ts :
  NoDup ts → ∀ rest done h,
  ts = done ++ rest →
  in_progress body ts h0 Nz Nr
    (replicate (length done) (Ret ()) ++ (body <$> rest)) h →
  ∃ h', run_threads (λ t, run (body t)) rest h = Some ((), h').
Proof.
  intros Hnd rest. induction rest as [|t rest IH]; intros done h Hts Hin.
  - by exists h.
  - pose proof Hin as (_ & _ & Hth & _).
    destruct (Hth (length done) t (body t)) as (_ & g & _ & Hg & _).
    { rewrite Hts. by apply list_lookup_middle. }
    { cbn. apply list_lookup_middle. by rewrite length_replicate. }
    cbn. unfold kbind. rewrite Hg.
    apply (IH (done ++ [t]) g); [by rewrite <- app_assoc|].
    pose proof (run_accesses _ _ _ Hg) as Hacc.
    pose proof (step_thread_accesses (length done) _ _ Hacc
                  (replicate (length done) (Ret ()) ++ (body <$> t :: rest)))
      as Hsteps.
    cbn in Hsteps.
    rewrite insert_app_r_alt in Hsteps by (by rewrite length_replicate).
    rewrite length_replicate, Nat.sub_diag in Hsteps. cbn in Hsteps.
    rewrite length_app. cbn.
    rewrite replicate_add, <- app_assoc. cbn.
    apply (in_progress_steps body h0 Nz Nr ts Hnd _ _
             (Hsteps ltac:(apply list_lookup_middle;
                           by rewrite length_replicate)) Hin).
Qed.

Lemma schedule_runs ts :
  NoDup ts →
  (∀ t, t ∈ ts → is_Some (run (body t) h0)) →
  ∃ h', run_threads (λ t, run (body t)) ts h0 = Some ((), h').
Proof.
  intros Hnd Halone.
  apply (schedule_runs_from ts Hnd ts [] h0); [done|].
  by apply in_progress_start.
Qed.

(** The memory a schedule leaves, cell by cell. *)
Lemma schedule_end ts h' :
  NoDup ts →
  run_threads (λ t, run (body t)) ts h0 = Some ((), h') →
  (∀ a, shape_of h' a = shape_of h0 a)
  ∧ (∀ t l, t ∈ ts → foot Nz Nr t l →
       ∃ g0, run (body t) h0 = Some ((), g0) ∧ view h' l = view g0 l)
  ∧ (∀ l, (∀ t, t ∈ ts → ¬ foot Nz Nr t l) → view h' l = view h0 l).
Proof.
  intros Hnd Hrun.
  assert (Halone : ∀ t, t ∈ ts → is_Some (run (body t) h0)).
  { by apply (schedule_alone body h0 Nz Nr Hbody ts h0 h'). }
  pose proof (in_progress_start body h0 Nz Nr Hbody ts Halone) as Hin0.
  pose proof (schedule_steps body ts 0 h0 h' Hrun) as Hseq. cbn in Hseq.
  pose proof (in_progress_steps body h0 Nz Nr ts Hnd _ _ Hseq Hin0) as Hin.
  cbn in Hin.
  apply (in_progress_finished body h0 Nz Nr ts _ _ Hin).
  by apply Forall_replicate.
Qed.

End Orders.

Section Permuted.

Implicit Types (h g : mem) (t : tid) (ts : list tid).

Lemma launch_permuted k ts ts' h0 h1 :
  NoDup ts → ts ≡ₚ ts' →
  exec (launch k ts) h0 = Some h1 →
  ∃ h2, exec (launch k ts') h0 = Some h2
    ∧ (∀ a, shape_of h1 a = shape_of h2 a)
    ∧ (∀ a idx, peek h1 a idx = peek h2 a idx).
Proof.
  intros Hnd Hp Hx.
  destruct (exec_launch_guard _ _ _ _ Hx) as (Nz & Nr & Hs).
  pose proof (exec_launch _ _ _ _ Hx) as Hrun.
  assert (Hw : ∀ t, within (shape_of h0) (foot Nz Nr t) (body_of k t))
    by (intros t; by apply body_within).
  assert (Hnd' : NoDup ts') by (by rewrite <- Hp).
  assert (Halone : ∀ t, t ∈ ts' → is_Some (run (body_of k t) h0)).
  { intros t Ht. rewrite <- Hp in Ht.
    by apply (schedule_alone (body_of k) h0 Nz Nr Hw ts h0 h1). }
  destruct (schedule_runs (body_of k) h0 Nz Nr Hw ts' Hnd' Halone)
    as [h2 Hrun'].
  exists h2. split; [by eapply launch_exec|].
  destruct (schedule_end (body_of k) h0 Nz Nr Hw ts h1 Hnd Hrun)
    as (Hsh & Hc & Hfr).
  destruct (schedule_end (body_of k) h0 Nz Nr Hw ts' h2 Hnd' Hrun')
    as (Hsh' & Hc' & Hfr').
  split; [intros a; by rewrite Hsh, Hsh'|]. intros a idx.
  change (view h1 (a, idx) = view h2 (a, idx)).
  assert (Hdec : Decision (Exists (λ t, foot Nz Nr t (a, idx)) ts)).
  { apply Exists_dec. intros t. apply foot_dec. }
  destruct Hdec as [Hex|Hno].
  - apply Exists_exists in Hex as (t & Hin_t & Hl).
    destruct (Hc t _ Hin_t Hl) as (g0 & Hg0 & ->).
    destruct (Hc' t (a, idx)) as (g0' & Hg0' & ->);
      [by rewrite <- Hp|done|]. congruence.
  - rewrite Hfr, Hfr'; [done|..].
    + intros t Ht Hl. apply Hno, Exists_exists. exists t.
      by rewrite Hp.
    + intros t Ht Hl. apply Hno, Exists_exists. eauto.
Qed.

End Permuted.

(** X13. The outcome of a launch does not depend on the order of its
    threads. For each of the five kernels and all arguments, aliased or
    not, two launches of the same threads in two orders from the same
    memory both fault or both do not, and then they leave the same
    shapes and the same items. *)
Theorem launch_order_independent
  (k : call) (ts ts' : list tid) (h0 : mem) :
  NoDup ts → ts ≡ₚ ts' →
  match exec (launch k ts) h0, exec (launch k ts') h0 with
  | Some h1, Some h2 =>
      (∀ a, shape_of h1 a = shape_of h2 a)
      ∧ (∀ a idx, peek h1 a idx = peek h2 a idx)
  | None, None => True
  | _, _ => False
  end.
Proof.
  intros Hnd Hp.
  assert (Hnd' : NoDup ts') by (by rewrite <- Hp).
  destruct (exec (launch k ts) h0) as [h1|] eqn:Hx;
    destruct (exec (launch k ts') h0) as [h2|] eqn:Hx'; [| | |done].
  - destruct (launch_permuted k ts ts' h0 h1 Hnd Hp Hx)
      as (h2' & Hx2 & Hsh & Hv).
    rewrite Hx' in Hx2. by injection Hx2 as <-.
  - destruct (launch_permuted k ts ts' h0 h1 Hnd Hp Hx) as (h2' & Hx2 & _).
    by rewrite Hx' in Hx2.
  - destruct (launch_permuted k ts' ts h0 h2 Hnd' (symmetry Hp) Hx')
      as (h1' & Hx1 & _).
    by rewrite Hx in Hx1.
Qed.

(** The way back in place, with the threads in the order of the grid and
    in the reverse order. *)
Lemma launch_order_independent_witness :
  match exec (launch (PmToRt 0 1 0 1) (planned_grid Py.Py2 2 2 8 8))
          example_alias,
        exec (launch (PmToRt 0 1 0 1) (reverse (planned_grid Py.Py2 2 2 8 8)))
          example_alias with
  | Some h1, Some h2 =>
      (∀ a, shape_of h1 a = shape_of h2 a)
      ∧ (∀ a idx, peek h1 a idx = peek h2 a idx)
  | None, None => True
  | _, _ => False
  end.
Proof.
  apply (launch_order_independent (PmToRt 0 1 0 1)
           (planned_grid Py.Py2 2 2 8 8)
           (reverse (planned_grid Py.Py2 2 2 8 8)) example_alias).
  - apply (planned_covering Py.Py2 2 2 8 8); [lia|lia|done|done|].
    apply planned_grid_planned.
  - symmetry. apply reverse_Permutation.
Defined.

Section Bounds.

Implicit Types (h : mem) (t : tid) (ts : list tid).

Lemma peek_beyond h f n i :
  shape_of h f = Some [n] → n ≤ i → ¬ is_Some (peek h f [i]).
Proof.
  intros Hf Hi Hsome. apply (peek_is_Some _ _ _ _ Hf) in Hsome.
  apply in_bounds_1 in Hsome. lia.
Qed.

(** A thread inside the guard whose flat index is beyond the flat
    buffer: a fault, in the copy to the buffer and in the copy from
    it. *)
Lemma copy_2d_to_1d_thread_faults h g f Nz Nr n t :
  shape_of h g = Some [Nz; Nr] → shape_of h f = Some [n] →
  active Nz Nr t = true → n ≤ t.1 + Nz * t.2 →
  run (cuda_copy_2d_to_1d g f t) h = None.
Proof.
  intros Hg Hf Hact Hn. rewrite cuda_copy_2d_to_1d_pointwise.
  unfold pointwise, kbind. destruct t as [iz ir].
  rewrite (guard_shape _ _ _ _ _ _ Hg). cbn [fst snd]. rewrite Hact.
  rewrite shape_at_shape, Hg. cbn in *. unfold kbind, kret, idx2, flat.
  cbn [fst snd].
  destruct (kload g [iz; ir] h) as [[v h1]|] eqn:Hl; [|done].
  apply kload_inv in Hl as [-> _]. cbn. unfold kbind.
  destruct (kstore f [iz + Nz * ir] v h) as [[[] h1]|] eqn:Hst; [|done].
  apply store_inv in Hst as [Hsome _].
  by apply (peek_beyond _ _ _ _ Hf Hn) in Hsome.
Qed.

Lemma copy_1d_to_2d_thread_faults h g f Nz Nr n t :
  shape_of h g = Some [Nz; Nr] → shape_of h f = Some [n] →
  active Nz Nr t = true → n ≤ t.1 + Nz * t.2 →
  run (cuda_copy_1d_to_2d f g t) h = None.
Proof.
  intros Hg Hf Hact Hn. rewrite cuda_copy_1d_to_2d_pointwise.
  unfold pointwise, kbind. destruct t as [iz ir].
  rewrite (guard_shape _ _ _ _ _ _ Hg). cbn [fst snd]. rewrite Hact.
  rewrite shape_at_shape, Hg. cbn in *. unfold kbind, kret, idx2, flat.
  cbn [fst snd].
  destruct (kload f [iz + Nz * ir] h) as [[v h1]|] eqn:Hl; [|done].
  apply kload_inv in Hl as [_ Hv]. unfold view in Hv. cbn in Hv.
  destruct (peek_beyond _ _ _ _ Hf Hn). by rewrite Hv.
Qed.

(** A launch in which a thread faults when run alone from the start is
    a fault. *)
Lemma launch_faults k ts h0 Nz Nr t :
  shape_of h0 (guard_array k) = Some [Nz; Nr] →
  NoDup ts → t ∈ ts →
  run (body_of k t) h0 = None →
  exec (launch k ts) h0 = None.
Proof.
  intros Hs Hnd Hin Ht.
  destruct (exec (launch k ts) h0) as [h'|] eqn:Hx; [|done].
  apply exec_launch in Hx.
  assert (Hw : ∀ t, within (shape_of h0) (foot Nz Nr t) (body_of k t))
    by (intros t'; by apply body_within).
  destruct (schedule_alone (body_of k) h0 Nz Nr Hw ts h0 h' Hnd
              (λ _, eq_refl) (λ _ _ _ _, eq_refl) Hx t Hin) as [r Hr].
  by rewrite Ht in Hr.
Qed.

End Bounds.

Section Order.

(** Follows a body access by access, on both outcomes of each test. *)
Ltac in_order :=
  repeat lazymatch goal with
  | |- reads_first (Ret _) => constructor
  | |- reads_first (ShapeAt _ _ _) => constructor; intros ?; cbn
  | |- reads_first (Load _ _ _) => constructor; intros ?; cbn
  | |- reads_first (Store _ _ _ _) => constructor; cbn
  | |- reads_first (if ?b then _ else _) => destruct b; cbn
  | |- reads_first (pbind (if ?b then _ else _) _) => destruct b; cbn
  | |- reads_first (store _ _ _) => unfold store
  | |- no_load (Ret _) => constructor
  | |- no_load (ShapeAt _ _ _) => constructor; intros ?; cbn
  | |- no_load (Store _ _ _ _) => constructor; cbn
  | |- no_load (store _ _ _) => unfold store
  end.

(** X15. In the body of each of the five kernels, for every thread and
    whatever the shapes and the items it finds, no item is read after an
    item has been written: the values that a thread writes are all read,
    and held by the thread, before its first assignment, as the comment
    on the intermediate variables of the combination kernels asks. *)
Theorem reads_come_before_writes (k : call) (t : tid) :
  reads_first (body_of k t).
Proof.
  destruct t as [iz ir].
  destruct k as [a b|a b|a b|r t p m|p m r t]; cbn.
  - in_order.
  - in_order.
  - in_order.
  - in_order.
  - in_order.
Qed.

End Order.

(** The accesses of the threads of the way out in place, interleaved in
    any way. *)
Lemma interleaved_launch_witness :
  ∃ h_seq,
    exec (launch (RtToPm 0 1 0 1) (planned_grid Py.Py2 2 2 8 8))
      example_basis = Some h_seq
    ∧ ∀ ps h,
        rtc step (body_of (RtToPm 0 1 0 1) <$> planned_grid Py.Py2 2 2 8 8,
                  example_basis) (ps, h) →
        (∀ i p, ps !! i = Some p → p = Ret () ∨ ∃ p' h', access p h p' h')
        ∧ (∃ ps' h', rtc step (ps, h) (ps', h') ∧ finished ps')
        ∧ (finished ps →
           (∀ a, shape_of h a = shape_of h_seq a)
           ∧ ∀ a idx, peek h a idx = peek h_seq a idx).
Proof.
  destruct (exec (launch (RtToPm 0 1 0 1) (planned_grid Py.Py2 2 2 8 8))
              example_basis) as [h_seq|] eqn:Hx.
  - exists h_seq. split; [reflexivity|].
    apply (interleaved_launch (RtToPm 0 1 0 1)
             (planned_grid Py.Py2 2 2 8 8) example_basis h_seq 2 2);
      [reflexivity| |exact Hx].
    apply (planned_covering Py.Py2 2 2 8 8); [lia|lia|done|done|].
    apply planned_grid_planned.
  - vm_compute in Hx. discriminate Hx.
Defined.

(** X16. The guard of the combination kernels reads the extents of the
    first argument: [buffer_r] for [cuda_rt_to_pm], [buffer_p] for
    [cuda_pm_to_rt]. A thread at or beyond either extent returns with
    the memory as it was, whatever the three other arguments are, and no
    access of its body is to an item of an array. *)
Theorem guard_of_the_combination_kernels
  (h : mem) (g a b c : handle) (Nz Nr iz ir : nat) :
  shape_of h g = Some [Nz; Nr] →
  Nz ≤ iz ∨ Nr ≤ ir →
  run (cuda_rt_to_pm g a b c (iz, ir)) h = Some ((), h)
  ∧ run (cuda_pm_to_rt g a b c (iz, ir)) h = Some ((), h)
  ∧ within (shape_of h) (λ _, False) (cuda_rt_to_pm g a b c (iz, ir))
  ∧ within (shape_of h) (λ _, False) (cuda_pm_to_rt g a b c (iz, ir)).
Proof.
  intros Hs Hout.
  assert (Hno : ∀ l, foot Nz Nr (iz, ir) l → False).
  { intros l [Hact _]. by rewrite not_active in Hact. }
  split_and!.
  - rewrite cuda_rt_to_pm_pointwise. by eapply pointwise_outside.
  - rewrite cuda_pm_to_rt_pointwise. by eapply pointwise_outside.
  - apply (within_mono _ _ _ _ Hno).
    by apply (body_within (RtToPm g a b c)).
  - apply (within_mono _ _ _ _ Hno).
    by apply (body_within (PmToRt g a b c)).
Qed.

(** The thread (0, 2) on grids of shape 2 x 2; the arrays 8 and 9 are
    not in the memory. *)
Lemma guard_of_the_combination_kernels_witness :
  run (cuda_rt_to_pm 0 1 8 9 (0, 2)) example_basis = Some ((), example_basis)
  ∧ run (cuda_pm_to_rt 0 1 8 9 (0, 2)) example_basis
    = Some ((), example_basis)
  ∧ within (shape_of example_basis) (λ _, False)
      (cuda_rt_to_pm 0 1 8 9 (0, 2))
  ∧ within (shape_of example_basis) (λ _, False)
      (cuda_pm_to_rt 0 1 8 9 (0, 2)).
Proof.
  apply (guard_of_the_combination_kernels example_basis 0 1 8 9 2 2 0 2);
    [reflexivity|lia].
Defined.

(** X17. The size of the flat buffer is not checked. With a grid of
    shape [Nz x Nr] and a flat buffer of fewer than [Nz * Nr] items, a
    launch of [cuda_copy_2d_to_1d] on any schedule covering the grid has
    a thread that writes outside the buffer, and a launch of
    [cuda_copy_1d_to_2d] has a thread that reads outside it: a fault
    both times, whatever the order of the threads. *)
Theorem short_flat_buffer_faults
  (h0 : mem) (array_2d array_1d : handle) (Nz Nr n : nat) (ts : list tid) :
  shape_of h0 array_2d = Some [Nz; Nr] →
  shape_of h0 array_1d = Some [n] →
  n < Nz * Nr →
  covering Nz Nr ts →
  exec (launch_copy_2d_to_1d ts array_2d array_1d) h0 = None
  ∧ exec (launch_copy_1d_to_2d ts array_1d array_2d) h0 = None
  ∧ ∃ iz ir, iz < Nz ∧ ir < Nr ∧ n = iz + Nz * ir
      ∧ run (cuda_copy_2d_to_1d array_2d array_1d (iz, ir)) h0 = None
      ∧ run (cuda_copy_1d_to_2d array_1d array_2d (iz, ir)) h0 = None.
Proof.
  intros Hg Hf Hn [Hnd Hc].
  destruct (flat_surj Nz Nr n Hn) as ([iz ir] & Hact & [= Hflat]).
  cbn in Hflat.
  pose proof Hact as [Hz Hr]%active_lt. cbn in Hz, Hr.
  assert (Hin : (iz, ir) ∈ ts) by (by apply Hc).
  assert (H1 : run (cuda_copy_2d_to_1d array_2d array_1d (iz, ir)) h0 = None).
  { apply (copy_2d_to_1d_thread_faults _ _ _ Nz Nr n); try done. cbn. lia. }
  assert (H2 : run (cuda_copy_1d_to_2d array_1d array_2d (iz, ir)) h0 = None).
  { apply (copy_1d_to_2d_thread_faults _ _ _ Nz Nr n); try done. cbn. lia. }
  split_and!.
  - by apply (launch_faults (Copy2dTo1d array_2d array_1d) ts h0 Nz Nr
                (iz, ir)).
  - by apply (launch_faults (Copy1dTo2d array_1d array_2d) ts h0 Nz Nr
                (iz, ir)).
  - exists iz, ir. split_and!; [done|done|lia|done|done].
Qed.

(** The grid of shape 3 x 2 of the example before a flat buffer of four
    items. *)
Lemma short_flat_buffer_faults_witness :
  exec (launch_copy_2d_to_1d (planned_grid Py.Py2 3 2 8 8) 0 1)
    (<[1 := example_flat_4]> example_layout) = None
  ∧ exec (launch_copy_1d_to_2d (planned_grid Py.Py2 3 2 8 8) 1 0)
      (<[1 := example_flat_4]> example_layout) = None
  ∧ ∃ iz ir, iz < 3 ∧ ir < 2 ∧ 4 = iz + 3 * ir
      ∧ run (cuda_copy_2d_to_1d 0 1 (iz, ir))
          (<[1 := example_flat_4]> example_layout) = None
      ∧ run (cuda_copy_1d_to_2d 1 0 (iz, ir))
          (<[1 := example_flat_4]> example_layout) = None.
Proof.
  apply (short_flat_buffer_faults (<[1 := example_flat_4]> example_layout)
           0 1 3 2 4 (planned_grid Py.Py2 3 2 8 8));
    [reflexivity|reflexivity|lia|].
  apply (planned_covering Py.Py2 3 2 8 8); [lia|lia|done|done|].
  apply planned_grid_planned.
Defined.
